(** * heic-ocr: a shallow embedding of the nameplate OCR pipeline

    The development follows the Python sources module by module:
    - [Text]       the [str] methods the sources call ([lower], [strip], [in], ...);
    - [Paths]      [pathlib.Path] values: parts, [name], [stem], [suffix], ordering;
    - [Sys]        the world the program runs in (file tree, standard output,
                   trace of codec calls) and the monad that threads it;
    - [Fs]         the file operations of [pathlib] and [shutil];
    - [Preprocess] src/preprocess.py;
    - [Ocr]        src/ocr.py;
    - [Selector]   [choose_best_ocr_result] of src/main.py;
    - [Re]         the regular expressions of [re], with a backtracking matcher;
    - [Extract]    src/extract.py;
    - [Csv], [Dict], [IoUtils]   the [csv] writer and reader, src/io_utils.py;
    - [HeicUtils]  src/heic_utils.py;
    - [Argparse], [Main]   the command line and the rest of src/main.py;
    - [Demo]       concrete libraries and file trees to run the model on;
    - [Vocabulary] the predicates the statements are written with.

    The external libraries (image codec, OCR engines, date parser, JSON) are
    parameters, given as type classes.  The properties come after the
    definitions, one module of facts per part of the program.

    Text is a list of 8-bit characters, read as the code points U+0000..U+00FF.
    A confidence is a rational number: every finite float is one, and the
    only operation the sources apply to confidences besides the mean is [>]. *)

From stdpp Require Import gmap strings list sorting.
From Stdlib Require Import QArith Ascii DecimalString Lqa.

#[local] Open Scope Z_scope.
#[local] Open Scope list_scope.

Abbreviation str := (list ascii).
Notation "$ s" := (String.list_ascii_of_string s%string) (at level 1, format "$ s").

(** ** Python [str] methods *)
Module Text.

Definition code (c : ascii) : N := N_of_ascii c.

Definition between (lo hi : N) (c : ascii) : bool :=
  ((lo <=? code c) && (code c <=? hi))%N.

(** [str.lower] on U+0000..U+00FF: A-Z, and the Latin-1 capitals
    U+00C0..U+00DE except the multiplication sign U+00D7, move up by 32. *)
Definition is_upper (c : ascii) : bool :=
  between 65 90 c || (between 192 222 c && negb (code c =? 215)%N).

Definition lower_char (c : ascii) : ascii :=
  if is_upper c then ascii_of_N (code c + 32) else c.

Definition lower (s : str) : str := map lower_char s.

(** [str.upper] of an ASCII letter; [capitalize] below is only applied to
    the tokens of ASCII keywords. *)
Definition upper_char (c : ascii) : ascii :=
  if between 97 122 c then ascii_of_N (code c - 32) else c.

(** [str.capitalize]: first character upper-cased, the rest lower-cased. *)
Definition capitalize (s : str) : str :=
  match s with
  | [] => []
  | c :: rest => upper_char c :: lower rest
  end.

(** [str.isspace] for one character: TAB LF VT FF CR, U+001C..U+001F,
    SPACE, U+0085 and U+00A0. *)
Definition is_space (c : ascii) : bool :=
  between 9 13 c || between 28 32 c || (code c =? 133)%N || (code c =? 160)%N.

Definition mem_char (c : ascii) (chars : str) : bool :=
  existsb (Ascii.eqb c) chars.

Fixpoint lstrip_by (p : ascii -> bool) (s : str) : str :=
  match s with
  | [] => []
  | c :: rest => if p c then lstrip_by p rest else s
  end.

Fixpoint rstrip_by (p : ascii -> bool) (s : str) : str :=
  match s with
  | [] => []
  | c :: rest =>
      match rstrip_by p rest with
      | [] => if p c then [] else [c]
      | r => c :: r
      end
  end.

Definition strip_by (p : ascii -> bool) (s : str) : str :=
  rstrip_by p (lstrip_by p s).

(** [s.strip()] *)
Definition strip (s : str) : str := strip_by is_space s.

(** [s.strip(chars)] *)
Definition strip_chars (chars : str) (s : str) : str :=
  strip_by (fun c => mem_char c chars) s.

Fixpoint starts_with (p s : str) : bool :=
  match p, s with
  | [], _ => true
  | _ :: _, [] => false
  | a :: p', b :: s' => Ascii.eqb a b && starts_with p' s'
  end.

(** [sub in s] *)
Fixpoint contains (sub s : str) : bool :=
  starts_with sub s ||
  match s with
  | [] => false
  | _ :: rest => contains sub rest
  end.

(** [sep.join(parts)] *)
Fixpoint join (sep : str) (parts : list str) : str :=
  match parts with
  | [] => []
  | [p] => p
  | p :: rest => p ++ sep ++ join sep rest
  end.

(** [s.split()]: maximal runs of non-whitespace characters. *)
Fixpoint split_ws_from (cur : str) (s : str) : list str :=
  match s with
  | [] => match cur with [] => [] | _ => [reverse cur] end
  | c :: rest =>
      if is_space c
      then match cur with
           | [] => split_ws_from [] rest
           | _ => reverse cur :: split_ws_from [] rest
           end
      else split_ws_from (c :: cur) rest
  end.

Definition split_ws (s : str) : list str := split_ws_from [] s.

(** [str(n)] for an integer. *)
Definition str_of_Z (z : Z) : str :=
  String.list_ascii_of_string (DecimalString.NilZero.string_of_int (Z.to_int z)).

End Text.

(** ** [pathlib.Path] *)
Module Paths.

(** A path is the list of its parts; [Path("in/sub/a.heic")] is
    [["in"; "sub"; "a.heic"]]. *)
Abbreviation Path := (list str).

(** [path.name] *)
Definition name (p : Path) : str := List.last p [].

(** [s.rfind(c)] *)
Fixpoint rfind (c : ascii) (s : str) : option nat :=
  match s with
  | [] => None
  | x :: rest =>
      match rfind c rest with
      | Some i => Some (S i)
      | None => if Ascii.eqb x c then Some 0%nat else None
      end
  end.

(** [0 < i < len(name) - 1] for [i = name.rfind('.')]: the place where
    [suffix] and [stem] cut the name, when there is one. *)
Definition suffix_index (nm : str) : option nat :=
  match rfind "."%char nm with
  | Some i => if (0 <? i)%nat && (i <? length nm - 1)%nat then Some i else None
  | None => None
  end.

(** [path.suffix] *)
Definition suffix (p : Path) : str :=
  match suffix_index (name p) with
  | Some i => drop i (name p)
  | None => []
  end.

(** [path.stem] *)
Definition stem (p : Path) : str :=
  match suffix_index (name p) with
  | Some i => take i (name p)
  | None => name p
  end.

(** [dir / name] for a one-part name. *)
Definition joinpath (dir : Path) (nm : str) : Path := dir ++ [nm].

(** [str(path)] *)
Definition path_str (p : Path) : str :=
  match p with
  | root :: rest => if bool_decide (root = $"/") then $"/" ++ Text.join $"/" rest
                    else Text.join $"/" p
  | [] => $"."
  end.

(** [path.parent] *)
Definition parent (p : Path) : Path := removelast p.

(** [a < b] on [str]: lexicographic on code points. *)
Fixpoint str_ltb (a b : str) : bool :=
  match a, b with
  | _, [] => false
  | [], _ :: _ => true
  | x :: a', y :: b' =>
      (Text.code x <? Text.code y)%N
      || ((Text.code x =? Text.code y)%N && str_ltb a' b')
  end.

(** [a < b] on paths: lexicographic on the parts. *)
Fixpoint path_ltb (a b : Path) : bool :=
  match a, b with
  | _, [] => false
  | [], _ :: _ => true
  | x :: a', y :: b' =>
      str_ltb x y || (bool_decide (x = y) && path_ltb a' b')
  end.

Definition path_le (a b : Path) : Prop := path_ltb b a = false.

#[global] Instance path_le_dec (a b : Path) : Decision (path_le a b).
Proof. unfold path_le. apply _. Defined.

(** [sorted(paths)] *)
Definition sorted (l : list Path) : list Path := merge_sort path_le l.

(** [prefix] is a proper ancestor of [p]. *)
Fixpoint is_under (dir p : Path) : bool :=
  match dir, p with
  | [], _ :: _ => true
  | x :: dir', y :: p' => bool_decide (x = y) && is_under dir' p'
  | _, [] => false
  end.

End Paths.
Import Paths.

(** ** The world the program runs in *)
Module Sys.

Abbreviation bytes := (list ascii).

Inductive node : Type :=
| Dir
| File (data : bytes).

(** The exceptions the sources raise or let through.  [SystemExit] is the
    one that [except Exception] does not catch. *)
Inductive exn : Type :=
| RuntimeError (msg : str)
| OSError (p : Path)
| DecodeError (p : Path)
| ValueError (v : str)
| SystemExit (status : Z).

Definition is_Exception (e : exn) : bool :=
  match e with
  | SystemExit _ => false
  | _ => true
  end.

(** Calls into the image codec and [shutil], recorded in call order. *)
Inductive event : Type :=
| ConvertCall (src dst : Path)
| CopyCall (src dst : Path).

#[global] Instance event_eq_dec : EqDecision event.
Proof. solve_decision. Defined.

Definition call_src (e : event) : Path :=
  match e with
  | ConvertCall src _ | CopyCall src _ => src
  end.

Definition call_dst (e : event) : Path :=
  match e with
  | ConvertCall _ dst | CopyCall _ dst => dst
  end.

Record world : Type := World {
  fs : gmap Path node;
  stdout : list str;
  calls : list event
}.

Inductive result (A : Type) : Type :=
| Ok (a : A)
| Raise (e : exn).
Arguments Ok {A} a.
Arguments Raise {A} e.

Definition Run (A : Type) : Type := world -> result A * world.

Definition ret {A} (a : A) : Run A := fun w => (Ok a, w).

Definition bind {A B} (c : Run A) (k : A -> Run B) : Run B :=
  fun w =>
    match c w with
    | (Ok a, w') => k a w'
    | (Raise e, w') => (Raise e, w')
    end.

Definition raise {A} (e : exn) : Run A := fun w => (Raise e, w).

(** [try: c  except Exception as exc: h exc] *)
Definition try_except {A} (c : Run A) (h : exn -> Run A) : Run A :=
  fun w =>
    match c w with
    | (Ok a, w') => (Ok a, w')
    | (Raise e, w') => if is_Exception e then h e w' else (Raise e, w')
    end.

Definition get_fs : Run (gmap Path node) := fun w => (Ok (fs w), w).

Definition put_fs (m : gmap Path node) : Run unit :=
  fun w => (Ok tt, World m (stdout w) (calls w)).

(** [print(msg)] *)
Definition print (msg : str) : Run unit :=
  fun w => (Ok tt, World (fs w) (stdout w ++ [msg]) (calls w)).

Definition record_call (e : event) : Run unit :=
  fun w => (Ok tt, World (fs w) (stdout w) (calls w ++ [e])).

End Sys.
Import Sys.

Declare Scope run_scope.
Delimit Scope run_scope with run.
Notation "x <- c ;; k" := (Sys.bind c (fun x => k))
  (at level 100, c at next level, right associativity) : run_scope.
Notation "c ;;; k" := (Sys.bind c (fun _ => k))
  (at level 100, right associativity) : run_scope.
#[local] Open Scope run_scope.

(** ** File operations of [pathlib], [open] and [shutil] *)
Module Fs.

(** [path.exists()] *)
Definition path_exists (p : Path) : Run bool :=
  m <- get_fs ;; ret (bool_decide (is_Some (m !! p))).

(** [path.is_file()] *)
Definition is_file (m : gmap Path node) (p : Path) : bool :=
  match m !! p with
  | Some (File _) => true
  | _ => false
  end.

(** [path.is_dir()] *)
Definition is_dir (m : gmap Path node) (p : Path) : bool :=
  match m !! p with
  | Some Dir => true
  | _ => false
  end.

(** The ancestors of [p] and [p] itself, outermost first. *)
Definition ancestors_and_self (p : Path) : list Path :=
  map (fun n => take n p) (seq 1 (length p)).

Fixpoint mkdir_each (ps : list Path) : Run unit :=
  match ps with
  | [] => ret tt
  | p :: rest =>
      m <- get_fs ;;
      match m !! p with
      | Some (File _) => raise (OSError p)
      | Some Dir => mkdir_each rest
      | None => put_fs (<[p := Dir]> m) ;;; mkdir_each rest
      end
  end.

(** [path.mkdir(parents=True, exist_ok=True)] *)
Definition mkdir_parents (p : Path) : Run unit :=
  mkdir_each (ancestors_and_self p).

(** Reading a whole file. *)
Definition read_bytes (p : Path) : Run bytes :=
  m <- get_fs ;;
  match m !! p with
  | Some (File d) => ret d
  | _ => raise (OSError p)
  end.

(** Creating or overwriting a file; a directory in its place is an error. *)
Definition write_bytes (p : Path) (d : bytes) : Run unit :=
  m <- get_fs ;;
  match m !! p with
  | Some Dir => raise (OSError p)
  | _ => put_fs (<[p := File d]> m)
  end.

(** [dir.rglob("*")]: every entry below [dir], in the order the file
    system lists them. *)
Definition rglob (m : gmap Path node) (dir : Path) : list Path :=
  filter (fun p => is_under dir p = true) (map fst (map_to_list m)).

(** [shutil.copy2(src, dst)] *)
Definition copy2 (src dst : Path) : Run unit :=
  record_call (CopyCall src dst) ;;;
  d <- read_bytes src ;;
  write_bytes dst d.

End Fs.

(** ** The imaging libraries (OpenCV, pillow-heif, Pillow) *)
Class Imaging : Type := {
  (** a decoded pixel matrix *)
  image : Type;
  (** [cv2.imdecode]; [None] when the bytes are not a decodable image *)
  cv2_imdecode : bytes -> option image;
  (** [cv2.imencode(ext, image)] *)
  cv2_imencode : str -> image -> bytes;
  (** [cv2.rotate] / [cv2.warpAffine] by the given angle *)
  cv2_rotate : image -> Z -> image;
  (** grayscale, CLAHE, unsharp mask, bilateral filter, back to BGR *)
  cv2_filters : image -> image;
  (** [pillow_heif.read_heif] followed by [Image.save(format="PNG")];
      [None] when the codec raises *)
  heif_to_png : bytes -> option bytes
}.

(** ** The OCR libraries (EasyOCR, pytesseract) *)
Class OcrLib `{Imaging} : Type := {
  (** [easyocr.Reader(languages, ...)] can be built *)
  easyocr_available : list str -> bool;
  (** [reader.readtext(rgb)]: the recognised lines with their confidences *)
  easyocr_readtext : list str -> image -> list (str * Q);
  (** [import pytesseract] succeeds *)
  pytesseract_available : bool;
  (** [pytesseract.image_to_string(rgb, lang=...)] *)
  pytesseract_image_to_string : str -> image -> str
}.

(** ** src/preprocess.py *)
Module Preprocess.
Section WithImaging.
Context `{Imaging}.

Definition read_image_bgr (path : Path) : Run image :=
  data <- Fs.read_bytes path ;;
  match cv2_imdecode data with
  | None => raise (RuntimeError ($"Failed to read image: " ++ path_str path))
  | Some img => ret img
  end.

Definition save_image (image_bgr : image) (out_path : Path) : Run unit :=
  Fs.mkdir_parents (parent out_path) ;;;
  let ext :=
    match Text.lstrip_by (Ascii.eqb ".") (Text.lower (suffix out_path)) with
    | [] => $"png"
    | e => e
    end in
  Fs.write_bytes out_path (cv2_imencode ($"." ++ ext) image_bgr).

Definition rotate_image (image_bgr : image) (degrees_ccw : Z) : image :=
  if degrees_ccw mod 360 =? 0 then image_bgr
  else cv2_rotate image_bgr degrees_ccw.

Definition preprocess_for_ocr (image_bgr : image) (rotate_deg : Z) : image :=
  cv2_filters (rotate_image image_bgr rotate_deg).

End WithImaging.
End Preprocess.

(** ** src/ocr.py *)
Module Ocr.

Inductive OCREngineType : Type :=
| EASYOCR
| TESSERACT.

#[global] Instance OCREngineType_eq_dec : EqDecision OCREngineType.
Proof. solve_decision. Defined.

(** [e.value] *)
Definition value (e : OCREngineType) : str :=
  match e with
  | EASYOCR => $"easyocr"
  | TESSERACT => $"tesseract"
  end.

(** [[e for e in OCREngineType]] *)
Definition all_engine_types : list OCREngineType := [EASYOCR; TESSERACT].

(** [OCREngineType(v)]; [None] stands for the [ValueError]. *)
Definition of_value (v : str) : option OCREngineType :=
  List.find (fun e => bool_decide (value e = v)) all_engine_types.

Record OCREngine : Type := {
  engine_type : OCREngineType;
  languages : list str
}.

Definition Qltb (a b : Q) : bool := negb (Qle_bool b a).

(** [float(np.mean(confidences))] *)
Definition mean (confidences : list Q) : Q :=
  (fold_right Qplus 0 confidences / inject_Z (Z.of_nat (length confidences)))%Q.

Section WithLibs.
Context `{OcrLib}.

(** [OCREngine.__init__] *)
Definition init (engine_type : OCREngineType) (languages : list str)
  : Run OCREngine :=
  let languages := match languages with [] => [$"en"] | _ => languages end in
  match engine_type with
  | EASYOCR =>
      if easyocr_available languages
      then ret {| engine_type := engine_type; languages := languages |}
      else raise (RuntimeError $"EasyOCR initialization failed. Ensure dependencies are installed or choose --engine tesseract.")
  | TESSERACT =>
      if pytesseract_available
      then ret {| engine_type := engine_type; languages := languages |}
      else raise (RuntimeError $"pytesseract not available. Install Tesseract OCR and pytesseract, or choose --engine easyocr.")
  end.

Definition _run_easyocr (self : OCREngine) (image_bgr : image) : str * Q :=
  let results := easyocr_readtext (languages self) image_bgr in
  let kept :=
    filter (fun r => Text.strip (fst r) <> []) results in
  let texts := map fst kept in
  let confidences := map snd kept in
  let joined := Text.join ["010"%char] texts in
  let mean_conf :=
    match confidences with
    | [] => (-1)%Q
    | _ => mean confidences
    end in
  (joined, mean_conf).

Definition _run_tesseract (self : OCREngine) (image_bgr : image) : str * Q :=
  let text :=
    pytesseract_image_to_string (Text.join $"+" (languages self)) image_bgr in
  (text, (-1)%Q).

(** [OCREngine.run] *)
Definition run (self : OCREngine) (image_bgr : image) : str * Q :=
  match engine_type self with
  | EASYOCR => _run_easyocr self image_bgr
  | TESSERACT => _run_tesseract self image_bgr
  end.

End WithLibs.
End Ocr.
Import Ocr.

(** ** The Rotation Selector: [choose_best_ocr_result] of src/main.py *)
Module Selector.
Section WithLibs.
Context `{OcrLib}.

Definition rotation_candidates (rotation_mode : str) : list Z :=
  if bool_decide (rotation_mode = $"auto") then [0; 90; 180; 270] else [0].

(** The body of [if conf > best_confidence: ...]. *)
Definition keep_best (best : str * Q * Z) (text : str) (conf : Q) (rot : Z)
  : str * Q * Z :=
  if Qltb (snd (fst best)) conf then (text, conf, rot) else best.

(** [stem + "_r<rot>" + "_prep.png"], without the middle part when
    [rot] is zero. *)
Definition prep_name (image_path : Path) (rot : Z) : str :=
  stem image_path
    ++ (if rot =? 0 then [] else $"_r" ++ Text.str_of_Z rot)
    ++ $"_prep.png".

(** The inner loop [for rot in rotation_candidates]. *)
Fixpoint try_rotations (engine : OCREngine) (image_path : Path)
    (image_bgr : image) (save_preprocessed_dir : option Path)
    (rots : list Z) (best : str * Q * Z) : Run (str * Q * Z) :=
  match rots with
  | [] => ret best
  | rot :: rest =>
      let processed := Preprocess.preprocess_for_ocr image_bgr rot in
      match save_preprocessed_dir with
      | Some d =>
          Preprocess.save_image processed (joinpath d (prep_name image_path rot))
      | None => ret tt
      end ;;;
      let '(text, conf) := Ocr.run engine processed in
      try_rotations engine image_path image_bgr save_preprocessed_dir rest
        (keep_best best text conf rot)
  end.

(** The outer loop [for image_path in image_paths]. *)
Fixpoint try_images (engine : OCREngine) (image_paths : list Path)
    (save_preprocessed_dir : option Path) (rots : list Z)
    (best : str * Q * Z) : Run (str * Q * Z) :=
  match image_paths with
  | [] => ret best
  | image_path :: rest =>
      image_bgr <- Preprocess.read_image_bgr image_path ;;
      best' <- try_rotations engine image_path image_bgr
                 save_preprocessed_dir rots best ;;
      try_images engine rest save_preprocessed_dir rots best'
  end.

(** [best_text = ""], [best_confidence = -1.0], [best_rotation = 0] *)
Definition initial_best : str * Q * Z := ([], (-1)%Q, 0).

Definition choose_best_ocr_result (engine : OCREngine)
    (image_paths : list Path) (save_preprocessed_dir : option Path)
    (rotation_mode : str) : Run (str * Q * Z) :=
  try_images engine image_paths save_preprocessed_dir
    (rotation_candidates rotation_mode) initial_best.

(** The confidence of an attempt or of a result. *)
Definition conf_of (t : str * Q * Z) : Q := snd (fst t).

(** What the engine reports for one image at each candidate rotation, in
    the order tried. *)
Definition attempts (engine : OCREngine) (image_bgr : image) (rots : list Z)
  : list (str * Q * Z) :=
  map (fun rot =>
         let r := Ocr.run engine (Preprocess.preprocess_for_ocr image_bgr rot) in
         (fst r, snd r, rot)) rots.

(** The linear scan on its own. *)
Definition scan (best : str * Q * Z) (tries : list (str * Q * Z))
  : str * Q * Z :=
  fold_left (fun b t => keep_best b (fst (fst t)) (snd (fst t)) (snd t))
    tries best.

End WithLibs.
End Selector.

(** ** The fragment of Python's [re] that src/extract.py uses

    Backtracking matcher with greedy quantifiers and numbered capturing
    groups; [search] returns the leftmost match.  All patterns of the
    sources are compiled with [re.IGNORECASE]. *)
Module Re.

Inductive regex : Type :=
| Eps
| Chr (p : ascii -> bool)
| Seq (a b : regex)
| Alt (a b : regex)
| Rep (a : regex) (lo : nat) (hi : option nat)
| Grp (i : nat) (a : regex)
| WordB.

(** [\d], [\w], [\s] on U+0000..U+00FF. *)
Definition is_digit (c : ascii) : bool := Text.between 48 57 c.

Definition is_word (c : ascii) : bool :=
  Text.between 48 57 c || Text.between 65 90 c || Text.between 97 122 c
  || (Text.code c =? 95)%N
  || (Text.code c =? 170)%N || (Text.code c =? 178)%N || (Text.code c =? 179)%N
  || (Text.code c =? 181)%N || (Text.code c =? 185)%N || (Text.code c =? 186)%N
  || Text.between 188 190 c
  || Text.between 192 214 c || Text.between 216 246 c || Text.between 248 255 c.

Definition is_word_at (c : option ascii) : bool :=
  match c with
  | Some x => is_word x
  | None => false
  end.

(** A literal character under [re.IGNORECASE]. *)
Definition ci (c : ascii) : regex :=
  Chr (fun x => Ascii.eqb (Text.lower_char x) (Text.lower_char c)).

(** [[...]]: a class given by its characters, plus [\w] when [w] is set. *)
Definition cls (w : bool) (chars : str) : regex :=
  Chr (fun x => (w && is_word x) || Text.mem_char x chars).

Definition digit : regex := Chr is_digit.
Definition space : regex := Chr Text.is_space.

Fixpoint lit (s : str) : regex :=
  match s with
  | [] => Eps
  | [c] => ci c
  | c :: rest => Seq (ci c) (lit rest)
  end.

Definition star (a : regex) : regex := Rep a 0 None.
Definition plus (a : regex) : regex := Rep a 1 None.
Definition opt (a : regex) : regex := Rep a 0 (Some 1%nat).

Fixpoint seqs (rs : list regex) : regex :=
  match rs with
  | [] => Eps
  | [r] => r
  | r :: rest => Seq r (seqs rest)
  end.

Fixpoint alts (rs : list regex) : regex :=
  match rs with
  | [] => Eps
  | [r] => r
  | r :: rest => Alt r (alts rest)
  end.

(** Number of capturing groups of a pattern. *)
Fixpoint ngroups (r : regex) : nat :=
  match r with
  | Seq a b | Alt a b => (ngroups a + ngroups b)%nat
  | Rep a _ _ => ngroups a
  | Grp _ a => S (ngroups a)
  | _ => 0%nat
  end.

(** Captured groups, most recently closed first. *)
Abbreviation captures := (list (nat * str)).

Definition below (hi : option nat) (n : nat) : bool :=
  match hi with
  | Some h => (n <? h)%nat
  | None => true
  end.

(** What remains to be matched after a sub-pattern: it receives the
    character before the rest, the rest, and the groups captured so far. *)
Abbreviation cont R := (option ascii -> str -> captures -> option R).

(** Greedy repetition [a{lo,hi}], where [step] matches [a] once: try one
    more round first, then stop here if [lo] rounds were made.  A round
    must consume something; [fuel] bounds the number of rounds. *)
Fixpoint rep_loop {R : Type}
    (step : option ascii -> str -> captures -> cont R -> option R)
    (lo : nat) (hi : option nat) (k : cont R) (fuel n : nat)
    (prev : option ascii) (s : str) (caps : captures) : option R :=
  match fuel with
  | O => None
  | S fuel' =>
      let more :=
        if below hi n
        then step prev s caps
               (fun prev' s' caps' =>
                  if (length s' <? length s)%nat
                  then rep_loop step lo hi k fuel' (S n) prev' s' caps'
                  else None)
        else None in
      match more with
      | Some x => Some x
      | None => if (lo <=? n)%nat then k prev s caps else None
      end
  end.

(** [go r prev s caps k]: match [r] at the front of [s], where [prev] is
    the character before [s]; [k] is what remains to be matched. *)
Fixpoint go {R : Type} (r : regex) (prev : option ascii) (s : str)
    (caps : captures) (k : cont R) {struct r} : option R :=
  match r with
  | Eps => k prev s caps
  | Chr p =>
      match s with
      | c :: s' => if p c then k (Some c) s' caps else None
      | [] => None
      end
  | Seq a b =>
      go a prev s caps (fun prev' s' caps' => go b prev' s' caps' k)
  | Alt a b =>
      match go a prev s caps k with
      | Some x => Some x
      | None => go b prev s caps k
      end
  | Grp i a =>
      go a prev s caps
        (fun prev' s' caps' =>
           k prev' s' ((i, take (length s - length s') s) :: caps'))
  | WordB =>
      if xorb (is_word_at prev) (is_word_at (head s)) then k prev s caps
      else None
  | Rep a lo hi =>
      rep_loop (go a) lo hi k (S (length s)) 0%nat prev s caps
  end.

Record Match : Type := {
  whole : str;
  caps : captures;
  pattern_groups : nat
}.

(** The match starting at the front of [s], with what follows it. *)
Definition match_here (r : regex) (prev : option ascii) (s : str)
  : option (Match * option ascii * str) :=
  go r prev s []
    (fun prev' s' caps' =>
       Some ({| whole := take (length s - length s') s;
                caps := caps';
                pattern_groups := ngroups r |}, prev', s')).

Fixpoint search_from (r : regex) (prev : option ascii) (s : str)
  : option (Match * option ascii * str) :=
  match match_here r prev s with
  | Some x => Some x
  | None =>
      match s with
      | [] => None
      | c :: s' => search_from r (Some c) s'
      end
  end.

(** [re.search(pattern, text, flags=re.IGNORECASE)] *)
Definition search (r : regex) (text : str) : option Match :=
  match search_from r None text with
  | Some (m, _, _) => Some m
  | None => None
  end.

(** [m.lastindex] *)
Definition lastindex (m : Match) : option nat :=
  match caps m with
  | (i, _) :: _ => Some i
  | [] => None
  end.

Fixpoint lookup_group (i : nat) (cs : captures) : option str :=
  match cs with
  | [] => None
  | (j, v) :: rest => if (i =? j)%nat then Some v else lookup_group i rest
  end.

Inductive group_error : Type := IndexError.

(** [m.group(i)]: [inl IndexError] when the pattern has no group [i],
    [inr None] when the group took no part in the match. *)
Definition group (m : Match) (i : nat) : group_error + option str :=
  if (i =? 0)%nat then inr (Some (whole m))
  else if (i <=? pattern_groups m)%nat then inr (lookup_group i (caps m))
  else inl IndexError.

(** [re.findall(pattern, text)] for a pattern with one group: group 1 of
    each match, scanning on from the end of the previous match. *)
Fixpoint findall_from (fuel : nat) (r : regex) (prev : option ascii) (s : str)
  : list str :=
  match fuel with
  | O => []
  | S fuel' =>
      match search_from r prev s with
      | None => []
      | Some (m, prev', s') =>
          default [] (lookup_group 1 (caps m)) ::
          (if (length s' <? length s)%nat then findall_from fuel' r prev' s'
           else match s' with
                | [] => []
                | c :: s'' => findall_from fuel' r (Some c) s''
                end)
      end
  end.

Definition findall (r : regex) (text : str) : list str :=
  findall_from (S (length text)) r None text.

End Re.

(** ** [dateutil.parser] *)
Record date : Type := { year : nat; month : nat; day : nat }.

Class DateLib : Type := {
  (** [date_parser.parse(cand, fuzzy=True, default=None).date()];
      [None] when the parser raises *)
  dateutil_parse : str -> option date
}.

(** ** src/extract.py *)
Module Extract.
Import Re.

Definition MANUFACTURER_KEYWORDS : list str :=
  [ $"rheem"; $"ruud"; $"ao smith"; $"a. o. smith"; $"bradford white";
    $"state water heaters"; $"state industries"; $"ge";
    $"general electric"; $"whirlpool"; $"kenmore";
    $"american water heater"; $"navien"; $"noritz"; $"rinnai"; $"bosch" ].

(** [(no\.?|number|#)?] as group 1 *)
Definition label_suffix : regex :=
  opt (Grp 1 (alts [Seq (lit $"no") (opt (ci ".")); lit $"number"; ci "#"])).

(** [\s*[:]?\s*] *)
Definition colon_gap : regex :=
  seqs [star space; opt (ci ":"); star space].

Definition MODEL_HINTS : list regex :=
  [ (* model\s*(no\.?|number|#)?\s*[:]?\s*([\w\-/\.]+) *)
    seqs [lit $"model"; star space; label_suffix; colon_gap;
          Grp 2 (plus (cls true $"-/."))];
    (* m/?n\.?\s*[:]?\s*([\w\-/\.]+) *)
    seqs [ci "m"; opt (ci "/"); ci "n"; opt (ci "."); colon_gap;
          Grp 1 (plus (cls true $"-/."))];
    (* mdl\.?\s*[:]?\s*([\w\-/\.]+) *)
    seqs [lit $"mdl"; opt (ci "."); colon_gap;
          Grp 1 (plus (cls true $"-/."))] ].

Definition SERIAL_HINTS : list regex :=
  [ (* serial\s*(no\.?|number|#)?\s*[:]?\s*([\w\-/]+) *)
    seqs [lit $"serial"; star space; label_suffix; colon_gap;
          Grp 2 (plus (cls true $"-/"))];
    (* s/?n\.?\s*[:]?\s*([\w\-/]+) *)
    seqs [ci "s"; opt (ci "/"); ci "n"; opt (ci "."); colon_gap;
          Grp 1 (plus (cls true $"-/"))] ].

Definition CAPACITY_HINTS : list regex :=
  [ (* (\d{2,3})\s*(gal|gallon|gallons)\b *)
    seqs [Grp 1 (Rep digit 2 (Some 3%nat)); star space;
          Grp 2 (alts [lit $"gal"; lit $"gallon"; lit $"gallons"]); WordB];
    (* (\d{2,3})\s*(l|litre|litres|liter|liters)\b *)
    seqs [Grp 1 (Rep digit 2 (Some 3%nat)); star space;
          Grp 2 (alts [lit $"l"; lit $"litre"; lit $"litres"; lit $"liter";
                       lit $"liters"]); WordB] ].

Definition DATE_HINTS : list regex :=
  [ (* (manufactured|mfg\.?\s*date|date\s*of\s*manufacture|dom)\s*[:\-]?\s*([\w\-/,. ]{6,}) *)
    seqs [Grp 1 (alts [lit $"manufactured";
                       seqs [lit $"mfg"; opt (ci "."); star space; lit $"date"];
                       seqs [lit $"date"; star space; lit $"of"; star space;
                             lit $"manufacture"];
                       lit $"dom"]);
          star space; opt (cls false $":-"); star space;
          Grp 2 (Rep (cls true $"-/,. ") 6 None)] ].

(** [\b(\d{1,2}[\-/]\d{1,2}[\-/]\d{2,4})\b] *)
Definition DMY_DATE : regex :=
  seqs [WordB;
        Grp 1 (seqs [Rep digit 1 (Some 2%nat); cls false $"-/";
                     Rep digit 1 (Some 2%nat); cls false $"-/";
                     Rep digit 2 (Some 4%nat)]);
        WordB].

(** [\b(\d{4}[\-/]\d{1,2}[\-/]\d{1,2})\b] *)
Definition YMD_DATE : regex :=
  seqs [WordB;
        Grp 1 (seqs [Rep digit 4 (Some 4%nat); cls false $"-/";
                     Rep digit 1 (Some 2%nat); cls false $"-/";
                     Rep digit 1 (Some 2%nat)]);
        WordB].

(** The class [[\t\x0b\x0c\r]] *)
Definition is_blank (c : ascii) : bool :=
  (Text.code c =? 9)%N || (Text.code c =? 11)%N || (Text.code c =? 12)%N
  || (Text.code c =? 13)%N.

(** [re.sub(r"[\t\x0b\x0c\r]+", " ", text)]: every maximal run of the
    class becomes one space; [in_run] tells that the previous character
    belonged to a run. *)
Fixpoint collapse_blanks (in_run : bool) (text : str) : str :=
  match text with
  | [] => []
  | c :: rest =>
      if is_blank c
      then (if in_run then collapse_blanks true rest
            else " "%char :: collapse_blanks true rest)
      else c :: collapse_blanks false rest
  end.

Definition normalize_whitespace (text : str) : str :=
  collapse_blanks false text.

(** [find_first_group(patterns, text)] with the default [group_index=-1];
    an exception inside the [try] moves on to the next pattern. *)
Fixpoint find_first_group (patterns : list regex) (text : str) : option str :=
  match patterns with
  | [] => None
  | pat :: rest =>
      match search pat text with
      | Some m =>
          match group m (default 0%nat (lastindex m)) with
          | inr (Some g) => Some (Text.strip g)
          | _ => find_first_group rest text
          end
      | None => find_first_group rest text
      end
  end.

(** [" ".join(token.capitalize() for token in brand.split())] *)
Definition title_case (brand : str) : str :=
  Text.join $" " (map Text.capitalize (Text.split_ws brand)).

Definition detect_manufacturer (text : str) : option str :=
  let lowered := Text.lower text in
  match List.find (fun brand => Text.contains brand lowered)
          MANUFACTURER_KEYWORDS with
  | Some brand => Some (title_case brand)
  | None => None
  end.

Inductive extract_error : Type :=
| GroupIndexError
| NoneHasNoLower.

(** [f"{number}"] for the result of [m.group(1)] *)
Definition format_group (g : option str) : str :=
  match g with
  | Some s => s
  | None => $"None"
  end.

Fixpoint parse_capacity_in (patterns : list regex) (text : str)
  : extract_error + option str :=
  match patterns with
  | [] => inr None
  | pat :: rest =>
      match search pat text with
      | Some m =>
          match group m 1, group m 2 with
          | inl _, _ | _, inl _ => inl GroupIndexError
          | inr _, inr None => inl NoneHasNoLower
          | inr number, inr (Some g) =>
              let unit_ := Text.lower g in
              if Text.starts_with $"gal" unit_
              then inr (Some (format_group number ++ $" gal"))
              else if Text.starts_with $"l" unit_
              then inr (Some (format_group number ++ $" L"))
              else parse_capacity_in rest text
          end
      | None => parse_capacity_in rest text
      end
  end.

Definition parse_capacity (text : str) : extract_error + option str :=
  parse_capacity_in CAPACITY_HINTS text.

Definition pad_left (width : nat) (s : str) : str :=
  replicate (width - length s) "0"%char ++ s.

(** [d.isoformat()] *)
Definition isoformat (d : date) : str :=
  pad_left 4 (Text.str_of_Z (Z.of_nat (year d))) ++ $"-"
  ++ pad_left 2 (Text.str_of_Z (Z.of_nat (month d))) ++ $"-"
  ++ pad_left 2 (Text.str_of_Z (Z.of_nat (day d))).

Section WithDateLib.
Context `{DateLib}.

(** The loop [for cand in candidates]. *)
Fixpoint first_parsed (candidates : list str) : option str :=
  match candidates with
  | [] => None
  | cand :: rest =>
      match dateutil_parse cand with
      | Some dt => Some (isoformat dt)
      | None => first_parsed rest
      end
  end.

Definition parse_date_of_manufacture (text : str) : option str :=
  let label_capture := find_first_group DATE_HINTS text in
  let candidates :=
    match label_capture with
    | Some (_ :: _ as c) => [c]
    | _ => []
    end
    ++ findall DMY_DATE text
    ++ findall YMD_DATE text in
  first_parsed candidates.

(** [value.strip().strip("-:;,.# ")] *)
Definition cleaned (value : str) : str :=
  Text.strip_chars $"-:;,.# " (Text.strip value).

(** [post_clean]; [None] and the empty string are both falsy. *)
Definition post_clean (value : option str) : str :=
  match value with
  | None | Some [] => []
  | Some v =>
      let cleaned := cleaned v in
      if (120 <? length cleaned)%nat then take 120 cleaned else cleaned
  end.

(** A [Dict[str, str]], in insertion order. *)
Abbreviation record := (list (str * str)).

Definition parse_fields (ocr_text : option str)
  : extract_error + record :=
  let text := normalize_whitespace (default [] ocr_text) in
  let manufacturer := detect_manufacturer text in
  let model := find_first_group MODEL_HINTS text in
  let serial := find_first_group SERIAL_HINTS text in
  match parse_capacity text with
  | inl e => inl e
  | inr capacity =>
      let date_of_mfg := parse_date_of_manufacture text in
      inr [ ($"manufacturer", post_clean manufacturer);
            ($"model_number", post_clean model);
            ($"serial_number", post_clean serial);
            ($"capacity", post_clean capacity);
            ($"date_of_manufacture", post_clean date_of_mfg) ]
  end.

End WithDateLib.
End Extract.

(** ** Python's [csv] and [json] writers *)
Module Csv.

(** A field is quoted when it holds the delimiter, the quote character or
    a character of the line terminator ([QUOTE_MINIMAL]). *)
Definition needs_quotes (field : str) : bool :=
  existsb (fun c => Text.mem_char c [","%char; "034"%char; "013"%char; "010"%char])
    field.

Fixpoint double_quotes (field : str) : str :=
  match field with
  | [] => []
  | c :: rest =>
      if Ascii.eqb c "034" then "034"%char :: "034"%char :: double_quotes rest
      else c :: double_quotes rest
  end.

Definition write_field (field : str) : str :=
  if needs_quotes field
  then "034"%char :: double_quotes field ++ ["034"%char]
  else field.

(** [writer.writerow(fields)]: the line written, ending in CR LF.  A row
    made of one empty field is written as a pair of quotes. *)
Definition write_row (fields : list str) : str :=
  match fields with
  | [[]] => ["034"%char; "034"%char; "013"%char; "010"%char]
  | _ => Text.join [","%char] (map write_field fields)
           ++ ["013"%char; "010"%char]
  end.

(** *** The reader ([csv.reader] with the default dialect, over a file
    opened with [newline=""])

    The states and transitions are those of [parse_process_char]; the
    field being read is [fld], the fields of the record read so far are
    [flds]. *)
Inductive state : Type :=
| START_RECORD
| START_FIELD
| IN_FIELD
| IN_QUOTED_FIELD
| QUOTE_IN_QUOTED_FIELD
| EAT_CRNL.

Definition is_nl (c : ascii) : bool :=
  Ascii.eqb c "010" || Ascii.eqb c "013".

Definition start_field (c : ascii) (fld : str) (flds : list str)
  : option (state * str * list str) :=
  if is_nl c then Some (EAT_CRNL, [], flds ++ [fld])
  else if Ascii.eqb c "034" then Some (IN_QUOTED_FIELD, fld, flds)
  else if Ascii.eqb c "," then Some (START_FIELD, [], flds ++ [fld])
  else Some (IN_FIELD, fld ++ [c], flds).

(** One character; [None] is the error "new-line character seen in
    unquoted field". *)
Definition step (c : ascii) (st : state) (fld : str) (flds : list str)
  : option (state * str * list str) :=
  match st with
  | START_RECORD =>
      if is_nl c then Some (EAT_CRNL, fld, flds)
      else start_field c fld flds
  | START_FIELD => start_field c fld flds
  | IN_FIELD =>
      if is_nl c then Some (EAT_CRNL, [], flds ++ [fld])
      else if Ascii.eqb c "," then Some (START_FIELD, [], flds ++ [fld])
      else Some (IN_FIELD, fld ++ [c], flds)
  | IN_QUOTED_FIELD =>
      if Ascii.eqb c "034" then Some (QUOTE_IN_QUOTED_FIELD, fld, flds)
      else Some (IN_QUOTED_FIELD, fld ++ [c], flds)
  | QUOTE_IN_QUOTED_FIELD =>
      if Ascii.eqb c "034" then Some (IN_QUOTED_FIELD, fld ++ ["034"%char], flds)
      else if Ascii.eqb c "," then Some (START_FIELD, [], flds ++ [fld])
      else if is_nl c then Some (EAT_CRNL, [], flds ++ [fld])
      else Some (IN_FIELD, fld ++ [c], flds)
  | EAT_CRNL =>
      if is_nl c then Some (EAT_CRNL, fld, flds) else None
  end.

(** The end of a line. *)
Definition end_of_line (st : state) (fld : str) (flds : list str)
  : state * str * list str :=
  match st with
  | START_RECORD | EAT_CRNL => (START_RECORD, fld, flds)
  | START_FIELD | IN_FIELD | QUOTE_IN_QUOTED_FIELD =>
      (START_RECORD, [], flds ++ [fld])
  | IN_QUOTED_FIELD => (IN_QUOTED_FIELD, fld, flds)
  end.

(** The file object ends a line after LF, and after a CR that no LF
    follows. *)
Definition line_ends (c : ascii) (rest : str) : bool :=
  Ascii.eqb c "010"
  || (Ascii.eqb c "013"
      && match rest with
         | x :: _ => negb (Ascii.eqb x "010")
         | [] => true
         end).

(** The records read from [text], starting in state [st]; [open] tells
    that the current line has characters already. *)
Fixpoint feed (text : str) (st : state) (fld : str) (flds : list str)
    (open : bool) : option (list (list str)) :=
  match text with
  | [] =>
      if open then
        match end_of_line st fld flds with
        | (START_RECORD, _, flds') => Some [flds']
        | (_, fld', flds') => Some [flds' ++ [fld']]
        end
      else
        match st with
        | START_RECORD => Some []
        | _ => Some [flds ++ [fld]]
        end
  | c :: rest =>
      match step c st fld flds with
      | None => None
      | Some (st1, fld1, flds1) =>
          if line_ends c rest then
            match end_of_line st1 fld1 flds1 with
            | (START_RECORD, _, flds2) =>
                match feed rest START_RECORD [] [] false with
                | Some rows => Some (flds2 :: rows)
                | None => None
                end
            | (st2, fld2, flds2) => feed rest st2 fld2 flds2 false
            end
          else feed rest st1 fld1 flds1 true
      end
  end.

(** [list(csv.reader(f))] *)
Definition read (text : str) : option (list (list str)) :=
  feed text START_RECORD [] [] false.

(** [dict(zip(fieldnames, row))], a missing value being [None]; the
    values beyond the field names go under [restkey]. *)
Fixpoint zip_row (fieldnames row : list str) : list (str * option str) :=
  match fieldnames, row with
  | [], _ => []
  | k :: ks, [] => (k, None) :: zip_row ks []
  | k :: ks, v :: vs => (k, Some v) :: zip_row ks vs
  end.

Record DictRow : Type := {
  cells : list (str * option str);
  rest_values : list str
}.

(** [list(csv.DictReader(f))] with its [fieldnames]: the first row gives
    the field names, empty rows are skipped. *)
Definition dict_reader (text : str) : option (list str * list DictRow) :=
  match read text with
  | Some (fieldnames :: rows) =>
      Some (fieldnames,
            map (fun row => {| cells := zip_row fieldnames row;
                               rest_values := drop (length fieldnames) row |})
              (filter (fun row => row <> []) rows))
  | Some [] => Some ([], [])
  | None => None
  end.

End Csv.

Class JsonLib : Type := {
  (** [json.dumps(records, indent=2, ensure_ascii=False)] *)
  json_dumps : list (list (str * str)) -> str
}.

(** ** Python [dict] with [str] keys, in insertion order *)
Module Dict.

Abbreviation dict := (list (str * str)).

(** [d.keys()] *)
Definition keys (d : dict) : list str := map fst d.

(** [d.get(key)] *)
Fixpoint get (d : dict) (key : str) : option str :=
  match d with
  | [] => None
  | (k, v) :: rest => if bool_decide (k = key) then Some v else get rest key
  end.

(** [d[key] = value]: an existing key keeps its place. *)
Fixpoint set (d : dict) (key value : str) : dict :=
  match d with
  | [] => [(key, value)]
  | (k, v) :: rest =>
      if bool_decide (k = key) then (k, value) :: rest
      else (k, v) :: set rest key value
  end.

End Dict.

(** ** src/io_utils.py *)
Module IoUtils.
Import Dict.

Definition write_text (path : Path) (content : option str) : Run unit :=
  Fs.mkdir_parents (parent path) ;;;
  Fs.write_bytes path (default [] content).

Definition write_json_records `{JsonLib} (path : Path) (records : list dict)
  : Run unit :=
  Fs.mkdir_parents (parent path) ;;;
  Fs.write_bytes path (json_dumps records).

Definition preferred : list str :=
  [ $"source_file"; $"manufacturer"; $"model_number"; $"serial_number";
    $"capacity"; $"date_of_manufacture"; $"ocr_confidence"; $"rotation_deg" ].

(** The body of [for key in rec.keys()], on the pair [(fields, existing)]. *)
Definition add_key (st : list str * gset str) (key : str)
  : list str * gset str :=
  if bool_decide (key ∈ snd st) then st
  else (fst st ++ [key], {[key]} ∪ snd st).

Definition infer_fieldnames (records : list dict) : list str :=
  let fields := preferred in
  let existing : gset str := list_to_set fields in
  fst (fold_left (fun st rec => fold_left add_key (keys rec) st)
         records (fields, existing)).

(** [DictWriter._dict_to_list]: a key outside [fieldnames] is a
    [ValueError]; a missing key is written as the empty string. *)
Definition dict_to_list (fieldnames : list str) (row : dict)
  : option (list str) :=
  if forallb (fun k => bool_decide (k ∈ fieldnames)) (keys row)
  then Some (map (fun key => default [] (get row key)) fieldnames)
  else None.

(** The loop [for row in records: writer.writerow(row)]: the text written
    after [out], and the error that stopped the loop, if any. *)
Fixpoint write_rows (fieldnames : list str) (records : list dict) (out : str)
  : str * option exn :=
  match records with
  | [] => (out, None)
  | row :: rest =>
      match dict_to_list fieldnames row with
      | Some fields => write_rows fieldnames rest (out ++ Csv.write_row fields)
      | None => (out, Some (ValueError $"dict contains fields not in fieldnames"))
      end
  end.

(** What [write_csv_records] puts in the file: the header line, then one
    line per record. *)
Definition csv_text (records : list dict) : str * option exn :=
  let fieldnames := infer_fieldnames records in
  write_rows fieldnames records (Csv.write_row fieldnames).

Definition write_csv_records (path : Path) (records : list dict) : Run unit :=
  Fs.mkdir_parents (parent path) ;;;
  let '(text, err) := csv_text records in
  Fs.write_bytes path text ;;;
  match err with
  | Some e => raise e
  | None => ret tt
  end.

End IoUtils.

(** ** src/heic_utils.py *)
Module HeicUtils.
Section WithImaging.
Context `{Imaging}.

Definition IMAGE_EXTENSIONS : list str :=
  [ $".heic"; $".heif"; $".jpg"; $".jpeg"; $".png"; $".bmp"; $".tif"; $".tiff" ].

Definition is_image_file (path : Path) : bool :=
  bool_decide (Text.lower (suffix path) ∈ IMAGE_EXTENSIONS).

Definition convert_heic_to_png (heic_path out_png_path : Path) : Run Path :=
  record_call (ConvertCall heic_path out_png_path) ;;;
  data <- Fs.read_bytes heic_path ;;
  match heif_to_png data with
  | None => raise (DecodeError heic_path)
  | Some png =>
      Fs.mkdir_parents (parent out_png_path) ;;;
      Fs.write_bytes out_png_path png ;;;
      ret out_png_path
  end.

(** [str(exc)] inside the messages; only the file name matters here. *)
Definition exn_str (e : exn) : str :=
  match e with
  | RuntimeError msg => msg
  | OSError p => $"[Errno] " ++ path_str p
  | DecodeError p => $"cannot decode " ++ path_str p
  | ValueError v => v
  | SystemExit n => Text.str_of_Z n
  end.

(** [suffix in {".heic", ".heif"}] *)
Definition is_heic (path : Path) : bool :=
  bool_decide (Text.lower (suffix path) ∈ [ $".heic"; $".heif" ]).

(** [converted_dir / (path.stem + ".png")] *)
Definition out_png (converted_dir path : Path) : Path :=
  joinpath converted_dir (stem path ++ $".png").

(** [converted_dir / path.name] *)
Definition out_copy (converted_dir path : Path) : Path :=
  joinpath converted_dir (name path).

(** The path under [converted_dir] that stands for [path] in [ready]. *)
Definition staged (converted_dir path : Path) : Path :=
  if is_heic path then out_png converted_dir path
  else out_copy converted_dir path.

(** One iteration of [for path in sorted(...)]: the new value of [ready]. *)
Definition prepare_one (converted_dir : Path) (ready : list Path) (path : Path)
  : Run (list Path) :=
  m <- get_fs ;;
  if negb (Fs.is_file m path) || negb (is_image_file path) then ret ready
  else
    if is_heic path then
      let out_png := out_png converted_dir path in
      present <- Fs.path_exists out_png ;;
      if negb present then
        try_except
          (convert_heic_to_png path out_png ;;; ret (ready ++ [out_png]))
          (fun exc =>
             print ($"Failed to convert " ++ path_str path ++ $": " ++ exn_str exc) ;;;
             ret ready)
      else ret (ready ++ [out_png])
    else
      let out_copy := out_copy converted_dir path in
      present <- Fs.path_exists out_copy ;;
      if negb present then
        try_except
          (Fs.mkdir_parents (parent out_copy) ;;;
           Fs.copy2 path out_copy ;;;
           ret (ready ++ [out_copy]))
          (fun exc =>
             print ($"Failed to copy " ++ path_str path ++ $": " ++ exn_str exc) ;;;
             ret ready)
      else ret (ready ++ [out_copy]).

Fixpoint prepare_loop (converted_dir : Path) (paths : list Path)
    (ready : list Path) : Run (list Path) :=
  match paths with
  | [] => ret ready
  | path :: rest =>
      ready' <- prepare_one converted_dir ready path ;;
      prepare_loop converted_dir rest ready'
  end.

Definition prepare_images (input_dir converted_dir : Path) : Run (list Path) :=
  m <- get_fs ;;
  prepare_loop converted_dir (sorted (Fs.rglob m input_dir)) [].

End WithImaging.
End HeicUtils.

(** ** The parser built by [parse_args] of src/main.py, run by [argparse]

    The options are those the source declares; the way an argument list is
    read follows [argparse.ArgumentParser.parse_args]: every argument is
    first classified (exact option string, [opt=value], unique abbreviation
    of a long option, short option with its value attached), then the
    options are consumed from left to right.  [error] exits with status 2,
    [--help] with status 0. *)
Module Argparse.

Inductive opt : Type :=
| OHelp | OInput | OOutput | OEngine | OLanguages
| OWriteJson | OWriteCsv | OSavePreprocessed | ORotation.

Definition option_strings : list (str * opt) :=
  [ ($"-h", OHelp); ($"--help", OHelp);
    ($"-i", OInput); ($"--input", OInput);
    ($"-o", OOutput); ($"--output", OOutput);
    ($"--engine", OEngine);
    ($"--languages", OLanguages);
    ($"--write-json", OWriteJson);
    ($"--write-csv", OWriteCsv);
    ($"--save-preprocessed", OSavePreprocessed);
    ($"--rotation", ORotation) ].

(** Options declared without [action="store_true"] take one value. *)
Definition takes_value (o : opt) : bool :=
  match o with
  | OInput | OOutput | OEngine | OLanguages | ORotation => true
  | _ => false
  end.

Record Namespace : Type := {
  input : str;
  output : str;
  engine : str;
  languages : str;
  write_json : bool;
  write_csv : bool;
  save_preprocessed : bool;
  rotation : str
}.

(** The declared defaults; [input] is required and has none. *)
Definition defaults : Namespace :=
  {| input := []; output := $"output"; engine := Ocr.value EASYOCR;
     languages := $"en"; write_json := false; write_csv := false;
     save_preprocessed := false; rotation := $"auto" |}.

(** [choices=...] of an option, when it declares some. *)
Definition choices (o : opt) : option (list str) :=
  match o with
  | OEngine => Some (map Ocr.value Ocr.all_engine_types)
  | ORotation => Some [ $"auto"; $"none" ]
  | _ => None
  end.

Inductive token : Type :=
| TArg (s : str)                          (* 'A': not an option *)
| TOpt (o : opt) (explicit : option str)  (* 'O': a known option *)
| TUnknown (s : str)                      (* 'O': an unknown option *)
| TAmbiguous.                             (* several options match *)

Definition lookup_option (s : str) : option opt :=
  match List.find (fun e => bool_decide (fst e = s)) option_strings with
  | Some (_, o) => Some o
  | None => None
  end.

(** [s.split("=", 1)] when [s] holds an ["="]. *)
Fixpoint split_eq (s : str) : option (str * str) :=
  match s with
  | [] => None
  | c :: rest =>
      if Ascii.eqb c "=" then Some ([], rest)
      else match split_eq rest with
           | Some (a, b) => Some (c :: a, b)
           | None => None
           end
  end.

(** [_negative_number_matcher]: [^-\d+$|^-\d*\.\d+$] *)
Definition looks_negative_number (s : str) : bool :=
  match s with
  | "-"%char :: rest =>
      let digits := Text.lstrip_by Re.is_digit rest in
      match digits with
      | [] => negb (bool_decide (rest = []))
      | "."%char :: frac =>
          negb (bool_decide (frac = [])) && forallb Re.is_digit frac
      | _ => false
      end
  | _ => false
  end.

(** [_get_option_tuples] *)
Definition option_tuples (arg : str) : list (opt * option str) :=
  match arg with
  | "-"%char :: "-"%char :: _ =>
      let '(option_prefix, explicit_arg) :=
        match split_eq arg with
        | Some (a, b) => (a, Some b)
        | None => (arg, None)
        end in
      omap (fun e => if Text.starts_with option_prefix (fst e)
                     then Some (snd e, explicit_arg) else None)
        option_strings
  | "-"%char :: c :: rest =>
      omap (fun e => if bool_decide (fst e = ["-"%char; c])
                     then Some (snd e, Some rest)
                     else if Text.starts_with arg (fst e)
                     then Some (snd e, None) else None)
        option_strings
  | _ => []
  end.

(** [_parse_optional] *)
Definition classify (arg : str) : token :=
  match arg with
  | [] => TArg arg
  | c :: _ =>
      if negb (Ascii.eqb c "-") then TArg arg
      else match lookup_option arg with
      | Some o => TOpt o None
      | None =>
          if bool_decide (length arg = 1%nat) then TArg arg
          else
            match match split_eq arg with
                  | Some (a, b) =>
                      match lookup_option a with
                      | Some o => Some (o, b)
                      | None => None
                      end
                  | None => None
                  end with
            | Some (o, b) => TOpt o (Some b)
            | None =>
                match option_tuples arg with
                | _ :: _ :: _ => TAmbiguous
                | [(o, e)] => TOpt o e
                | [] =>
                    if looks_negative_number arg then TArg arg
                    else if Text.mem_char " " arg then TArg arg
                    else TUnknown arg
                end
            end
      end
  end.

(** The first pass over the argument list: after ["--"] every argument is
    an 'A'; the ["--"] itself is kept as [None]. *)
Fixpoint classify_all (argv : list str) : list (option token) :=
  match argv with
  | [] => []
  | arg :: rest =>
      if bool_decide (arg = $"--") then None :: map (fun a => Some (TArg a)) rest
      else Some (classify arg) :: classify_all rest
  end.

Inductive outcome : Type :=
| Parsed (ns : Namespace)
| Exit (status : Z).

Definition store (o : opt) (v : str) (ns : Namespace) : Namespace :=
  match o with
  | OInput => {| input := v; output := output ns; engine := engine ns;
                 languages := languages ns; write_json := write_json ns;
                 write_csv := write_csv ns;
                 save_preprocessed := save_preprocessed ns;
                 rotation := rotation ns |}
  | OOutput => {| input := input ns; output := v; engine := engine ns;
                  languages := languages ns; write_json := write_json ns;
                  write_csv := write_csv ns;
                  save_preprocessed := save_preprocessed ns;
                  rotation := rotation ns |}
  | OEngine => {| input := input ns; output := output ns; engine := v;
                  languages := languages ns; write_json := write_json ns;
                  write_csv := write_csv ns;
                  save_preprocessed := save_preprocessed ns;
                  rotation := rotation ns |}
  | OLanguages => {| input := input ns; output := output ns; engine := engine ns;
                     languages := v; write_json := write_json ns;
                     write_csv := write_csv ns;
                     save_preprocessed := save_preprocessed ns;
                     rotation := rotation ns |}
  | ORotation => {| input := input ns; output := output ns; engine := engine ns;
                    languages := languages ns; write_json := write_json ns;
                    write_csv := write_csv ns;
                    save_preprocessed := save_preprocessed ns;
                    rotation := v |}
  | OWriteJson => {| input := input ns; output := output ns; engine := engine ns;
                     languages := languages ns; write_json := true;
                     write_csv := write_csv ns;
                     save_preprocessed := save_preprocessed ns;
                     rotation := rotation ns |}
  | OWriteCsv => {| input := input ns; output := output ns; engine := engine ns;
                    languages := languages ns; write_json := write_json ns;
                    write_csv := true;
                    save_preprocessed := save_preprocessed ns;
                    rotation := rotation ns |}
  | OSavePreprocessed => {| input := input ns; output := output ns;
                            engine := engine ns; languages := languages ns;
                            write_json := write_json ns;
                            write_csv := write_csv ns;
                            save_preprocessed := true;
                            rotation := rotation ns |}
  | OHelp => ns
  end.

(** [_check_value] *)
Definition value_allowed (o : opt) (v : str) : bool :=
  match choices o with
  | Some cs => bool_decide (v ∈ cs)
  | None => true
  end.

(** An option given without [=] takes the next 'A' as its value (the
    pattern [-*A-*]: a ["--"] before or after it is skipped). *)
Fixpoint has_value (rest : list (option token)) : bool :=
  match rest with
  | None :: rest' => has_value rest'
  | Some (TArg _) :: _ => true
  | _ => false
  end.

(** A short flag followed by more characters, as in [-hi]: each further
    character must be a short option; [true] when the chain is accepted. *)
Fixpoint flag_chain (explicit : str) (rest : list (option token)) : bool :=
  match explicit with
  | [] => true
  | c :: more =>
      match lookup_option ["-"%char; c] with
      | Some o =>
          if takes_value o then
            match more with
            | [] => has_value rest
            | _ => value_allowed o more
            end
          else flag_chain more rest
      | None => false
      end
  end.

Definition is_input (o : opt) : bool :=
  match o with
  | OInput => true
  | _ => false
  end.

(** The second pass: consume the options from left to right.  [seen] tells
    that [--input] was given, [extras] that some argument was left over,
    [pending] is the option still waiting for its value. *)
Fixpoint consume (toks : list (option token)) (ns : Namespace)
    (seen extras : bool) (pending : option opt) : outcome :=
  match toks with
  | [] =>
      match pending with
      | Some _ => Exit 2
      | None =>
          if negb seen then Exit 2
          else if extras then Exit 2
          else Parsed ns
      end
  | None :: rest => consume rest ns seen extras pending
  | Some (TArg v) :: rest =>
      match pending with
      | Some o =>
          if value_allowed o v
          then consume rest (store o v ns) (seen || is_input o) extras None
          else Exit 2
      | None => consume rest ns seen true None
      end
  | Some (TUnknown _) :: rest =>
      match pending with
      | Some _ => Exit 2
      | None => consume rest ns seen true None
      end
  | Some TAmbiguous :: _ => Exit 2
  | Some (TOpt o explicit) :: rest =>
      match pending with
      | Some _ => Exit 2
      | None =>
          if takes_value o then
            match explicit with
            | Some v =>
                if value_allowed o v
                then consume rest (store o v ns) (seen || is_input o) extras None
                else Exit 2
            | None => consume rest ns seen extras (Some o)
            end
          else
            match explicit, o with
            | Some e, OHelp => if flag_chain e rest then Exit 0 else Exit 2
            | Some _, _ => Exit 2
            | None, OHelp => Exit 0
            | None, _ => consume rest (store o [] ns) seen extras None
            end
      end
  end.

Definition is_ambiguous (t : option token) : bool :=
  match t with
  | Some TAmbiguous => true
  | _ => false
  end.

(** [parser.parse_args(argv)] *)
Definition parse (argv : list str) : outcome :=
  let toks := classify_all argv in
  if existsb is_ambiguous toks then Exit 2
  else consume toks defaults false false None.

End Argparse.

(** ** The operating system: [Path.expanduser().resolve()] *)
Class OsLib : Type := {
  resolve : str -> Path
}.

(** ** src/main.py *)
Module Main.
Import Dict.
Section WithLibs.
Context `{OcrLib} `{DateLib} `{JsonLib} `{OsLib}.

Definition ensure_directory (path : Path) : Run unit :=
  Fs.mkdir_parents path.

(** Nearest integer to [q], ties to even. *)
Definition round_half_even (q : Q) : Z :=
  let n := Qnum q in
  let d := Z.pos (Qden q) in
  let fl := n / d in
  let r := n mod d in
  match 2 * r ?= d with
  | Lt => fl
  | Gt => fl + 1
  | Eq => if Z.even fl then fl else fl + 1
  end.

(** [f"{conf:.3f}"] for a non-negative confidence. *)
Definition format_3f (conf : Q) : str :=
  let n := round_half_even (conf * 1000)%Q in
  Text.str_of_Z (n / 1000) ++ $"."
  ++ Extract.pad_left 3 (Text.str_of_Z (n mod 1000)).

(** [value.split(",")] *)
Fixpoint split_commas (cur : str) (s : str) : list str :=
  match s with
  | [] => [reverse cur]
  | c :: rest =>
      if Ascii.eqb c "," then reverse cur :: split_commas [] rest
      else split_commas (c :: cur) rest
  end.

Definition raise_extract (e : Extract.extract_error) : exn :=
  match e with
  | Extract.GroupIndexError => RuntimeError $"IndexError: no such group"
  | Extract.NoneHasNoLower =>
      RuntimeError $"AttributeError: 'NoneType' object has no attribute 'lower'"
  end.

(** The body of [for img_path in ready_images]: the record appended. *)
Definition process_image (engine : OCREngine) (ocr_raw_dir : Path)
    (preprocessed_dir : option Path) (rotation_mode : str) (img_path : Path)
  : Run dict :=
  best <- Selector.choose_best_ocr_result engine [img_path] preprocessed_dir
            rotation_mode ;;
  let '(best_text, best_conf, best_rot) := best in
  IoUtils.write_text (joinpath ocr_raw_dir (stem img_path ++ $".txt"))
    (Some best_text) ;;;
  match Extract.parse_fields (Some best_text) with
  | inl e => raise (raise_extract e)
  | inr fields =>
      let fields := set fields $"source_file" (path_str img_path) in
      let fields := set fields $"ocr_confidence"
                      (if Qle_bool 0 best_conf then format_3f best_conf else []) in
      let fields := set fields $"rotation_deg" (Text.str_of_Z best_rot) in
      ret fields
  end.

Fixpoint process_images (engine : OCREngine) (ocr_raw_dir : Path)
    (preprocessed_dir : option Path) (rotation_mode : str)
    (ready_images : list Path) (extracted_records : list dict)
  : Run (list dict) :=
  match ready_images with
  | [] => ret extracted_records
  | img_path :: rest =>
      fields <- process_image engine ocr_raw_dir preprocessed_dir
                  rotation_mode img_path ;;
      process_images engine ocr_raw_dir preprocessed_dir rotation_mode rest
        (extracted_records ++ [fields])
  end.

(** [run_pipeline]; the Python function returns [None], the model returns
    the final value of [extracted_records] (the empty list when the run
    stops at "No images found"). *)
Definition run_pipeline (input_dir output_dir : Path)
    (engine_type : OCREngineType) (languages : list str)
    (write_json write_csv save_preprocessed : bool) (rotation_mode : str)
  : Run (list dict) :=
  ensure_directory output_dir ;;;
  let converted_dir := joinpath output_dir $"converted" in
  ensure_directory converted_dir ;;;
  let ocr_raw_dir := joinpath output_dir $"ocr_raw" in
  ensure_directory ocr_raw_dir ;;;
  let preprocessed_dir :=
    if save_preprocessed then Some (joinpath output_dir $"preprocessed")
    else None in
  match preprocessed_dir with
  | Some d => ensure_directory d
  | None => ret tt
  end ;;;
  ready_images <- HeicUtils.prepare_images input_dir converted_dir ;;
  match ready_images with
  | [] => print $"No images found in input folder." ;;; ret []
  | _ =>
      engine <- Ocr.init engine_type languages ;;
      extracted_records <-
        process_images engine ocr_raw_dir preprocessed_dir rotation_mode
          ready_images [] ;;
      (if write_csv
       then IoUtils.write_csv_records (joinpath output_dir $"extracted.csv")
              extracted_records
       else ret tt) ;;;
      (if write_json
       then IoUtils.write_json_records (joinpath output_dir $"extracted.json")
              extracted_records
       else ret tt) ;;;
      print ($"Done. Processed "
             ++ Text.str_of_Z (Z.of_nat (length ready_images))
             ++ $" image(s). Output: " ++ path_str output_dir) ;;;
      ret extracted_records
  end.

(** [parse_args]: [parser.error] and [--help] end in [sys.exit]. *)
Definition parse_args (argv : list str) : Run Argparse.Namespace :=
  match Argparse.parse argv with
  | Argparse.Parsed ns => ret ns
  | Argparse.Exit status => raise (SystemExit status)
  end.

Definition main (argv : list str) : Run unit :=
  args <- parse_args argv ;;
  let input_dir := resolve (Argparse.input args) in
  let output_dir := resolve (Argparse.output args) in
  m <- get_fs ;;
  if negb (bool_decide (is_Some (m !! input_dir))) || negb (Fs.is_dir m input_dir)
  then
    print ($"Input folder not found: " ++ path_str input_dir) ;;;
    raise (SystemExit 1)
  else
    match Ocr.of_value (Argparse.engine args) with
    | None =>
        print ($"Invalid engine: " ++ Argparse.engine args) ;;;
        raise (SystemExit 1)
    | Some engine_type =>
        let languages :=
          filter (fun lang => lang <> [])
            (map Text.strip (split_commas [] (Argparse.languages args))) in
        run_pipeline input_dir output_dir engine_type languages
          (Argparse.write_json args) (Argparse.write_csv args)
          (Argparse.save_preprocessed args) (Argparse.rotation args) ;;;
        ret tt
    end.

(** The status the process ends with: 0 on return, the argument of
    [sys.exit], 1 for an exception that nothing catches. *)
Definition exit_status {A} (r : result A) : Z :=
  match r with
  | Ok _ => 0
  | Raise (SystemExit status) => status
  | Raise _ => 1
  end.

End WithLibs.
End Main.

(** ** A small instance of the libraries, to run the model on concrete worlds

    An image file holds ["IMG:"] followed by the text printed on the
    nameplate, a HEIC file holds ["HEIC:"] followed by it; a decoded image
    is that text with the angle it was rotated by.  EasyOCR reads the text
    with a confidence that depends on the angle; Tesseract reads the text. *)
Module Demo.

Definition conf_at (rot : Z) : Q :=
  if rot =? 0 then 2 # 10
  else if rot =? 90 then 9 # 10
  else if rot =? 180 then 5 # 10
  else 1 # 10.

Definition seen_at (img : str * Z) : str :=
  fst img ++ $" @" ++ Text.str_of_Z (snd img).

#[export] Instance imaging : Imaging := {|
  image := str * Z;
  cv2_imdecode := fun data =>
    if Text.starts_with $"IMG:" data then Some (drop 4 data, 0) else None;
  cv2_imencode := fun _ img => $"IMG:" ++ fst img;
  cv2_rotate := fun img deg => (fst img, deg);
  cv2_filters := fun img => img;
  heif_to_png := fun data =>
    if Text.starts_with $"HEIC:" data then Some ($"IMG:" ++ drop 5 data)
    else None
|}.

#[export] Instance ocr : OcrLib := {|
  easyocr_available := fun _ => true;
  easyocr_readtext := fun _ img => [(seen_at img, conf_at (snd img))];
  pytesseract_available := true;
  pytesseract_image_to_string := fun _ img => seen_at img
|}.

#[export] Instance dates : DateLib := {|
  dateutil_parse := fun cand =>
    if bool_decide (cand = $"03/14/2019")
    then Some {| year := 2019; month := 3; day := 14 |}
    else None
|}.

#[export] Instance json : JsonLib := {|
  json_dumps := fun records =>
    $"[" ++ Text.str_of_Z (Z.of_nat (length records)) ++ $" records]"
|}.

#[export] Instance os : OsLib := {|
  resolve := fun s => [s]
|}.

Definition easyocr_engine : OCREngine :=
  {| engine_type := EASYOCR; Ocr.languages := [ $"en" ] |}.

Definition tesseract_engine : OCREngine :=
  {| engine_type := TESSERACT; Ocr.languages := [ $"en" ] |}.

Definition world_of (files : list (Path * node)) : world :=
  World (list_to_map files) [] [].

(** One readable photograph of a Rheem nameplate. *)
Definition one_photo : world :=
  world_of [ ([ $"in" ], Dir);
             ([ $"in"; $"a.jpg" ], File $"IMG:RHEEM Model No: ABC-123") ].

(** A corrupt photograph sorted before a readable one. *)
Definition corrupt_then_good : world :=
  world_of [ ([ $"in" ], Dir);
             ([ $"in"; $"a.jpg" ], File $"not an image");
             ([ $"in"; $"b.jpg" ], File $"IMG:RHEEM Model No: ABC-123") ].

(** Two HEIC files with the same stem in two sub-directories. *)
Definition same_stem (first second : bytes) : world :=
  world_of [ ([ $"in" ], Dir);
             ([ $"in"; $"a" ], Dir);
             ([ $"in"; $"a"; $"x.heic" ], File first);
             ([ $"in"; $"b" ], Dir);
             ([ $"in"; $"b"; $"x.HEIC" ], File second) ].

(** The record the pipeline makes of [one_photo] with EasyOCR. *)
Definition one_photo_records : list (list (str * str)) :=
  [ [ ($"manufacturer", $"Rheem"); ($"model_number", $"ABC-123");
      ($"serial_number", []); ($"capacity", []);
      ($"date_of_manufacture", []);
      ($"source_file", $"out/converted/a.jpg");
      ($"ocr_confidence", $"0.900"); ($"rotation_deg", $"90") ] ].

Definition demo_in : Path := [ $"in" ].
Definition demo_conv : Path := [ $"out"; $"converted" ].
Definition demo_first : Path := [ $"in"; $"a"; $"x.heic" ].
Definition demo_second : Path := [ $"in"; $"b"; $"x.HEIC" ].
Definition demo_out : Path := [ $"out"; $"converted"; $"x.png" ].

End Demo.

(** ** Vocabulary of the statements *)
Module Vocabulary.

(** What a run leaves of the world it started in: every entry of the file
    tree is still there, unchanged. *)
Definition keeps_files (w w' : world) : Prop :=
  forall a x, fs w !! a = Some x -> fs w' !! a = Some x.

(** What the staging of one file may change in the file tree: the staged
    file appears, and directories appear on the way to [dir]. *)
Definition adds_only (dir target : Path) (w w' : world) : Prop :=
  forall a,
    fs w' !! a = fs w !! a
    \/ (fs w !! a = None
        /\ (a = target \/ (a ∈ Fs.ancestors_and_self dir /\ fs w' !! a = Some Dir))).

(** What a whole traversal may change in the file tree. *)
Definition adds_many (conv : Path) (targets : list Path) (w w' : world) : Prop :=
  forall a,
    fs w' !! a = fs w !! a
    \/ (fs w !! a = None
        /\ (a ∈ targets
            \/ (a ∈ Fs.ancestors_and_self conv /\ fs w' !! a = Some Dir))).

(** The characters [post_clean] strips besides whitespace. *)
Definition is_punct (c : ascii) : bool := Text.mem_char c $"-:;,.# ".

(** A value that does not begin, or end, with whitespace or punctuation. *)
Definition trimmed_start (v : str) : Prop :=
  forall c, head v = Some c -> Text.is_space c = false /\ is_punct c = false.

Definition trimmed_end (v : str) : Prop :=
  forall c, last v = Some c -> Text.is_space c = false /\ is_punct c = false.

(** Both at once, as a test. *)
Definition trimmedb (v : str) : bool :=
  match head v with
  | Some c => negb (Text.is_space c) && negb (is_punct c)
  | None => true
  end
  && match last v with
     | Some c => negb (Text.is_space c) && negb (is_punct c)
     | None => true
     end.

(** The numbers of the capturing groups of a pattern. *)
Fixpoint group_ids (r : Re.regex) : list nat :=
  match r with
  | Re.Seq a b | Re.Alt a b => group_ids a ++ group_ids b
  | Re.Rep a _ _ => group_ids a
  | Re.Grp i a => i :: group_ids a
  | _ => []
  end.

(** Groups that took part in every match of the pattern. *)
Fixpoint mandatory (r : Re.regex) : list nat :=
  match r with
  | Re.Seq a b => mandatory a ++ mandatory b
  | Re.Grp i a => i :: mandatory a
  | _ => []
  end.

(** The shape of the two capacity patterns: group 1, two or three
    digits, comes first; group 2 always takes part. *)
Definition capacity_shape (r : Re.regex) : Prop :=
  exists rest,
    r = Re.Seq (Re.Grp 1 (Re.Rep Re.digit 2 (Some 3%nat))) rest
    /\ (1%nat ∉ group_ids rest) /\ (2%nat ∈ mandatory rest)
    /\ Re.ngroups r = 2%nat.

(** The pattern ends with group [i], a non-empty run of characters of
    class [p]. *)
Inductive ends_with (i : nat) (p : ascii -> bool) : Re.regex -> Prop :=
| ends_here (lo : nat) (hi : option nat) :
    (1 <= lo)%nat ->
    ends_with i p (Re.Grp i (Re.Rep (Re.Chr p) lo hi))
| ends_seq (a b : Re.regex) :
    ends_with i p b -> ends_with i p (Re.Seq a b).

(** A successful match reaches what remains to be matched, with the
    groups captured in between put in front of those captured before:
    their numbers are among [ids] and include [must]. *)
Definition reaches {R : Type} (ids must : list nat) (caps : Re.captures)
    (k : Re.cont R) (x : R) : Prop :=
  exists prev' s' extra,
    k prev' s' (extra ++ caps) = Some x
    /\ map fst extra ⊆ ids
    /\ must ⊆ map fst extra.

(** Where the CSV reader stands after the text of one written field [f],
    having started it in state [st]: past a closing quote, or in an
    unquoted field, or, the field being empty, where it was. *)
Inductive after_field (st : Csv.state) (open : bool) (f : str)
  : Csv.state -> bool -> Prop :=
| after_quoted : after_field st open f Csv.QUOTE_IN_QUOTED_FIELD true
| after_plain : f <> [] -> after_field st open f Csv.IN_FIELD true
| after_empty : f = [] -> after_field st open f st open.

(** The keys of [keys] that are not in [seen], each once, in the order
    they are first seen. *)
Fixpoint first_seen (seen keys : list str) : list str :=
  match keys with
  | [] => []
  | k :: rest =>
      if bool_decide (k ∈ seen) then first_seen seen rest
      else k :: first_seen (seen ++ [k]) rest
  end.

(** The set [existing] of [infer_fieldnames] holds the names of the list
    [fields]. *)
Definition fields_inv (st : list str * gset str) : Prop :=
  forall k, k ∈ snd st <-> k ∈ fst st.

End Vocabulary.
Import Vocabulary.

(* ===================================================================== *)
(** ** More worlds and libraries to run the model on *)
Module Scenarios.
Import Demo.

(** A library in which EasyOCR cannot be set up. *)
Definition without_easyocr : OcrLib := {|
  easyocr_available := fun _ => false;
  easyocr_readtext := fun _ _ => [];
  pytesseract_available := true;
  pytesseract_image_to_string := fun _ img => seen_at img
|}.

(** An input directory without any image file. *)
Definition no_images : world :=
  world_of [ ([ $"in" ], Dir);
             ([ $"in"; $"notes.txt" ], File $"no picture here") ].

(** A folder with two readable pictures, a HEIC file that cannot be
    decoded and a file that is not a picture. *)
Definition mixed_folder : world :=
  world_of [ ([ $"in" ], Dir);
             ([ $"in"; $"c.png" ], File $"IMG:Serial No: XY-77");
             ([ $"in"; $"notes.txt" ], File $"no picture here");
             ([ $"in"; $"b.heic" ], File $"damaged");
             ([ $"in"; $"a.jpg" ], File $"IMG:RHEEM Model No: ABC-123") ].

(** The records the pipeline makes of [mixed_folder] with EasyOCR. *)
Definition mixed_folder_records : list (list (str * str)) :=
  [ [ ($"manufacturer", $"Rheem"); ($"model_number", $"ABC-123");
      ($"serial_number", []); ($"capacity", []);
      ($"date_of_manufacture", []);
      ($"source_file", $"out/converted/a.jpg");
      ($"ocr_confidence", $"0.900"); ($"rotation_deg", $"90") ];
    [ ($"manufacturer", []); ($"model_number", []);
      ($"serial_number", $"XY-77"); ($"capacity", []);
      ($"date_of_manufacture", []);
      ($"source_file", $"out/converted/c.png");
      ($"ocr_confidence", $"0.900"); ($"rotation_deg", $"90") ] ].
(** The value a run returned, or [d] when it raised. *)
Definition returned {A : Type} (d : A) (out : result A * world) : A :=
  match fst out with
  | Ok a => a
  | Raise _ => d
  end.

(** The pipeline on the folder [in] of a world, with EasyOCR, the four
    rotations and a CSV file as its output. *)
Definition demo_run `{OcrLib} (w : world) : result (list (list (str * str))) * world :=
  Main.run_pipeline demo_in [ $"out" ] EASYOCR [] false true false $"auto" w.

End Scenarios.

(** ** More vocabulary *)
Module Changes.

(** What the creation of directories changes in the file tree: every
    entry is as it was, or is a directory that was not there. *)
Definition adds_dirs_only (w w' : world) : Prop :=
  forall a,
    fs w' !! a = fs w !! a \/ (fs w !! a = None /\ fs w' !! a = Some Dir).

(** The path [a] is the directory [out], one of its ancestors, or lies
    below [out]. *)
Definition within (out a : Path) : Prop :=
  a ∈ Fs.ancestors_and_self out \/ is_under out a = true.

(** Between [w] and [w'] nothing has changed outside [out]. *)
Definition changes_within (out : Path) (w w' : world) : Prop :=
  forall a, fs w' !! a = fs w !! a \/ within out a.

(** Whatever the outcome of [c], the worlds before and after it are
    related by [P]. *)
Definition frames {A} (P : world -> world -> Prop) (c : Run A) : Prop :=
  forall w r w', c w = (r, w') -> P w w'.

End Changes.

(** ** Reading a printed number back *)
Module Readers.

(** The number that the decimal digits of [s] spell, other characters left
    out: for "0.900" it is 900, the number of thousandths. *)
Definition digits_value (s : str) : Z :=
  fold_left (fun acc c =>
               if Re.is_digit c then 10 * acc + (Z.of_N (Text.code c) - 48)
               else acc)
    s 0.

End Readers.

(** * Properties of the model *)
(* ===================================================================== *)

(** * Facts about the monad *)
Module RunFacts.

Lemma bind_ok {A B} (c : Run A) (k : A -> Run B) (w w' : world) (b : B) :
  bind c k w = (Ok b, w') ->
  exists a w1, c w = (Ok a, w1) /\ k a w1 = (Ok b, w').
Proof.
  unfold bind. destruct (c w) as [[a|e] w1]; [|discriminate].
  intros Hk. exists a, w1. auto.
Qed.

Lemma bind_eq {A B} (c : Run A) (k : A -> Run B) (w w1 : world) (a : A) :
  c w = (Ok a, w1) -> bind c k w = k a w1.
Proof. unfold bind. intros ->. reflexivity. Qed.

Lemma bind_raise {A B} (c : Run A) (k : A -> Run B) (w w1 : world) (e : exn) :
  c w = (Raise e, w1) -> bind c k w = (Raise e, w1).
Proof. unfold bind. intros ->. reflexivity. Qed.

End RunFacts.
Import RunFacts.

(** * Facts about the Rotation Selector *)
Module SelectorFacts.
Import Selector.

Lemma Qltb_lt (a b : Q) : Qltb a b = true <-> (a < b)%Q.
Proof.
  unfold Qltb. rewrite negb_true_iff. split.
  - intros Hb. apply Qnot_le_lt. intros Hle.
    apply Qle_bool_iff in Hle. congruence.
  - intros Hlt. destruct (Qle_bool b a) eqn:E; [|reflexivity].
    apply Qle_bool_iff in E. exfalso. exact (Qlt_not_le _ _ Hlt E).
Qed.

Lemma Qltb_ge (a b : Q) : Qltb a b = false <-> (b <= a)%Q.
Proof.
  unfold Qltb. rewrite negb_false_iff. apply Qle_bool_iff.
Qed.

Lemma keep_best_triple (b t : str * Q * Z) :
  keep_best b (fst (fst t)) (snd (fst t)) (snd t)
  = if Qltb (conf_of b) (conf_of t) then t else b.
Proof. destruct t as [[text conf] rot]. reflexivity. Qed.

(** The scan either keeps what it started with, and then no attempt beat
    it, or returns the earliest attempt of greatest confidence. *)
Lemma scan_spec (tries : list (str * Q * Z)) :
  forall b,
    (scan b tries = b /\ Forall (fun t => (conf_of t <= conf_of b)%Q) tries)
    \/ (exists pre post,
          tries = pre ++ scan b tries :: post
          /\ (conf_of b < conf_of (scan b tries))%Q
          /\ Forall (fun t => (conf_of t < conf_of (scan b tries))%Q) pre
          /\ Forall (fun t => (conf_of t <= conf_of (scan b tries))%Q) post).
Proof.
  induction tries as [|t ts IH]; intros b.
  - left. split; [reflexivity | constructor].
  - unfold scan. cbn [fold_left]. rewrite keep_best_triple.
    destruct (Qltb (conf_of b) (conf_of t)) eqn:E; fold (scan t ts); fold (scan b ts).
    + apply Qltb_lt in E.
      destruct (IH t) as [[Heq Hall] | (pre & post & Hsplit & Hlt & Hpre & Hpost)].
      * right. exists [], ts. rewrite Heq. repeat split; auto.
      * right. exists (t :: pre), post. repeat split; auto.
        -- cbn. rewrite <- Hsplit. reflexivity.
        -- eapply Qlt_trans; eassumption.
    + apply Qltb_ge in E.
      destruct (IH b) as [[Heq Hall] | (pre & post & Hsplit & Hlt & Hpre & Hpost)].
      * left. split; auto.
      * right. exists (t :: pre), post. repeat split; auto.
        -- cbn. rewrite <- Hsplit. reflexivity.
        -- constructor; auto. eapply Qle_lt_trans; eassumption.
Qed.

Section WithLibs.
Context `{OcrLib}.

Lemma read_image_bgr_world (p : Path) (w w' : world) (x : result image) :
  Preprocess.read_image_bgr p w = (x, w') -> w' = w.
Proof.
  unfold Preprocess.read_image_bgr, Fs.read_bytes, bind, get_fs, ret, raise.
  destruct (fs w !! p) as [[|data]|]; try (intros [= _ <-]; reflexivity).
  destruct (cv2_imdecode data); intros [= _ <-]; reflexivity.
Qed.

(** Whatever the inner loop writes, the value it returns is the scan of
    the attempts. *)
Lemma try_rotations_scan (engine : OCREngine) (p : Path) (img : image)
    (sd : option Path) (rots : list Z) :
  forall best w r w',
    try_rotations engine p img sd rots best w = (Ok r, w') ->
    r = scan best (attempts engine img rots).
Proof.
  induction rots as [|rot rest IH]; intros best w r w' Hrun.
  - cbn in Hrun. injection Hrun as <- _. reflexivity.
  - cbn [try_rotations] in Hrun.
    apply bind_ok in Hrun as (? & w1 & _ & Hrun).
    destruct (Ocr.run engine (Preprocess.preprocess_for_ocr img rot))
      as [text conf] eqn:Erun.
    apply IH in Hrun. rewrite Hrun. unfold scan, attempts. cbn [map fold_left].
    rewrite Erun. reflexivity.
Qed.

Lemma try_rotations_pure (engine : OCREngine) (p : Path) (img : image)
    (rots : list Z) :
  forall best w,
    try_rotations engine p img None rots best w
    = (Ok (scan best (attempts engine img rots)), w).
Proof.
  induction rots as [|rot rest IH]; intros best w; [reflexivity|].
  cbn [try_rotations]. unfold bind at 1, ret at 1.
  destruct (Ocr.run engine (Preprocess.preprocess_for_ocr img rot))
    as [text conf] eqn:Erun.
  rewrite IH. unfold scan, attempts. cbn [map fold_left].
  rewrite Erun. reflexivity.
Qed.

(** The call the pipeline makes: one image. *)
Lemma choose_best_one_image (engine : OCREngine) (p : Path)
    (sd : option Path) (mode : str) (w w' : world) (r : str * Q * Z) :
  choose_best_ocr_result engine [p] sd mode w = (Ok r, w') ->
  exists img,
    Preprocess.read_image_bgr p w = (Ok img, w)
    /\ r = scan initial_best (attempts engine img (rotation_candidates mode)).
Proof.
  unfold choose_best_ocr_result. cbn [try_images]. unfold bind at 1.
  destruct (Preprocess.read_image_bgr p w) as [[img|e] w1] eqn:Eread;
    [|discriminate].
  pose proof (read_image_bgr_world _ _ _ _ Eread) as ->.
  unfold bind at 1.
  destruct (try_rotations engine p img sd (rotation_candidates mode) _ w)
    as [[b|e] w2] eqn:Etry; [|discriminate].
  cbn. intros [= <- <-]. exists img. split; [reflexivity|].
  eapply try_rotations_scan; eassumption.
Qed.

(** An attempt that reports the sentinel, or less, never replaces a best
    whose confidence is the sentinel. *)
Lemma keep_best_sentinel (b : str * Q * Z) (text : str) (conf : Q) (rot : Z) :
  conf_of b = (-1)%Q -> (conf == -1)%Q -> keep_best b text conf rot = b.
Proof.
  intros Hb Hc. unfold keep_best. fold (conf_of b). rewrite Hb.
  replace (Qltb (-1) conf) with false; [reflexivity|].
  symmetry. apply Qltb_ge. rewrite Hc. apply Qle_refl.
Qed.

Lemma try_rotations_sentinel (engine : OCREngine) (p : Path) (img : image)
    (sd : option Path) (rots : list Z) :
  (forall i, (snd (Ocr.run engine i) == -1)%Q) ->
  forall best w r w',
    conf_of best = (-1)%Q ->
    try_rotations engine p img sd rots best w = (Ok r, w') -> r = best.
Proof.
  intros Hall best w r w' Hb Hrun.
  apply try_rotations_scan in Hrun. subst r.
  induction rots as [|rot rest IH]; [reflexivity|].
  unfold scan, attempts. cbn [map fold_left fst snd].
  rewrite keep_best_sentinel by auto. exact IH.
Qed.

Lemma try_images_sentinel (engine : OCREngine) (sd : option Path)
    (rots : list Z) (paths : list Path) :
  (forall i, (snd (Ocr.run engine i) == -1)%Q) ->
  forall best w r w',
    conf_of best = (-1)%Q ->
    try_images engine paths sd rots best w = (Ok r, w') -> r = best.
Proof.
  intros Hall. induction paths as [|p rest IH]; intros best w r w' Hb Hrun.
  - cbn in Hrun. injection Hrun as <- _. reflexivity.
  - cbn [try_images] in Hrun. unfold bind at 1 in Hrun.
    destruct (Preprocess.read_image_bgr p w) as [[img|e] w1]; [|discriminate].
    unfold bind at 1 in Hrun.
    destruct (try_rotations engine p img sd rots best w1)
      as [[b|e] w2] eqn:Etry; [|discriminate].
    apply try_rotations_sentinel in Etry; auto. subst b.
    eapply IH; eassumption.
Qed.

(** When some attempt reports a confidence above the sentinel, the
    selector returns the earliest attempt of greatest confidence. *)
Lemma selector_earliest_greatest (engine : OCREngine) (p : Path)
    (sd : option Path) (mode : str) (w w' : world) (r : str * Q * Z)
    (img : image) :
  choose_best_ocr_result engine [p] sd mode w = (Ok r, w') ->
  Preprocess.read_image_bgr p w = (Ok img, w) ->
  Exists (fun t => (-1 < conf_of t)%Q)
    (attempts engine img (rotation_candidates mode)) ->
  exists pre post,
    attempts engine img (rotation_candidates mode) = pre ++ r :: post
    /\ Forall (fun t => (conf_of t < conf_of r)%Q) pre
    /\ Forall (fun t => (conf_of t <= conf_of r)%Q) post.
Proof.
  intros Hrun Hread Hsome.
  apply choose_best_one_image in Hrun as (img' & Hread' & ->).
  rewrite Hread in Hread'. injection Hread' as <-.
  destruct (scan_spec (attempts engine img (rotation_candidates mode)) initial_best)
    as [[_ Hall] | (pre & post & Hsplit & _ & Hpre & Hpost)].
  - exfalso. apply Exists_exists in Hsome as (t & Hin & Hlt).
    rewrite Forall_forall in Hall.
    specialize (Hall t Hin). cbn in Hall.
    exact (Qlt_not_le _ _ Hlt Hall).
  - exists pre, post. auto.
Qed.

Lemma scan_all_sentinel (tries : list (str * Q * Z)) (b : str * Q * Z) :
  conf_of b = (-1)%Q ->
  Forall (fun t => (conf_of t == -1)%Q) tries ->
  scan b tries = b.
Proof.
  intros Hb Hall. induction Hall as [|t ts Ht _ IH]; [reflexivity|].
  unfold scan. cbn [fold_left].
  rewrite (keep_best_sentinel b _ _ _ Hb Ht). exact IH.
Qed.

(** C2 (code defect): when every attempt on the image reports the sentinel
    -1, the selector returns its initial triple: the empty text, -1 and
    rotation 0.  The text read at the last rotation is not kept: whenever
    that text is not empty, the text returned differs from it.  Without a
    directory for the pictures the call always returns. *)
Theorem C2_all_sentinel_returns_the_empty_text (engine : OCREngine)
    (p : Path) (mode : str) (w : world) (img : image) :
  Preprocess.read_image_bgr p w = (Ok img, w) ->
  Forall (fun t => (conf_of t == -1)%Q)
    (attempts engine img (rotation_candidates mode)) ->
  choose_best_ocr_result engine [p] None mode w = (Ok ([], (-1)%Q, 0), w)
  /\ (forall sd r w',
        choose_best_ocr_result engine [p] sd mode w = (Ok r, w') ->
        r = ([], (-1)%Q, 0))
  /\ (forall t sd r w',
        last (attempts engine img (rotation_candidates mode)) = Some t ->
        fst (fst t) <> [] ->
        choose_best_ocr_result engine [p] sd mode w = (Ok r, w') ->
        fst (fst r) <> fst (fst t)).
Proof.
  intros Hread Hall.
  assert (Hany : forall sd r w',
             choose_best_ocr_result engine [p] sd mode w = (Ok r, w') ->
             r = ([], (-1)%Q, 0)).
  { intros sd r w' Hrun.
    apply choose_best_one_image in Hrun as (img' & Hread' & ->).
    rewrite Hread in Hread'. injection Hread' as <-.
    apply scan_all_sentinel; [reflexivity | exact Hall]. }
  split; [|split].
  - unfold choose_best_ocr_result. cbn [try_images]. unfold bind at 1.
    rewrite Hread. unfold bind at 1. rewrite try_rotations_pure.
    unfold ret. f_equal. f_equal.
    apply scan_all_sentinel; [reflexivity | exact Hall].
  - exact Hany.
  - intros t sd r w' _ Hne Hrun. rewrite (Hany _ _ _ Hrun). cbn.
    intros Heq. apply Hne. symmetry. exact Heq.
Qed.

End WithLibs.

Import Demo.

(** On the demonstration photograph the Tesseract adapter reports -1 at
    each of the four rotations, the last one read
    "RHEEM Model No: ABC-123 @270", and the selector returns the empty
    text. *)
Lemma C2_witness :
  Preprocess.read_image_bgr [ $"in"; $"a.jpg" ] one_photo
    = (Ok ($"RHEEM Model No: ABC-123", 0), one_photo)
  /\ attempts tesseract_engine ($"RHEEM Model No: ABC-123", 0)
       (rotation_candidates $"auto")
     = [ ($"RHEEM Model No: ABC-123 @0", (-1)%Q, 0);
         ($"RHEEM Model No: ABC-123 @90", (-1)%Q, 90);
         ($"RHEEM Model No: ABC-123 @180", (-1)%Q, 180);
         ($"RHEEM Model No: ABC-123 @270", (-1)%Q, 270) ]
  /\ choose_best_ocr_result tesseract_engine [[ $"in"; $"a.jpg" ]] None
       $"auto" one_photo
     = (Ok ([], (-1)%Q, 0), one_photo).
Proof.
  split; [vm_compute; reflexivity|].
  split; [vm_compute; reflexivity|].
  apply (@C2_all_sentinel_returns_the_empty_text imaging ocr
           tesseract_engine [ $"in"; $"a.jpg" ] $"auto" one_photo
           ($"RHEEM Model No: ABC-123", 0)).
  - vm_compute. reflexivity.
  - repeat constructor.
Defined.

(** C1 (code defect): the Tesseract adapter reports the sentinel -1 with
    every text, and [-1 > -1] is false, so the text it read is never kept.
    Here the only attempt read "RHEEM Model No: ABC-123 @0"; the selector
    returns the empty text. *)
Theorem C1_tesseract_text_is_dropped :
  Preprocess.read_image_bgr [ $"in"; $"a.jpg" ] one_photo
    = (Ok ($"RHEEM Model No: ABC-123", 0), one_photo)
  /\ attempts tesseract_engine ($"RHEEM Model No: ABC-123", 0)
       (rotation_candidates $"none")
     = [ ($"RHEEM Model No: ABC-123 @0", (-1)%Q, 0) ]
  /\ fst (choose_best_ocr_result tesseract_engine [[ $"in"; $"a.jpg" ]] None
            $"none" one_photo)
     = Ok ([], (-1)%Q, 0).
Proof. repeat split; vm_compute; reflexivity. Qed.

(** The confidences of the spec's example, at the four rotations. *)
Example scan_example :
  scan initial_best
    [ ($"zero", (2 # 10)%Q, 0); ($"ninety", (9 # 10)%Q, 90);
      ($"half turn", (5 # 10)%Q, 180); ($"three quarters", (1 # 10)%Q, 270) ]
  = ($"ninety", (9 # 10)%Q, 90).
Proof. reflexivity. Qed.

Example choose_best_example :
  fst (choose_best_ocr_result easyocr_engine [[ $"in"; $"a.jpg" ]] None
         $"auto" one_photo)
  = Ok ($"RHEEM Model No: ABC-123 @90", (9 # 10)%Q, 90).
Proof. vm_compute. reflexivity. Qed.

End SelectorFacts.

(** * Facts about the file operations *)
Module FsFacts.

Ltac run_unfold :=
  unfold Fs.path_exists, Fs.read_bytes, Fs.write_bytes, Fs.copy2,
    bind, ret, raise, get_fs, put_fs, print, record_call, try_except in *;
  cbn [fs stdout calls fst snd] in *.

Lemma keeps_files_refl (w : world) : keeps_files w w.
Proof. intros a x Hx. exact Hx. Qed.

Lemma keeps_files_trans (w1 w2 w3 : world) :
  keeps_files w1 w2 -> keeps_files w2 w3 -> keeps_files w1 w3.
Proof. intros H12 H23 a x Hx. apply H23, H12, Hx. Qed.

(** [mkdir] only adds directories, at the paths it is asked for. *)
Lemma mkdir_each_spec (ps : list Path) :
  forall w r w',
    Fs.mkdir_each ps w = (r, w') ->
    stdout w' = stdout w /\ calls w' = calls w
    /\ (forall e, r = Raise e -> is_Exception e = true)
    /\ forall a, fs w' !! a = fs w !! a
                 \/ (fs w !! a = None /\ a ∈ ps /\ fs w' !! a = Some Dir).
Proof.
  induction ps as [|p rest IH]; intros w r w' Hrun.
  - cbn in Hrun. injection Hrun as <- <-. repeat split; auto. discriminate.
  - cbn [Fs.mkdir_each] in Hrun. run_unfold.
    destruct (fs w !! p) as [[|data]|] eqn:Ep.
    + apply IH in Hrun as (Hout & Hcalls & Hexc & Hfs).
      repeat split; auto. intros a. destruct (Hfs a) as [|(?&?&?)]; auto.
      right. repeat split; auto. now apply list_elem_of_further.
    + injection Hrun as <- <-. repeat split; auto. now intros e [= <-].
    + apply IH in Hrun as (Hout & Hcalls & Hexc & Hfs). cbn in *.
      repeat split; auto. intros a. destruct (Hfs a) as [Ha|(Ha&?&?)].
      * destruct (decide (p = a)) as [->|Hne].
        -- right. rewrite Ha, lookup_insert_eq. repeat split; auto.
           apply list_elem_of_here.
        -- left. rewrite Ha. now apply lookup_insert_ne.
      * right. destruct (decide (p = a)) as [->|Hne].
        -- rewrite lookup_insert_eq in Ha. discriminate.
        -- rewrite lookup_insert_ne in Ha by assumption.
           repeat split; auto. now apply list_elem_of_further.
Qed.

Lemma mkdir_each_keeps (ps : list Path) (w w' : world) (r : result unit) :
  Fs.mkdir_each ps w = (r, w') -> keeps_files w w'.
Proof.
  intros Hrun a x Hx. apply mkdir_each_spec in Hrun as (_ & _ & _ & Hfs).
  destruct (Hfs a) as [->|(Hnone & _)]; congruence.
Qed.

(** [mkdir] succeeds when no file stands where a directory is needed. *)
Lemma mkdir_each_ok (ps : list Path) :
  forall w,
    (forall a data, a ∈ ps -> fs w !! a <> Some (File data)) ->
    exists w', Fs.mkdir_each ps w = (Ok tt, w').
Proof.
  induction ps as [|p rest IH]; intros w Hfree.
  - exists w. reflexivity.
  - cbn [Fs.mkdir_each]. run_unfold.
    destruct (fs w !! p) as [[|data]|] eqn:Ep.
    + apply IH. intros a data Ha. apply Hfree. now apply list_elem_of_further.
    + exfalso. eapply Hfree; [apply list_elem_of_here | exact Ep].
    + apply IH. cbn. intros a data Ha.
      destruct (decide (p = a)) as [->|Hne].
      * rewrite lookup_insert_eq. discriminate.
      * rewrite lookup_insert_ne by assumption.
        apply Hfree. now apply list_elem_of_further.
Qed.

Lemma ancestors_length (p a : Path) :
  a ∈ Fs.ancestors_and_self p -> (length a <= length p)%nat.
Proof.
  unfold Fs.ancestors_and_self. intros Ha.
  apply list_elem_of_fmap in Ha as (n & -> & Hn).
  rewrite length_take. lia.
Qed.

Lemma parent_joinpath (dir : Path) (nm : str) : parent (joinpath dir nm) = dir.
Proof. unfold parent, joinpath. apply removelast_last. Qed.

(** A path right below [dir] is none of the directories [mkdir dir] makes. *)
Lemma joinpath_not_ancestor (dir : Path) (nm : str) :
  joinpath dir nm ∉ Fs.ancestors_and_self dir.
Proof.
  intros Hin. apply ancestors_length in Hin.
  unfold joinpath in Hin. rewrite length_app in Hin. cbn in Hin. lia.
Qed.

Lemma adds_only_refl (dir target : Path) (w : world) : adds_only dir target w w.
Proof. intros a. now left. Qed.

Lemma adds_only_same (dir target : Path) (w w' : world) :
  fs w' = fs w -> adds_only dir target w w'.
Proof. intros Heq a. left. now rewrite Heq. Qed.

Lemma adds_only_keeps_fs (dir target : Path) (w w1 w2 : world) :
  adds_only dir target w w1 -> fs w2 = fs w1 -> adds_only dir target w w2.
Proof. intros Hadd Heq a. rewrite Heq. apply Hadd. Qed.

Lemma adds_only_keeps (dir target : Path) (w w' : world) :
  adds_only dir target w w' -> keeps_files w w'.
Proof.
  intros Hadd a x Hx. destruct (Hadd a) as [->|[Hnone _]]; congruence.
Qed.

Lemma mkdir_parents_adds (dir target : Path) (w w' : world) (r : result unit) :
  Fs.mkdir_parents dir w = (r, w') -> adds_only dir target w w'.
Proof.
  intros Hrun a. apply mkdir_each_spec in Hrun as (_ & _ & _ & Hfs).
  destruct (Hfs a) as [|(?&?&?)]; auto.
Qed.

End FsFacts.
Import FsFacts.

(** * Facts about the Image Normalizer *)
Module HeicFacts.
Import HeicUtils.
Section WithImaging.
Context `{Imaging}.

Lemma is_heic_image (q : Path) : is_heic q = true -> is_image_file q = true.
Proof.
  unfold is_heic, is_image_file, IMAGE_EXTENSIONS.
  rewrite !bool_decide_eq_true. intros Hin.
  apply elem_of_cons in Hin as [->|Hin]; [set_solver|].
  apply elem_of_cons in Hin as [->|Hin]; [set_solver|].
  inversion Hin.
Qed.

Lemma mkdir_then (conv : Path) (nm : str) (w w1 : world) (r : result unit) :
  fs w !! joinpath conv nm = None ->
  Fs.mkdir_parents conv w = (r, w1) ->
  stdout w1 = stdout w /\ calls w1 = calls w
  /\ adds_only conv (joinpath conv nm) w w1
  /\ fs w1 !! joinpath conv nm = None
  /\ (forall e, r = Raise e -> is_Exception e = true).
Proof.
  intros Hfree Hmk.
  pose proof (mkdir_each_spec _ _ _ _ Hmk) as (Hout & Hcalls & Hexc & Hfs).
  repeat split; auto.
  - intros a. destruct (Hfs a) as [|(?&?&?)]; auto.
  - destruct (Hfs (joinpath conv nm)) as [->|(_ & Hin & _)]; [assumption|].
    exfalso. exact (joinpath_not_ancestor _ _ Hin).
Qed.

Lemma adds_only_write (conv : Path) (nm : str) (w w1 : world) (d : bytes)
    (out : list str) (cs : list event) :
  adds_only conv (joinpath conv nm) w w1 ->
  fs w !! joinpath conv nm = None ->
  adds_only conv (joinpath conv nm) w
    (World (<[joinpath conv nm := File d]> (fs w1)) out cs).
Proof.
  intros Hadd Hfree a. cbn [fs].
  destruct (decide (joinpath conv nm = a)) as [<-|Hne].
  - right. auto.
  - rewrite lookup_insert_ne by assumption. apply Hadd.
Qed.

(** A conversion into a free place right below [conv]. *)
Lemma convert_spec (q conv : Path) (nm : str) (w w' : world) (r : result Path) :
  fs w !! joinpath conv nm = None ->
  convert_heic_to_png q (joinpath conv nm) w = (r, w') ->
  calls w' = calls w ++ [ConvertCall q (joinpath conv nm)]
  /\ stdout w' = stdout w
  /\ adds_only conv (joinpath conv nm) w w'
  /\ match r with
     | Ok x =>
         x = joinpath conv nm
         /\ exists d png, fs w !! q = Some (File d) /\ heif_to_png d = Some png
                          /\ fs w' !! joinpath conv nm = Some (File png)
     | Raise e =>
         is_Exception e = true /\ fs w' !! joinpath conv nm = None
     end.
Proof.
  intros Hfree. unfold convert_heic_to_png. rewrite parent_joinpath.
  unfold bind at 1, record_call at 1. unfold bind at 1, Fs.read_bytes at 1.
  unfold bind at 1, get_fs at 1. cbn [fs stdout calls].
  destruct (fs w !! q) as [[|d]|] eqn:Eq;
    try (unfold raise; intros [= <- <-]; cbn [fs stdout calls];
         repeat split; auto using adds_only_same).
  unfold ret at 1.
  destruct (heif_to_png d) as [png|] eqn:Epng;
    [|unfold raise; intros [= <- <-]; cbn [fs stdout calls];
      repeat split; auto using adds_only_same].
  unfold bind at 1.
  destruct (Fs.mkdir_parents conv _) as [[[]|e] w1] eqn:Emk;
    apply (mkdir_then conv nm) in Emk as (Hout & Hcalls & Hadd & Hfree1 & Hexc);
    try assumption; cbn [fs stdout calls] in *.
  - unfold bind at 1, Fs.write_bytes at 1, bind at 1, get_fs at 1.
    rewrite Hfree1. unfold put_fs, ret. intros [= <- <-]. cbn [fs stdout calls].
    split; [assumption|]. split; [assumption|]. split.
    + apply adds_only_write; auto.
    + split; [reflexivity|]. exists d, png. rewrite lookup_insert_eq. auto.
  - intros [= <- <-]. split; [assumption|]. split; [assumption|].
    split; [intros a; apply (Hadd a)|]. split; [eauto | assumption].
Qed.

(** A copy into a free place right below [conv]. *)
Lemma copy_spec (q conv : Path) (nm : str) (w w' : world) (r : result unit) :
  fs w !! joinpath conv nm = None ->
  (Fs.mkdir_parents conv ;;; Fs.copy2 q (joinpath conv nm)) w = (r, w') ->
  (calls w' = calls w \/ calls w' = calls w ++ [CopyCall q (joinpath conv nm)])
  /\ stdout w' = stdout w
  /\ adds_only conv (joinpath conv nm) w w'
  /\ match r with
     | Ok _ => is_Some (fs w' !! joinpath conv nm)
     | Raise e => is_Exception e = true /\ fs w' !! joinpath conv nm = None
     end.
Proof.
  intros Hfree. unfold bind at 1.
  destruct (Fs.mkdir_parents conv w) as [[[]|e] w1] eqn:Emk;
    apply (mkdir_then conv nm) in Emk as (Hout & Hcalls & Hadd & Hfree1 & Hexc);
    try assumption.
  - unfold Fs.copy2. unfold bind at 1, record_call at 1.
    unfold bind at 1, Fs.read_bytes at 1. unfold bind at 1, get_fs at 1.
    cbn [fs stdout calls].
    destruct (fs w1 !! q) as [[|d]|] eqn:Eq;
      try (unfold raise; intros [= <- <-]; cbn [fs stdout calls];
           rewrite Hcalls; repeat split; auto).
    unfold ret at 1, Fs.write_bytes, bind at 1, get_fs at 1.
    cbn [fs stdout calls]. rewrite Hfree1. unfold put_fs.
    intros [= <- <-]. cbn [fs stdout calls]. rewrite Hcalls.
    split; [auto|]. split; [assumption|]. split.
    + apply adds_only_write; auto.
    + rewrite lookup_insert_eq. eauto.
  - intros [= <- <-]. rewrite Hcalls. repeat split; auto.
Qed.

Lemma path_exists_eq (p : Path) (w : world) :
  Fs.path_exists p w = (Ok (bool_decide (is_Some (fs w !! p))), w).
Proof. reflexivity. Qed.

(** One iteration never raises; it appends at most the staged path, which
    then exists; it calls the codec or [shutil] at most once, and only
    when the staged path was free. *)
Lemma prepare_one_spec (conv : Path) (ready : list Path) (q : Path) (w : world) :
  exists added new w',
    prepare_one conv ready q w = (Ok (ready ++ added), w')
    /\ calls w' = calls w ++ new
    /\ (added = []
        \/ (added = [staged conv q] /\ is_Some (fs w' !! staged conv q)))
    /\ (new = []
        \/ (fs w !! staged conv q = None
            /\ (new = [ConvertCall q (staged conv q)]
                \/ new = [CopyCall q (staged conv q)])))
    /\ adds_only conv (staged conv q) w w'.
Proof.
  unfold prepare_one, staged. unfold bind at 1, get_fs at 1.
  destruct (negb (Fs.is_file (fs w) q) || negb (is_image_file q)) eqn:Eskip.
  { exists [], [], w. rewrite !app_nil_r.
    repeat split; auto using adds_only_refl. }
  destruct (is_heic q) eqn:Eheic.
  - unfold bind at 1. rewrite path_exists_eq.
    destruct (bool_decide (is_Some (fs w !! out_png conv q))) eqn:Epresent;
      cbn [negb].
    + apply bool_decide_eq_true in Epresent.
      exists [out_png conv q], [], w. rewrite app_nil_r.
      repeat split; auto using adds_only_refl.
    + apply bool_decide_eq_false in Epresent.
      assert (Hfree : fs w !! out_png conv q = None).
      { destruct (fs w !! out_png conv q); [exfalso; eauto | reflexivity]. }
      unfold try_except, bind at 1.
      destruct (convert_heic_to_png q (out_png conv q) w) as [[x|e] w1] eqn:Econv;
        apply convert_spec in Econv as (Hcalls & Hout & Hadd & Hres);
        try assumption.
      * destruct Hres as (-> & d & png & _ & _ & Hnew).
        exists [out_png conv q], [ConvertCall q (out_png conv q)], w1.
        unfold ret. repeat split; eauto.
      * destruct Hres as (-> & Hnone).
        exists [], [ConvertCall q (out_png conv q)].
        eexists. unfold bind, print, ret. cbn [fs stdout calls].
        rewrite app_nil_r. split; [reflexivity|]. cbn [fs stdout calls].
        repeat split; eauto.
  - unfold bind at 1. rewrite path_exists_eq.
    destruct (bool_decide (is_Some (fs w !! out_copy conv q))) eqn:Epresent;
      cbn [negb].
    + apply bool_decide_eq_true in Epresent.
      exists [out_copy conv q], [], w. rewrite app_nil_r.
      repeat split; auto using adds_only_refl.
    + apply bool_decide_eq_false in Epresent.
      assert (Hfree : fs w !! out_copy conv q = None).
      { destruct (fs w !! out_copy conv q); [exfalso; eauto | reflexivity]. }
      unfold out_copy at 1. rewrite parent_joinpath. fold (out_copy conv q).
      unfold try_except.
      pose proof (copy_spec q conv (name q) w) as Hcopy.
      fold (out_copy conv q) in Hcopy.
      unfold bind at 1. unfold bind at 1 in Hcopy.
      destruct (Fs.mkdir_parents conv w) as [[[]|e] w1] eqn:Emk.
      * unfold bind at 1.
        destruct (Fs.copy2 q (out_copy conv q) w1) as [[[]|e] w2] eqn:Ecp;
          destruct (Hcopy _ _ Hfree eq_refl) as (Hcalls & Hout & Hadd & Hres).
        -- exists [out_copy conv q].
           destruct Hcalls as [Hcalls|Hcalls];
             [exists [] | exists [CopyCall q (out_copy conv q)]];
             exists w2; unfold ret; rewrite ?app_nil_r;
             repeat split; eauto.
        -- destruct Hres as (-> & Hnone). exists [].
           destruct Hcalls as [Hcalls|Hcalls];
             [exists [] | exists [CopyCall q (out_copy conv q)]];
             eexists; unfold bind, print, ret; cbn [fs stdout calls];
             rewrite ?app_nil_r; (split; [reflexivity|]);
             cbn [fs stdout calls]; repeat split; eauto.
      * destruct (Hcopy _ _ Hfree eq_refl) as (Hcalls & Hout & Hadd & -> & Hnone).
        exists [].
        destruct Hcalls as [Hcalls|Hcalls];
          [exists [] | exists [CopyCall q (out_copy conv q)]];
          eexists; unfold bind, print, ret; cbn [fs stdout calls];
          rewrite ?app_nil_r; (split; [reflexivity|]);
          cbn [fs stdout calls]; repeat split; eauto.
Qed.

(** A file whose staged path exists is appended without any call. *)
Lemma prepare_one_cached (conv : Path) (ready : list Path) (q : Path) (w : world) :
  Fs.is_file (fs w) q = true -> is_image_file q = true ->
  is_Some (fs w !! staged conv q) ->
  prepare_one conv ready q w = (Ok (ready ++ [staged conv q]), w).
Proof.
  intros Hfile Himg Hsome. unfold prepare_one, staged in *.
  unfold bind at 1, get_fs at 1. rewrite Hfile, Himg. cbn [negb orb].
  destruct (is_heic q); unfold bind at 1; rewrite path_exists_eq;
    rewrite bool_decide_eq_true_2 by assumption; reflexivity.
Qed.

Lemma convert_succeeds (q conv : Path) (nm : str) (w : world) (d png : bytes) :
  fs w !! q = Some (File d) -> heif_to_png d = Some png ->
  fs w !! joinpath conv nm = None ->
  (forall a data, a ∈ Fs.ancestors_and_self conv -> fs w !! a <> Some (File data)) ->
  exists w', convert_heic_to_png q (joinpath conv nm) w = (Ok (joinpath conv nm), w').
Proof.
  intros Hq Hpng Hfree Hclean. unfold convert_heic_to_png.
  rewrite parent_joinpath.
  unfold bind at 1, record_call at 1. unfold bind at 1, Fs.read_bytes at 1.
  unfold bind at 1, get_fs at 1. cbn [fs stdout calls].
  rewrite Hq. unfold ret at 1. rewrite Hpng. unfold bind at 1.
  destruct (mkdir_each_ok (Fs.ancestors_and_self conv)
              (World (fs w) (stdout w)
                 (calls w ++ [ConvertCall q (joinpath conv nm)])) Hclean)
    as (w2 & Hmk).
  unfold Fs.mkdir_parents. rewrite Hmk.
  apply (mkdir_then conv nm) in Hmk as (_ & _ & _ & Hfree2 & _); [|exact Hfree].
  unfold bind at 1, Fs.write_bytes at 1, bind at 1, get_fs at 1.
  rewrite Hfree2. unfold put_fs, ret. eauto.
Qed.

(** A decodable HEIC file whose staged path is free is converted, provided
    no file stands where [conv] or one of its ancestors must be. *)
Lemma prepare_one_converts (conv : Path) (ready : list Path) (q : Path)
    (w : world) (d png : bytes) :
  is_heic q = true -> fs w !! q = Some (File d) -> heif_to_png d = Some png ->
  fs w !! out_png conv q = None ->
  (forall a data, a ∈ Fs.ancestors_and_self conv -> fs w !! a <> Some (File data)) ->
  exists w',
    prepare_one conv ready q w = (Ok (ready ++ [out_png conv q]), w')
    /\ calls w' = calls w ++ [ConvertCall q (out_png conv q)]
    /\ fs w' !! out_png conv q = Some (File png)
    /\ adds_only conv (out_png conv q) w w'.
Proof.
  intros Hheic Hq Hpng Hfree Hclean. unfold prepare_one.
  unfold bind at 1, get_fs at 1. unfold Fs.is_file. rewrite Hq.
  rewrite (is_heic_image _ Hheic), Hheic. cbn [negb orb].
  unfold bind at 1. rewrite path_exists_eq.
  rewrite bool_decide_eq_false_2 by (rewrite Hfree; intros [? [=]]).
  cbn [negb]. unfold try_except, bind at 1.
  destruct (convert_succeeds q conv _ w d png Hq Hpng Hfree Hclean) as (w1 & Econv).
  fold (out_png conv q) in Econv. rewrite Econv.
  apply convert_spec in Econv as (Hcalls & Hout & Hadd & _ & d' & png' & Hq' & Hpng' & Hnew);
    [|assumption].
  rewrite Hq in Hq'. injection Hq' as <-. rewrite Hpng in Hpng'.
  injection Hpng' as <-. exists w1. unfold ret. auto.
Qed.

Lemma adds_many_keeps (conv : Path) (targets : list Path) (w w' : world) :
  adds_many conv targets w w' -> keeps_files w w'.
Proof.
  intros Hadd a x Hx. destruct (Hadd a) as [->|[Hnone _]]; congruence.
Qed.

Lemma adds_many_step (conv q : Path) (rest : list Path) (w w1 w2 : world) :
  adds_only conv (staged conv q) w w1 ->
  adds_many conv (map (staged conv) rest) w1 w2 ->
  adds_many conv (map (staged conv) (q :: rest)) w w2.
Proof.
  intros H1 H2 a. cbn [map].
  destruct (H2 a) as [E2|(N2 & [T2|(A2 & D2)])];
    destruct (H1 a) as [E1|(N1 & [T1|(A1 & D1)])];
    first
      [ left; congruence
      | exfalso; congruence
      | right; split; [congruence|]; right; split; [assumption | congruence]
      | right; split; [congruence|]; left; subst; apply list_elem_of_here
      | right; split; [congruence|]; left; now apply list_elem_of_further ].
Qed.

(** The traversal as a whole: it never raises; [ready] grows by the staged
    paths of some of the files, in traversal order, all of which exist at
    the end; the calls made are for files of the traversal, in order, and
    only into places that were free at the start. *)
Lemma prepare_loop_spec (conv : Path) (paths : list Path) :
  forall ready w,
    exists kept new w',
      prepare_loop conv paths ready w
        = (Ok (ready ++ map (staged conv) kept), w')
      /\ sublist kept paths
      /\ Forall (fun t => is_Some (fs w' !! t)) (map (staged conv) kept)
      /\ calls w' = calls w ++ new
      /\ sublist (map call_src new) paths
      /\ Forall (fun e => fs w !! call_dst e = None
                           /\ call_dst e = staged conv (call_src e)) new
      /\ adds_many conv (map (staged conv) paths) w w'.
Proof.
  induction paths as [|q rest IH]; intros ready w.
  - exists [], [], w. cbn. rewrite !app_nil_r.
    split; [reflexivity|]. split; [constructor|]. split; [constructor|].
    split; [reflexivity|]. split; [constructor|]. split; [constructor|].
    intros a. now left.
  - cbn [prepare_loop].
    destruct (prepare_one_spec conv ready q w)
      as (added & new1 & w1 & Hone & Hcalls1 & Hadded & Hnew1 & Hadd1).
    destruct (IH (ready ++ added) w1)
      as (kept & new2 & w2 & Hloop & Hsub & Hex & Hcalls2 & Hsrc & Hdst & Hadd2).
    pose proof (adds_many_keeps _ _ _ _ Hadd2) as Hkeep2.
    pose proof (adds_only_keeps _ _ _ _ Hadd1) as Hkeep1.
    unfold bind at 1. rewrite Hone, Hloop.
    assert (Hdst' : Forall (fun e => fs w !! call_dst e = None
                           /\ call_dst e = staged conv (call_src e)) new2).
    { eapply Forall_impl; [exact Hdst|]. cbn. intros e [Hnone Hshape].
      split; [|assumption].
      destruct (fs w !! call_dst e) eqn:E; [|reflexivity].
      apply Hkeep1 in E. congruence. }
    assert (Hcalls : calls w2 = calls w ++ new1 ++ new2).
    { rewrite Hcalls2, Hcalls1. now rewrite app_assoc. }
    assert (Hall : adds_many conv (map (staged conv) (q :: rest)) w w2).
    { eapply adds_many_step; eassumption. }
    destruct Hadded as [->|[-> Hsome]];
      [exists kept | exists (q :: kept)];
      exists (new1 ++ new2), w2.
    + rewrite app_nil_r in *. split; [reflexivity|].
      split; [now apply sublist_cons|]. split; [assumption|].
      split; [assumption|]. split; [|split; [|assumption]].
      * destruct Hnew1 as [->|(_ & [->| ->])]; cbn;
          [now apply sublist_cons | now apply sublist_skip ..].
      * destruct Hnew1 as [->|(Hfree & [->| ->])]; cbn; [assumption|..];
          constructor; auto.
    + cbn [map]. rewrite <- app_assoc. cbn [app].
      split; [reflexivity|].
      split; [now apply sublist_skip|]. split.
      { constructor; [|assumption].
        destruct Hsome as [x Hx]. exists x. now apply Hkeep2. }
      split; [assumption|]. split; [|split; [|assumption]].
      * destruct Hnew1 as [->|(_ & [->| ->])]; cbn;
          [now apply sublist_cons | now apply sublist_skip ..].
      * destruct Hnew1 as [->|(Hfree & [->| ->])]; cbn; [assumption|..];
          constructor; auto.
Qed.

Lemma is_file_keeps (w w' : world) (q : Path) :
  keeps_files w w' -> Fs.is_file (fs w) q = true -> Fs.is_file (fs w') q = true.
Proof.
  unfold Fs.is_file. intros Hkeep.
  destruct (fs w !! q) as [[|d]|] eqn:E; try discriminate.
  now rewrite (Hkeep _ _ E).
Qed.

Lemma is_Some_keeps (w w' : world) (a : Path) :
  keeps_files w w' -> is_Some (fs w !! a) -> is_Some (fs w' !! a).
Proof. intros Hkeep [x Hx]. exists x. now apply Hkeep. Qed.

(** A file of the traversal whose staged path exists already is staged. *)
Lemma prepare_loop_cached_in (conv q : Path) (paths : list Path) :
  forall ready w r w',
    prepare_loop conv paths ready w = (Ok r, w') ->
    q ∈ paths ->
    Fs.is_file (fs w) q = true -> is_image_file q = true ->
    is_Some (fs w !! staged conv q) ->
    staged conv q ∈ r.
Proof.
  induction paths as [|p rest IH]; intros ready w r w' Hrun Hin Hfile Himg Hsome.
  - inversion Hin.
  - cbn [prepare_loop] in Hrun. apply bind_ok in Hrun as (ready1 & w1 & Hone & Hrest).
    apply elem_of_cons in Hin as [<-|Hin].
    + rewrite prepare_one_cached in Hone by assumption.
      injection Hone as <- <-.
      destruct (prepare_loop_spec conv rest (ready ++ [staged conv q]) w)
        as (kept & new & w2 & Hloop & _).
      rewrite Hloop in Hrest. injection Hrest as <- <-.
      rewrite !elem_of_app. left. right. apply list_elem_of_here.
    + destruct (prepare_one_spec conv ready p w)
        as (added & new1 & w1' & Hone' & _ & _ & _ & Hadd1).
      rewrite Hone' in Hone. injection Hone as <- <-.
      apply adds_only_keeps in Hadd1.
      eapply IH; eauto using is_file_keeps, is_Some_keeps.
Qed.

Lemma prepare_loop_app (conv : Path) (l1 l2 : list Path) :
  forall ready w,
    prepare_loop conv (l1 ++ l2) ready w
    = bind (prepare_loop conv l1 ready) (prepare_loop conv l2) w.
Proof.
  induction l1 as [|p rest IH]; intros ready w; [reflexivity|].
  cbn [app prepare_loop]. unfold bind.
  destruct (prepare_one conv ready p w) as [[r1|e] w1]; [|reflexivity].
  rewrite IH. reflexivity.
Qed.

(** ** The traversal order *)

Lemma elem_of_listing (m : gmap Path node) (dir p : Path) :
  p ∈ sorted (Fs.rglob m dir) <-> is_Some (m !! p) /\ is_under dir p = true.
Proof.
  unfold sorted. rewrite merge_sort_Permutation. unfold Fs.rglob.
  rewrite list_elem_of_filter, list_elem_of_fmap. split.
  - intros (Hunder & [k x] & -> & Hin). apply elem_of_map_to_list in Hin.
    cbn. eauto.
  - intros ([x Hx] & Hunder). split; [assumption|].
    exists (p, x). split; [reflexivity|]. now apply elem_of_map_to_list.
Qed.

Lemma NoDup_listing (m : gmap Path node) (dir : Path) :
  NoDup (sorted (Fs.rglob m dir)).
Proof.
  unfold sorted. rewrite merge_sort_Permutation. unfold Fs.rglob.
  apply NoDup_filter, NoDup_fst_map_to_list.
Qed.

Lemma filter_src_le_1 (p : Path) (l : list event) :
  NoDup (map call_src l) ->
  (length (filter (fun e => call_src e = p) l) <= 1)%nat.
Proof.
  induction l as [|e rest IH]; cbn [map]; intros Hnd; [cbn; lia|].
  apply NoDup_cons in Hnd as [Hnotin Hnd].
  rewrite filter_cons. destruct (decide (call_src e = p)) as [Heq|Hne].
  - cbn [length]. enough (filter (fun e => call_src e = p) rest = []) as ->;
      [cbn; lia|].
    destruct (filter _ rest) as [|e' ?] eqn:Ef; [reflexivity|].
    exfalso. apply Hnotin.
    assert (He' : e' ∈ filter (fun e => call_src e = p) rest)
      by (rewrite Ef; apply list_elem_of_here).
    apply list_elem_of_filter in He' as [Hsrc He'].
    rewrite Heq, <- Hsrc. apply list_elem_of_fmap. eauto.
  - now apply IH.
Qed.

Lemma prepare_images_eq (input_dir conv : Path) (w : world) :
  prepare_images input_dir conv w
  = prepare_loop conv (sorted (Fs.rglob (fs w) input_dir)) [] w.
Proof. reflexivity. Qed.

(** C8: normalising twice.  When the first normalisation staged the
    converted file of the HEIC file [p], the second one stages the same
    path again without calling the codec for it; over both runs the codec
    is called for [p] at most once. *)
Theorem C8_second_normalization_reuses_converted_file
    (input_dir conv p : Path) (d : bytes) (w w1 w2 : world)
    (ready1 ready2 : list Path) :
  prepare_images input_dir conv w = (Ok ready1, w1) ->
  prepare_images input_dir conv w1 = (Ok ready2, w2) ->
  fs w !! p = Some (File d) -> is_under input_dir p = true ->
  is_heic p = true ->
  out_png conv p ∈ ready1 ->
  exists first second,
    calls w1 = calls w ++ first
    /\ calls w2 = calls w1 ++ second
    /\ (length (filter (fun e => call_src e = p) (first ++ second)) <= 1)%nat
    /\ Forall (fun e => call_dst e <> out_png conv p) second
    /\ out_png conv p ∈ ready2.
Proof.
  intros Hrun1 Hrun2 Hp Hunder Hheic Hin1.
  rewrite prepare_images_eq in Hrun1, Hrun2.
  destruct (prepare_loop_spec conv (sorted (Fs.rglob (fs w) input_dir)) [] w)
    as (kept1 & first & w1' & Hloop1 & _ & Hex1 & Hcalls1 & Hsrc1 & _ & Hadd1).
  rewrite Hloop1 in Hrun1. injection Hrun1 as <- <-.
  destruct (prepare_loop_spec conv (sorted (Fs.rglob (fs w1') input_dir)) [] w1')
    as (kept2 & second & w2' & Hloop2 & _ & _ & Hcalls2 & _ & Hdst2 & _).
  pose proof Hrun2 as Hrun2'.
  rewrite Hloop2 in Hrun2. injection Hrun2 as <- <-.
  cbn [app] in *.
  assert (Hcached : is_Some (fs w1' !! out_png conv p)).
  { rewrite Forall_forall in Hex1. now apply Hex1. }
  assert (Hstaged : staged conv p = out_png conv p)
    by (unfold staged; now rewrite Hheic).
  assert (Hsecond : Forall (fun e => call_dst e <> out_png conv p) second).
  { eapply Forall_impl; [exact Hdst2|]. cbn. intros e [Hnone _] Heq.
    rewrite Heq in Hnone. rewrite Hnone in Hcached. now destruct Hcached. }
  exists first, second. split; [assumption|]. split; [assumption|].
  split; [|split; [assumption|]].
  - rewrite filter_app, length_app.
    enough (filter (fun e => call_src e = p) second = []) as ->.
    { cbn. rewrite Nat.add_0_r. apply filter_src_le_1.
      eapply sublist_NoDup; [apply NoDup_listing | exact Hsrc1]. }
    destruct (filter _ second) as [|e ?] eqn:Ef; [reflexivity|]. exfalso.
    assert (He : e ∈ filter (fun e => call_src e = p) second)
      by (rewrite Ef; apply list_elem_of_here).
    apply list_elem_of_filter in He as [Hsrc He].
    rewrite Forall_forall in Hsecond, Hdst2.
    apply (Hsecond e He). destruct (Hdst2 e He) as [_ ->]. now rewrite Hsrc.
  - rewrite <- Hstaged.
    apply adds_many_keeps in Hadd1.
    eapply prepare_loop_cached_in; [exact Hrun2'|..].
    + apply elem_of_listing. split; [|assumption].
      exists (File d). now apply Hadd1.
    + unfold Fs.is_file. now rewrite (Hadd1 _ _ Hp).
    + now apply is_heic_image.
    + now rewrite Hstaged.
Qed.

Lemma staged_below (conv q : Path) : exists nm, staged conv q = joinpath conv nm.
Proof. unfold staged, out_png, out_copy. destruct (is_heic q); eauto. Qed.

Lemma staged_not_ancestor (conv q : Path) :
  staged conv q ∉ Fs.ancestors_and_self conv.
Proof.
  destruct (staged_below conv q) as [nm ->]. apply joinpath_not_ancestor.
Qed.

(** A traversal leaves free a place below [conv] that none of its files
    is staged at, and puts no file where [conv] must be. *)
Lemma adds_many_free (conv : Path) (nm : str) (paths : list Path) (w w' : world) :
  adds_many conv (map (staged conv) paths) w w' ->
  Forall (fun q => staged conv q <> joinpath conv nm) paths ->
  fs w !! joinpath conv nm = None -> fs w' !! joinpath conv nm = None.
Proof.
  intros Hadd Hnot Hfree.
  destruct (Hadd (joinpath conv nm)) as [->|(_ & [Hin|(Hin & _)])];
    [assumption|..].
  - exfalso. apply list_elem_of_fmap in Hin as (q & Heq & Hq).
    rewrite Forall_forall in Hnot. exact (Hnot q Hq (eq_sym Heq)).
  - exfalso. exact (joinpath_not_ancestor _ _ Hin).
Qed.

Lemma adds_many_clean (conv : Path) (paths : list Path) (w w' : world) :
  adds_many conv (map (staged conv) paths) w w' ->
  (forall a data, a ∈ Fs.ancestors_and_self conv -> fs w !! a <> Some (File data)) ->
  forall a data, a ∈ Fs.ancestors_and_self conv -> fs w' !! a <> Some (File data).
Proof.
  intros Hadd Hclean a data Ha.
  destruct (Hadd a) as [->|(_ & [Hin|(_ & ->)])]; [now apply Hclean| |discriminate].
  exfalso. apply list_elem_of_fmap in Hin as (q & -> & _).
  exact (staged_not_ancestor _ _ Ha).
Qed.

Lemma Forall_src_not (p : Path) (l : list Path) (new : list event) :
  sublist (map call_src new) l -> p ∉ l ->
  Forall (fun e => call_src e <> p) new.
Proof.
  intros Hsub Hnotin. apply Forall_forall. intros e He Heq.
  apply Hnotin. eapply elem_of_sublist; [|exact Hsub].
  rewrite <- Heq. apply list_elem_of_fmap. eauto.
Qed.

(** C10, as amended: two HEIC files of equal stem are staged at the same
    path.  When nothing is staged there before the first of them is
    visited and that first file converts, only the first is converted,
    the path is returned once for each of them, and the converted file
    holds the first file's picture. *)
Theorem C10_equal_stems_first_file_wins
    (input_dir conv p1 p2 : Path) (d1 png : bytes) (l1 l2 l3 : list Path)
    (w w' : world) (ready : list Path) :
  sorted (Fs.rglob (fs w) input_dir) = l1 ++ p1 :: l2 ++ p2 :: l3 ->
  is_heic p1 = true -> is_heic p2 = true -> stem p1 = stem p2 ->
  fs w !! p1 = Some (File d1) -> heif_to_png d1 = Some png ->
  Fs.is_file (fs w) p2 = true ->
  fs w !! out_png conv p1 = None ->
  Forall (fun q => staged conv q <> out_png conv p1) l1 ->
  (forall a data, a ∈ Fs.ancestors_and_self conv -> fs w !! a <> Some (File data)) ->
  prepare_images input_dir conv w = (Ok ready, w') ->
  out_png conv p2 = out_png conv p1
  /\ (exists r1 r2 r3,
        ready = r1 ++ out_png conv p1 :: r2 ++ out_png conv p1 :: r3)
  /\ (exists new,
        calls w' = calls w ++ new
        /\ ConvertCall p1 (out_png conv p1) ∈ new
        /\ Forall (fun e => call_src e <> p2) new)
  /\ fs w' !! out_png conv p1 = Some (File png).
Proof.
  intros Hlist Hheic1 Hheic2 Hstem Hp1 Hpng Hfile2 Hfree Hl1 Hclean Hrun.
  assert (Hout : out_png conv p2 = out_png conv p1)
    by (unfold out_png; now rewrite Hstem).
  split; [exact Hout|].
  pose proof (NoDup_listing (fs w) input_dir) as Hnd. rewrite Hlist in Hnd.
  apply NoDup_app in Hnd as (_ & Hl1p & Hnd).
  apply NoDup_cons in Hnd as (Hp1rest & Hnd).
  apply NoDup_app in Hnd as (_ & Hl2p & Hnd).
  apply NoDup_cons in Hnd as (Hp2l3 & _).
  rewrite prepare_images_eq, Hlist in Hrun.
  (* the files visited before [p1] *)
  rewrite prepare_loop_app in Hrun.
  destruct (prepare_loop_spec conv l1 [] w)
    as (k1 & n1 & wa & Ea & _ & _ & Hca & Hsa & _ & Hadda).
  rewrite (bind_eq _ _ _ _ _ Ea) in Hrun. cbn [app] in Hrun.
  pose proof (adds_many_keeps _ _ _ _ Hadda) as Hkeepa.
  (* [p1] is converted *)
  cbn [prepare_loop] in Hrun.
  destruct (prepare_one_converts conv (map (staged conv) k1) p1 wa d1 png)
    as (wb & Eb & Hcb & Hnewb & Haddb); auto.
  { eapply adds_many_free; eauto. }
  { eapply adds_many_clean; eauto. }
  rewrite (bind_eq _ _ _ _ _ Eb) in Hrun.
  pose proof (adds_only_keeps _ _ _ _ Haddb) as Hkeepb.
  (* the files between [p1] and [p2] *)
  rewrite prepare_loop_app in Hrun.
  destruct (prepare_loop_spec conv l2 (map (staged conv) k1 ++ [out_png conv p1]) wb)
    as (k2 & n2 & wc & Ec & _ & _ & Hcc & Hsc & _ & Haddc).
  rewrite (bind_eq _ _ _ _ _ Ec) in Hrun.
  pose proof (adds_many_keeps _ _ _ _ Haddc) as Hkeepc.
  (* [p2] finds the converted file *)
  cbn [prepare_loop] in Hrun.
  assert (Hstaged2 : staged conv p2 = out_png conv p1)
    by (unfold staged; now rewrite Hheic2).
  rewrite (bind_eq _ _ _ _ _
             (prepare_one_cached conv _ p2 wc
                (is_file_keeps _ _ _ Hkeepc
                   (is_file_keeps _ _ _ Hkeepb
                      (is_file_keeps _ _ _ Hkeepa Hfile2)))
                (is_heic_image _ Hheic2)
                ltac:(rewrite Hstaged2; eexists; apply Hkeepc, Hnewb))) in Hrun.
  rewrite Hstaged2 in Hrun.
  (* the files after [p2] *)
  destruct (prepare_loop_spec conv l3
              (((map (staged conv) k1 ++ [out_png conv p1])
                ++ map (staged conv) k2) ++ [out_png conv p1]) wc)
    as (k3 & n3 & wd & Ed & _ & _ & Hcd & Hsd & _ & Haddd).
  rewrite Ed in Hrun. injection Hrun as <- <-.
  pose proof (adds_many_keeps _ _ _ _ Haddd) as Hkeepd.
  split; [|split].
  - exists (map (staged conv) k1), (map (staged conv) k2), (map (staged conv) k3).
    rewrite <- !app_assoc. reflexivity.
  - exists (n1 ++ [ConvertCall p1 (out_png conv p1)] ++ n2 ++ n3).
    split; [|split].
    + rewrite Hcd, Hcc, Hcb, Hca. now rewrite <- !app_assoc.
    + rewrite !elem_of_app. right. left. apply list_elem_of_here.
    + assert (Hp2l1 : p2 ∉ l1).
      { intros Hin. apply (Hl1p p2 Hin).
        apply list_elem_of_further, elem_of_app. right. apply list_elem_of_here. }
      assert (Hp2l2 : p2 ∉ l2).
      { intros Hin. apply (Hl2p p2 Hin). apply list_elem_of_here. }
      assert (Hne : p1 <> p2).
      { intros ->. apply Hp1rest, elem_of_app. right. apply list_elem_of_here. }
      rewrite !Forall_app. split; [eapply Forall_src_not; eauto|].
      split; [constructor; [exact Hne | constructor]|].
      split; eapply Forall_src_not; eauto.
  - now apply Hkeepd, Hkeepc.
Qed.

(** The Image Normalizer never raises: a file that cannot be converted
    or copied is skipped.  What it returns are the staged paths of some
    of the files, in traversal order. *)
Lemma prepare_images_total (input_dir conv : Path) (w : world) :
  exists kept w',
    prepare_images input_dir conv w = (Ok (map (staged conv) kept), w')
    /\ sublist kept (sorted (Fs.rglob (fs w) input_dir))
    /\ keeps_files w w'.
Proof.
  rewrite prepare_images_eq.
  destruct (prepare_loop_spec conv (sorted (Fs.rglob (fs w) input_dir)) [] w)
    as (kept & new & w' & Hloop & Hsub & _ & _ & _ & _ & Hadd).
  exists kept, w'. eauto using adds_many_keeps.
Qed.

End WithImaging.

Import Demo.

Lemma C8_witness :
  let w := same_stem $"HEIC:AAA" $"HEIC:BBB" in
  let run1 := prepare_images demo_in demo_conv w in
  let run2 := prepare_images demo_in demo_conv (snd run1) in
  exists first second,
    calls (snd run1) = calls w ++ first
    /\ calls (snd run2) = calls (snd run1) ++ second
    /\ (length (filter (fun e => call_src e = demo_first) (first ++ second)) <= 1)%nat
    /\ Forall (fun e => call_dst e <> out_png demo_conv demo_first) second
    /\ out_png demo_conv demo_first ∈ [demo_out; demo_out].
Proof.
  cbv zeta.
  apply (C8_second_normalization_reuses_converted_file demo_in demo_conv
           demo_first $"HEIC:AAA" (same_stem $"HEIC:AAA" $"HEIC:BBB")
           _ _ [demo_out; demo_out] [demo_out; demo_out]).
  - vm_compute. reflexivity.
  - vm_compute. reflexivity.
  - vm_compute. reflexivity.
  - reflexivity.
  - vm_compute. reflexivity.
  - vm_compute. apply list_elem_of_here.
Defined.

Lemma C10_witness :
  out_png demo_conv demo_second = out_png demo_conv demo_first
  /\ (exists r1 r2 r3,
        [demo_out; demo_out]
        = r1 ++ out_png demo_conv demo_first
             :: r2 ++ out_png demo_conv demo_first :: r3)
  /\ (exists new,
        calls (snd (prepare_images demo_in demo_conv
                      (same_stem $"HEIC:AAA" $"HEIC:BBB")))
        = calls (same_stem $"HEIC:AAA" $"HEIC:BBB") ++ new
        /\ ConvertCall demo_first (out_png demo_conv demo_first) ∈ new
        /\ Forall (fun e => call_src e <> demo_second) new)
  /\ fs (snd (prepare_images demo_in demo_conv
                (same_stem $"HEIC:AAA" $"HEIC:BBB")))
       !! out_png demo_conv demo_first
     = Some (File $"IMG:AAA").
Proof.
  apply (C10_equal_stems_first_file_wins demo_in demo_conv demo_first
           demo_second $"HEIC:AAA" $"IMG:AAA"
           [[ $"in"; $"a" ]] [[ $"in"; $"b" ]] []
           (same_stem $"HEIC:AAA" $"HEIC:BBB") _ [demo_out; demo_out]).
  - vm_compute. reflexivity.
  - vm_compute. reflexivity.
  - vm_compute. reflexivity.
  - vm_compute. reflexivity.
  - vm_compute. reflexivity.
  - vm_compute. reflexivity.
  - vm_compute. reflexivity.
  - vm_compute. reflexivity.
  - constructor; [|constructor]. vm_compute. discriminate.
  - intros a data Ha.
    apply elem_of_cons in Ha as [->|Ha]; [vm_compute; discriminate|].
    apply elem_of_cons in Ha as [->|Ha]; [vm_compute; discriminate|].
    inversion Ha.
  - vm_compute. reflexivity.
Defined.

(** C10 fails as stated: when the first-visited of two HEIC files of equal
    stem cannot be decoded, it is skipped with a message, the second file
    is the one converted, and the path is returned once. *)
Lemma C10_first_fails_second_is_converted :
  let run := prepare_images demo_in demo_conv (same_stem $"AAA" $"HEIC:BBB") in
  sorted (Fs.rglob (fs (same_stem $"AAA" $"HEIC:BBB")) demo_in)
    = [ [ $"in"; $"a" ]; demo_first; [ $"in"; $"b" ]; demo_second ]
  /\ fst run = Ok [demo_out]
  /\ calls (snd run)
     = [ ConvertCall demo_first demo_out; ConvertCall demo_second demo_out ]
  /\ fs (snd run) !! demo_out = Some (File $"IMG:BBB")
  /\ stdout (snd run) = [ $"Failed to convert in/a/x.heic: cannot decode in/a/x.heic" ].
Proof. cbv zeta. repeat split; vm_compute; reflexivity. Qed.

End HeicFacts.

(** * Facts about the pipeline *)
Module MainFacts.
Import Main Dict HeicUtils.

Lemma get_set_eq (d : dict) (k v : str) : get (set d k v) k = Some v.
Proof.
  induction d as [|[k' v'] rest IH]; cbn.
  - now rewrite bool_decide_eq_true_2.
  - destruct (bool_decide (k' = k)) eqn:E; cbn; rewrite E; auto.
Qed.

Lemma get_set_ne (d : dict) (k k' v : str) :
  k <> k' -> get (set d k v) k' = get d k'.
Proof.
  intros Hne. induction d as [|[k0 v0] rest IH]; cbn.
  - now rewrite bool_decide_eq_false_2.
  - destruct (bool_decide (k0 = k)) eqn:E; cbn.
    + apply bool_decide_eq_true in E. subst k0.
      now rewrite !bool_decide_eq_false_2.
    + destruct (bool_decide (k0 = k')); auto.
Qed.

Section WithLibs.
Context `{OcrLib} `{DateLib} `{JsonLib} `{OsLib}.

(** The record of an image names the image it was made from. *)
Lemma process_image_source (engine : OCREngine) (raw : Path)
    (pre : option Path) (mode : str) (img : Path) (w w' : world) (r : dict) :
  process_image engine raw pre mode img w = (Ok r, w') ->
  get r $"source_file" = Some (path_str img).
Proof.
  unfold process_image. intros Hrun.
  apply bind_ok in Hrun as ([[text conf] rot] & w1 & _ & Hrun).
  apply bind_ok in Hrun as ([] & w2 & _ & Hrun).
  destruct (Extract.parse_fields (Some text)) as [e|fields]; [discriminate|].
  injection Hrun as <- _.
  rewrite !get_set_ne by discriminate. apply get_set_eq.
Qed.

(** The loop appends one record per image, in the order of the images. *)
Lemma process_images_sources (engine : OCREngine) (raw : Path)
    (pre : option Path) (mode : str) (ready : list Path) :
  forall acc w rs w',
    process_images engine raw pre mode ready acc w = (Ok rs, w') ->
    exists new,
      rs = acc ++ new
      /\ map (fun r => get r $"source_file") new
         = map (fun p => Some (path_str p)) ready.
Proof.
  induction ready as [|img rest IH]; intros acc w rs w' Hrun.
  - cbn in Hrun. injection Hrun as <- _. exists []. now rewrite app_nil_r.
  - cbn [process_images] in Hrun.
    apply bind_ok in Hrun as (r & w1 & Hone & Hrun).
    apply IH in Hrun as (new & -> & Hmap).
    exists (r :: new). rewrite <- app_assoc. split; [reflexivity|].
    cbn [map]. rewrite Hmap. f_equal.
    eapply process_image_source; eassumption.
Qed.

Lemma mkdir_parents_keeps (p : Path) (w w' : world) (r : result unit) :
  Fs.mkdir_parents p w = (r, w') -> keeps_files w w'.
Proof. apply mkdir_each_keeps. Qed.

(** Every namespace the parser returns holds a valid engine name, and the
    parser exits with status 0 or 2 only. *)
Lemma consume_engine (toks : list (option Argparse.token)) :
  forall ns seen extras pending,
    Argparse.engine ns ∈ map Ocr.value Ocr.all_engine_types ->
    match Argparse.consume toks ns seen extras pending with
    | Argparse.Parsed ns' =>
        Argparse.engine ns' ∈ map Ocr.value Ocr.all_engine_types
    | Argparse.Exit status => status = 0 \/ status = 2
    end.
Proof.
  assert (Hstore : forall o v ns,
             Argparse.value_allowed o v = true ->
             Argparse.engine ns ∈ map Ocr.value Ocr.all_engine_types ->
             Argparse.engine (Argparse.store o v ns)
               ∈ map Ocr.value Ocr.all_engine_types).
  { intros o v ns Hv Hns. destruct o; cbn in *; auto.
    now apply bool_decide_eq_true in Hv. }
  induction toks as [|[tok|] rest IH]; intros ns seen extras pending Hns;
    cbn [Argparse.consume].
  - destruct pending; [auto|]. destruct (negb seen); [auto|].
    destruct extras; auto.
  - destruct tok as [v|o explicit|v|].
    + destruct pending as [o|]; [|now apply IH].
      destruct (Argparse.value_allowed o v) eqn:Ev; [|auto].
      apply IH. now apply Hstore.
    + destruct pending as [?|]; [auto|].
      destruct (Argparse.takes_value o) eqn:Et.
      * destruct explicit as [v|]; [|now apply IH].
        destruct (Argparse.value_allowed o v) eqn:Ev; [|auto].
        apply IH. now apply Hstore.
      * destruct explicit as [e|], o;
          try discriminate; auto;
          try (destruct (Argparse.flag_chain e rest); auto);
          apply IH; assumption.
    + destruct pending; [auto | now apply IH].
    + auto.
  - now apply IH.
Qed.

Lemma parse_engine (argv : list str) :
  match Argparse.parse argv with
  | Argparse.Parsed ns => Ocr.of_value (Argparse.engine ns) <> None
  | Argparse.Exit status => status = 0 \/ status = 2
  end.
Proof.
  unfold Argparse.parse.
  destruct (existsb Argparse.is_ambiguous (Argparse.classify_all argv)); [auto|].
  pose proof (consume_engine (Argparse.classify_all argv) Argparse.defaults
                false false None) as Hc.
  destruct (Argparse.consume _ _ _ _ _) as [ns|status]; [|apply Hc].
  - assert (Hin : Argparse.engine ns ∈ map Ocr.value Ocr.all_engine_types).
    { apply Hc. cbn. apply list_elem_of_here. }
    cbn in Hin. apply elem_of_cons in Hin as [->|Hin]; [discriminate|].
    apply elem_of_cons in Hin as [->|Hin]; [discriminate|]. inversion Hin.
  - cbn. apply list_elem_of_here.
Qed.

Lemma classify_arg (s a : str) :
  Argparse.classify s = Argparse.TArg a -> a = s.
Proof.
  unfold Argparse.classify. destruct s as [|c rest]; [now intros [= <-]|].
  destruct (negb (Ascii.eqb c "-")); [now intros [= <-]|].
  destruct (Argparse.lookup_option (c :: rest)); [discriminate|].
  destruct (bool_decide (length (c :: rest) = 1%nat)); [now intros [= <-]|].
  destruct (match Argparse.split_eq (c :: rest) with
            | Some (a0, b) =>
                match Argparse.lookup_option a0 with
                | Some o => Some (o, b)
                | None => None
                end
            | None => None
            end) as [[o b]|]; [discriminate|].
  destruct (Argparse.option_tuples (c :: rest)) as [|[o e] [|? ?]];
    try discriminate.
  destruct (Argparse.looks_negative_number (c :: rest)); [now intros [= <-]|].
  destruct (Text.mem_char " " (c :: rest)); [now intros [= <-] | discriminate].
Qed.

(** An engine name outside the two valid ones is refused by the parser. *)
Lemma parse_invalid_engine (inp v : str) :
  v ∉ map Ocr.value Ocr.all_engine_types ->
  Argparse.parse [ $"-i"; inp; $"--engine"; v ] = Argparse.Exit 2.
Proof.
  intros Hv.
  assert (Hallowed : Argparse.value_allowed Argparse.OEngine v = false)
    by (cbn; now apply bool_decide_eq_false_2).
  unfold Argparse.parse. cbn [Argparse.classify_all].
  rewrite (bool_decide_eq_false_2 ($"-i" = $"--")) by discriminate.
  change (Argparse.classify $"-i")
    with (Argparse.TOpt Argparse.OInput None).
  destruct (bool_decide (inp = $"--")) eqn:Einp.
  { cbn [map existsb Argparse.is_ambiguous orb Argparse.consume
           Argparse.takes_value Argparse.value_allowed Argparse.choices
           negb Argparse.is_input]. reflexivity. }
  rewrite (bool_decide_eq_false_2 ($"--engine" = $"--")) by discriminate.
  change (Argparse.classify $"--engine")
    with (Argparse.TOpt Argparse.OEngine None).
  destruct (bool_decide (v = $"--")) eqn:Ev;
    destruct (Argparse.classify inp) as [a|o e|u|] eqn:Ecl;
    try destruct (Argparse.classify v) as [a'|o' e'|u'|] eqn:Ecv;
    cbn [map existsb Argparse.is_ambiguous orb Argparse.consume
           Argparse.takes_value Argparse.value_allowed Argparse.choices
           negb Argparse.is_input];
    try reflexivity;
    fold (Argparse.value_allowed Argparse.OEngine a');
    try (apply classify_arg in Ecv; subst a');
    try rewrite Hallowed; try reflexivity;
    try (rewrite (bool_decide_eq_false_2 _ Hv); reflexivity).
Qed.

(** C9, as amended: the program exits with status 1 when the arguments
    parse and the input path is missing or is not a directory.  An engine
    name that is not one of the two valid ones never reaches the check in
    [main]: every namespace the parser returns holds a valid engine name,
    the parser itself exits with status 0 or 2 only, and with status 2 on
    [-i <input> --engine <invalid>]. *)
Theorem C9_exit_status_of_rejected_arguments (argv : list str) (w : world) :
  (forall ns,
      Argparse.parse argv = Argparse.Parsed ns ->
      Fs.is_dir (fs w) (resolve (Argparse.input ns)) = false ->
      exists w', main argv w = (Raise (SystemExit 1), w'))
  /\ (forall ns,
        Argparse.parse argv = Argparse.Parsed ns ->
        Ocr.of_value (Argparse.engine ns) <> None)
  /\ (forall status,
        Argparse.parse argv = Argparse.Exit status ->
        main argv w = (Raise (SystemExit status), w)
        /\ (status = 0 \/ status = 2))
  /\ (forall inp v,
        argv = [ $"-i"; inp; $"--engine"; v ] ->
        v ∉ map Ocr.value Ocr.all_engine_types ->
        main argv w = (Raise (SystemExit 2), w)).
Proof.
  pose proof (parse_engine argv) as Hparse.
  split; [|split; [|split]].
  - intros ns Hns Hdir. unfold main, parse_args. rewrite Hns.
    unfold bind at 1, ret at 1. unfold bind at 1, get_fs at 1.
    rewrite Hdir. rewrite orb_true_r.
    eexists. unfold bind, print, raise. reflexivity.
  - intros ns Hns. now rewrite Hns in Hparse.
  - intros status Hst. rewrite Hst in Hparse. split; [|assumption].
    unfold main, parse_args. now rewrite Hst.
  - intros inp v -> Hv. unfold main, parse_args.
    now rewrite parse_invalid_engine.
Qed.

End WithLibs.

Import Demo.

Lemma C9_witness :
  exists w', main [ $"-i"; $"nowhere" ] one_photo = (Raise (SystemExit 1), w').
Proof.
  apply (proj1 (C9_exit_status_of_rejected_arguments [ $"-i"; $"nowhere" ]
                  one_photo)
           (Argparse.store Argparse.OInput $"nowhere" Argparse.defaults)).
  - vm_compute. reflexivity.
  - vm_compute. reflexivity.
Defined.

(** C9 fails as stated: with an existing input directory and the engine
    name [foo], the program exits with status 2, not 1. *)
Lemma C9_invalid_engine_exits_with_status_2 :
  Fs.is_dir (fs one_photo) (resolve $"in") = true
  /\ main [ $"-i"; $"in"; $"--engine"; $"foo" ] one_photo
     = (Raise (SystemExit 2), one_photo)
  /\ exit_status (fst (main [ $"-i"; $"in"; $"--engine"; $"foo" ] one_photo)) = 2.
Proof. repeat split; vm_compute; reflexivity. Qed.

(** C3 (code defect): a staged image that cannot be decoded is not
    skipped.  [in/a.jpg] is not an image, [in/b.jpg] is; both are staged,
    then [read_image_bgr] raises on the first and nothing catches it: the
    run ends with the exception, nothing is printed, [b.jpg] is never
    read and no CSV file is written. *)
Theorem C3_unreadable_image_aborts_the_run :
  let run :=
    run_pipeline demo_in [ $"out" ] EASYOCR [] false true false $"auto"
      corrupt_then_good in
  fst run = Raise (RuntimeError $"Failed to read image: out/converted/a.jpg")
  /\ exit_status (fst run) = 1
  /\ stdout (snd run) = []
  /\ fs (snd run) !! [ $"out"; $"converted"; $"b.jpg" ]
     = Some (File $"IMG:RHEEM Model No: ABC-123")
  /\ fs (snd run) !! [ $"out"; $"ocr_raw"; $"b.txt" ] = None
  /\ fs (snd run) !! [ $"out"; $"extracted.csv" ] = None
  /\ exit_status (fst (main [ $"-i"; $"in"; $"--write-csv" ] corrupt_then_good)) = 1.
Proof. cbv zeta. repeat split; vm_compute; reflexivity. Qed.

End MainFacts.

(** * Facts about text *)
Module TextFacts.
Import Text.

Lemma lstrip_by_split (p : ascii -> bool) (s : str) :
  exists pre, s = pre ++ lstrip_by p s /\ forallb p pre = true.
Proof.
  induction s as [|c rest (pre & Hs & Hp)]; [exists []; auto|].
  cbn [lstrip_by]. destruct (p c) eqn:Ec.
  - exists (c :: pre). split; [cbn [app]; f_equal; exact Hs|].
    cbn. now rewrite Ec.
  - exists []. auto.
Qed.

Lemma lstrip_by_head (p : ascii -> bool) (s : str) (c : ascii) :
  head (lstrip_by p s) = Some c -> p c = false.
Proof.
  induction s as [|x rest IH]; cbn [lstrip_by]; [discriminate|].
  destruct (p x) eqn:Ex; [exact IH|]. cbn. now intros [= <-].
Qed.

Lemma rstrip_by_split (p : ascii -> bool) (s : str) :
  exists suf, s = rstrip_by p s ++ suf /\ forallb p suf = true.
Proof.
  induction s as [|c rest (suf & Hs & Hp)]; [exists []; auto|].
  cbn [rstrip_by]. destruct (rstrip_by p rest) as [|y r] eqn:Er.
  - destruct (p c) eqn:Ec.
    + exists (c :: suf). cbn [app] in *. split; [f_equal; exact Hs|].
      cbn. now rewrite Ec.
    + exists suf. cbn [app] in *. split; [f_equal; exact Hs | assumption].
  - exists suf. split; [|assumption]. cbn [app]. f_equal. exact Hs.
Qed.

Lemma rstrip_by_last (p : ascii -> bool) (s : str) (c : ascii) :
  last (rstrip_by p s) = Some c -> p c = false.
Proof.
  induction s as [|x rest IH]; cbn [rstrip_by]; [discriminate|].
  destruct (rstrip_by p rest) as [|y r] eqn:Er.
  - destruct (p x) eqn:Ex; [discriminate|]. cbn. now intros [= <-].
  - rewrite last_cons. destruct (last (y :: r)) eqn:El; [|now rewrite last_cons in El; destruct (last r)].
    intros [= <-]. now apply IH.
Qed.

Lemma rstrip_by_head (p : ascii -> bool) (s : str) :
  rstrip_by p s = [] \/ head (rstrip_by p s) = head s.
Proof.
  destruct s as [|x rest]; [now left|]. cbn [rstrip_by].
  destruct (rstrip_by p rest); [destruct (p x)|]; auto.
Qed.

Lemma strip_by_head (p : ascii -> bool) (s : str) (c : ascii) :
  head (strip_by p s) = Some c -> p c = false.
Proof.
  unfold strip_by. intros Hc.
  destruct (rstrip_by_head p (lstrip_by p s)) as [Hnil|Hhead].
  - rewrite Hnil in Hc. discriminate.
  - rewrite Hhead in Hc. eapply lstrip_by_head; eassumption.
Qed.

Lemma strip_by_last (p : ascii -> bool) (s : str) (c : ascii) :
  last (strip_by p s) = Some c -> p c = false.
Proof. apply rstrip_by_last. Qed.

(** Stripping keeps a contiguous part of the text. *)
Lemma strip_by_split (p : ascii -> bool) (s : str) :
  exists pre suf, s = pre ++ strip_by p s ++ suf.
Proof.
  destruct (lstrip_by_split p s) as (pre & Hs & _).
  destruct (rstrip_by_split p (lstrip_by p s)) as (suf & Hs' & _).
  exists pre, suf. unfold strip_by. congruence.
Qed.

Lemma strip_by_Forall (q : ascii -> Prop) (p : ascii -> bool) (s : str) :
  Forall q s -> Forall q (strip_by p s).
Proof.
  destruct (strip_by_split p s) as (pre & suf & Hs). intros Hq.
  rewrite Hs in Hq. apply Forall_app in Hq as [_ Hq].
  now apply Forall_app in Hq as [Hq _].
Qed.

Lemma strip_by_length (p : ascii -> bool) (s : str) :
  (length (strip_by p s) <= length s)%nat.
Proof.
  destruct (strip_by_split p s) as (pre & suf & Hs).
  rewrite Hs at 2. rewrite !length_app. lia.
Qed.

Lemma lstrip_by_id (p : ascii -> bool) (s : str) :
  (forall c, head s = Some c -> p c = false) -> lstrip_by p s = s.
Proof.
  destruct s as [|x rest]; [reflexivity|]. intros Hh. cbn.
  now rewrite (Hh x eq_refl).
Qed.

Lemma rstrip_by_id (p : ascii -> bool) (s : str) :
  (forall c, last s = Some c -> p c = false) -> rstrip_by p s = s.
Proof.
  induction s as [|x rest IH]; [reflexivity|]. intros Hl. cbn [rstrip_by].
  destruct rest as [|y r].
  - cbn. now rewrite (Hl x eq_refl).
  - rewrite IH; [reflexivity|]. intros c Hc. apply Hl.
    now rewrite last_cons, Hc.
Qed.

Lemma strip_by_id (p : ascii -> bool) (s : str) :
  (forall c, head s = Some c -> p c = false) ->
  (forall c, last s = Some c -> p c = false) ->
  strip_by p s = s.
Proof.
  intros Hh Hl. unfold strip_by. rewrite lstrip_by_id by assumption.
  now apply rstrip_by_id.
Qed.

End TextFacts.

(** * Facts about the pattern matcher *)
Module ReFacts.
Import Re.

Section Extends.
Context {R : Type}.

Lemma rep_loop_extends
    (step : option ascii -> str -> captures -> cont R -> option R)
    (ids : list nat) (lo : nat) (hi : option nat) (k : cont R) :
  (forall prev s caps k' x,
      step prev s caps k' = Some x -> reaches ids [] caps k' x) ->
  forall fuel n prev s caps x,
    rep_loop step lo hi k fuel n prev s caps = Some x ->
    reaches ids [] caps k x.
Proof.
  intros Hstep. induction fuel as [|fuel IH]; intros n prev s caps x Hrun;
    [discriminate|].
  cbn [rep_loop] in Hrun.
  destruct (if below hi n then _ else None) as [y|] eqn:Emore.
  - injection Hrun as ->.
    destruct (below hi n); [|discriminate].
    apply Hstep in Emore as (prev1 & s1 & extra1 & Hk & Hids & _).
    destruct (length s1 <? length s)%nat; [|discriminate].
    apply IH in Hk as (prev2 & s2 & extra2 & Hk & Hids2 & _).
    exists prev2, s2, (extra2 ++ extra1). rewrite <- app_assoc.
    split; [assumption|]. rewrite map_app. split; set_solver.
  - destruct (lo <=? n)%nat; [|discriminate].
    exists prev, s, []. split; [assumption|]. split; set_solver.
Qed.

Lemma go_extends (r : regex) :
  forall prev s caps (k : cont R) x,
    go r prev s caps k = Some x ->
    reaches (group_ids r) (mandatory r) caps k x.
Proof.
  induction r as [|p|a IHa b IHb|a IHa b IHb|a IHa lo hi|i a IHa|];
    intros prev s caps k x Hrun; cbn [go group_ids mandatory] in *.
  - exists prev, s, []. split; [assumption|]. split; set_solver.
  - destruct s as [|c s']; [discriminate|]. destruct (p c); [|discriminate].
    exists (Some c), s', []. split; [assumption|]. split; set_solver.
  - apply IHa in Hrun as (prev1 & s1 & extra1 & Hk & Hids1 & Hmust1).
    apply IHb in Hk as (prev2 & s2 & extra2 & Hk & Hids2 & Hmust2).
    exists prev2, s2, (extra2 ++ extra1). rewrite <- app_assoc.
    split; [assumption|]. rewrite map_app. split; set_solver.
  - destruct (go a prev s caps k) as [y|] eqn:Ea.
    + injection Hrun as ->.
      apply IHa in Ea as (prev1 & s1 & extra1 & Hk & Hids1 & _).
      exists prev1, s1, extra1. split; [assumption|]. split; set_solver.
    + apply IHb in Hrun as (prev1 & s1 & extra1 & Hk & Hids1 & _).
      exists prev1, s1, extra1. split; [assumption|]. split; set_solver.
  - eapply rep_loop_extends in Hrun; [exact Hrun|].
    intros prev0 s0 caps0 k' x0 Hstep.
    apply IHa in Hstep as (prev1 & s1 & extra1 & Hk & Hids1 & _).
    exists prev1, s1, extra1. split; [assumption|]. split; set_solver.
  - apply IHa in Hrun as (prev1 & s1 & extra1 & Hk & Hids1 & Hmust1).
    exists prev1, s1, ((i, take (length s - length s1) s) :: extra1).
    split; [exact Hk|]. cbn [map fst]. split; set_solver.
  - destruct (xorb _ _); [|discriminate].
    exists prev, s, []. split; [assumption|]. split; set_solver.
Qed.

(** A greedy run of one class consumes characters of that class only,
    at least [lo] of them and at most [hi]. *)
Lemma class_loop (p : ascii -> bool) (lo : nat) (hi : option nat) (k : cont R) :
  forall fuel n prev s caps x,
    rep_loop (go (Chr p)) lo hi k fuel n prev s caps = Some x ->
    exists g s' prev',
      s = g ++ s' /\ forallb p g = true
      /\ (lo <= n + length g)%nat
      /\ (forall h, hi = Some h -> (n <= h -> n + length g <= h)%nat)
      /\ k prev' s' caps = Some x.
Proof.
  induction fuel as [|fuel IH]; intros n prev s caps x Hrun; [discriminate|].
  cbn [rep_loop] in Hrun.
  destruct (if below hi n then _ else None) as [y|] eqn:Emore.
  - injection Hrun as ->.
    destruct (below hi n) eqn:Ebelow; [|discriminate].
    cbn [go] in Emore. destruct s as [|c s1]; [discriminate|].
    destruct (p c) eqn:Ec; [|discriminate].
    destruct (length s1 <? length (c :: s1))%nat; [|discriminate].
    apply IH in Emore as (g & s' & prev' & -> & Hg & Hlo & Hhi & Hk).
    exists (c :: g), s', prev'. cbn [length forallb app]. rewrite Ec, Hg.
    split; [reflexivity|]. split; [reflexivity|]. split; [lia|].
    split; [|assumption].
    intros h -> Hn. cbn in Ebelow. apply Nat.ltb_lt in Ebelow.
    specialize (Hhi h eq_refl). lia.
  - destruct (lo <=? n)%nat eqn:Elo; [|discriminate].
    apply Nat.leb_le in Elo.
    exists [], s, prev. cbn. split; [reflexivity|]. split; [reflexivity|].
    split; [lia|]. split; [intros; lia | assumption].
Qed.

Lemma take_app_length_diff (g s' : str) :
  take (length (g ++ s') - length s') (g ++ s') = g.
Proof.
  rewrite length_app. replace (length g + length s' - length s')%nat
    with (length g) by lia.
  now rewrite take_app_length.
Qed.

(** A pattern that ends with a group made of one class puts that group
    first among the captures, holding characters of the class only. *)
Lemma ends_with_capture (i : nat) (p : ascii -> bool) (r : regex) :
  ends_with i p r ->
  forall prev s caps (k : cont R) x,
    go r prev s caps k = Some x ->
    exists prev' s' caps' g,
      k prev' s' ((i, g) :: caps') = Some x /\ forallb p g = true /\ g <> [].
Proof.
  induction 1 as [lo hi Hlo|a b Hb IH]; intros prev s caps k x Hrun;
    cbn [go] in Hrun.
  - apply class_loop in Hrun as (g & s' & prev' & -> & Hg & Hlen & _ & Hk).
    rewrite take_app_length_diff in Hk.
    exists prev', s', caps, g. split; [assumption|]. split; [assumption|].
    intros ->. cbn in Hlen. lia.
  - apply go_extends in Hrun as (prev1 & s1 & extra1 & Hk & _).
    eapply IH. exact Hk.
Qed.

End Extends.

(** [search] returns what some [match_here] returned. *)
Lemma search_from_here (r : regex) (s : str) :
  forall prev x,
    search_from r prev s = Some x ->
    exists prev' s', match_here r prev' s' = Some x.
Proof.
  induction s as [|c rest IH]; intros prev x Hs; cbn [search_from] in Hs.
  - destruct (match_here r prev []) eqn:E; [|discriminate].
    injection Hs as ->. eauto.
  - destruct (match_here r prev (c :: rest)) eqn:E.
    + injection Hs as ->. eauto.
    + eapply IH. exact Hs.
Qed.

Lemma search_here (r : regex) (text : str) (m : Match) :
  search r text = Some m ->
  exists prev s prev' s', match_here r prev s = Some (m, prev', s').
Proof.
  unfold search. destruct (search_from r None text) as [[[m' prev'] s']|] eqn:E;
    [|discriminate].
  intros [= ->]. apply search_from_here in E as (prev & s & E). eauto 6.
Qed.

(** The number of groups is that of the pattern searched for. *)
Lemma search_groups (r : regex) (text : str) (m : Match) :
  search r text = Some m -> pattern_groups m = ngroups r.
Proof.
  intros Hs. apply search_here in Hs as (prev & s & prev' & s' & Hm).
  unfold match_here in Hm.
  apply go_extends in Hm as (? & ? & ? & [= <- _ _] & _). reflexivity.
Qed.

(** Every mandatory group of the pattern took part in the match. *)
Lemma search_mandatory (r : regex) (text : str) (m : Match) (i : nat) :
  search r text = Some m -> i ∈ mandatory r ->
  exists g, lookup_group i (caps m) = Some g.
Proof.
  intros Hs Hi. apply search_here in Hs as (prev & s & prev' & s' & Hm).
  unfold match_here in Hm.
  apply go_extends in Hm as (? & ? & extra & [= <- _ _] & _ & Hmust).
  cbn [caps]. rewrite app_nil_r.
  apply Hmust in Hi. clear Hmust.
  induction extra as [|[j v] rest IH]; [inversion Hi|].
  cbn [lookup_group]. destruct (i =? j)%nat eqn:E; [eauto|].
  apply IH. cbn in Hi. apply elem_of_cons in Hi as [->|Hi]; [|assumption].
  rewrite Nat.eqb_refl in E. discriminate.
Qed.

(** A pattern that ends with a one-class group: the match's last group
    is that group, and holds characters of the class only. *)
Lemma search_ends_with (i : nat) (p : ascii -> bool) (r : regex)
    (text : str) (m : Match) :
  ends_with i p r -> search r text = Some m ->
  exists g rest, caps m = (i, g) :: rest /\ forallb p g = true /\ g <> [].
Proof.
  intros Hends Hs. apply search_here in Hs as (prev & s & prev' & s' & Hm).
  unfold match_here in Hm.
  eapply ends_with_capture in Hm as (? & ? & caps' & g & [= <- _ _] & Hg & Hne);
    [|exact Hends].
  cbn [caps]. eauto.
Qed.

End ReFacts.

(** * Facts about the Field Extractor *)
Module ExtractFacts.
Import Re Extract TextFacts ReFacts.

(** ** The cleanup step *)

Lemma post_clean_eq (v : str) :
  post_clean (Some v)
  = if (120 <? length (cleaned v))%nat then take 120 (cleaned v) else cleaned v.
Proof. destruct v; reflexivity. Qed.

Lemma post_clean_length (v : option str) : (length (post_clean v) <= 120)%nat.
Proof.
  destruct v as [v|]; [|cbn; lia]. rewrite post_clean_eq.
  destruct (120 <? length (cleaned v))%nat eqn:E.
  - rewrite length_take. lia.
  - apply Nat.ltb_ge in E. exact E.
Qed.

Lemma head_take {A} (n : nat) (l : list A) : head (take (S n) l) = head l.
Proof. destruct l; reflexivity. Qed.

Lemma post_clean_head (v : str) : head (post_clean (Some v)) = head (cleaned v).
Proof.
  rewrite post_clean_eq. destruct (120 <? length (cleaned v))%nat; [|reflexivity].
  apply head_take.
Qed.

Lemma post_clean_short (v : str) :
  (length (post_clean (Some v)) < 120)%nat -> post_clean (Some v) = cleaned v.
Proof.
  rewrite post_clean_eq. destruct (120 <? length (cleaned v))%nat eqn:E;
    [|reflexivity].
  apply Nat.ltb_lt in E. rewrite length_take. lia.
Qed.

Lemma post_clean_start_punct (v : str) (c : ascii) :
  head (post_clean (Some v)) = Some c -> is_punct c = false.
Proof. rewrite post_clean_head. apply strip_by_head. Qed.

Lemma post_clean_end_punct (v : str) (c : ascii) :
  (length (post_clean (Some v)) < 120)%nat ->
  last (post_clean (Some v)) = Some c -> is_punct c = false.
Proof. intros Hlen. rewrite post_clean_short by assumption. apply strip_by_last. Qed.

Lemma cleaned_Forall (q : ascii -> Prop) (v : str) :
  Forall q v -> Forall q (cleaned v).
Proof. intros Hq. unfold cleaned. now do 2 apply strip_by_Forall. Qed.

Lemma head_Forall {A} (q : A -> Prop) (l : list A) (x : A) :
  Forall q l -> head l = Some x -> q x.
Proof. destruct l; [discriminate|]. intros Hq [= <-]. now inversion Hq. Qed.

Lemma last_Forall {A} (q : A -> Prop) (l : list A) (x : A) :
  Forall q l -> last l = Some x -> q x.
Proof.
  intros Hq Hl. apply last_Some in Hl as [l' ->].
  apply Forall_app in Hq as [_ Hq]. now inversion Hq.
Qed.

(** A value without whitespace comes out trimmed, unless it was cut. *)
Lemma post_clean_no_space (v : str) :
  Forall (fun c => Text.is_space c = false) v ->
  trimmed_start (post_clean (Some v))
  /\ ((length (post_clean (Some v)) < 120)%nat -> trimmed_end (post_clean (Some v))).
Proof.
  intros Hv. apply cleaned_Forall in Hv. split.
  - intros c Hc. split; [|eapply post_clean_start_punct; eassumption].
    rewrite post_clean_head in Hc. eapply (head_Forall _ _ _ Hv Hc).
  - intros Hlen c Hc. split; [|eapply post_clean_end_punct; eassumption].
    rewrite post_clean_short in Hc by assumption.
    eapply (last_Forall _ _ _ Hv Hc).
Qed.

(** A short value that is trimmed already is left as it is. *)
Lemma post_clean_id (v : str) :
  trimmed_start v -> trimmed_end v -> (length v <= 120)%nat ->
  post_clean (Some v) = v.
Proof.
  intros Hs He Hlen. rewrite post_clean_eq.
  assert (Hc : cleaned v = v).
  { unfold cleaned, Text.strip, Text.strip_chars.
    rewrite (strip_by_id Text.is_space v);
      [|intros c Hc; apply (Hs c Hc) | intros c Hc; apply (He c Hc)].
    apply strip_by_id; [intros c Hc; apply (Hs c Hc) | intros c Hc; apply (He c Hc)]. }
  rewrite Hc. destruct (120 <? length v)%nat eqn:E; [|reflexivity].
  apply Nat.ltb_lt in E. lia.
Qed.

(** ** Characters *)

Ltac each_ascii c :=
  destruct c as [[|] [|] [|] [|] [|] [|] [|] [|]]; vm_compute;
  try reflexivity; try discriminate; try (intros; discriminate);
  try (intros; reflexivity).

Lemma model_class_no_space (c : ascii) :
  (true && is_word c || Text.mem_char c $"-/.") = true -> Text.is_space c = false.
Proof. each_ascii c. Qed.

Lemma serial_class_no_space (c : ascii) :
  (true && is_word c || Text.mem_char c $"-/") = true -> Text.is_space c = false.
Proof. each_ascii c. Qed.

Lemma digit_trimmed (c : ascii) :
  is_digit c = true -> Text.is_space c = false /\ is_punct c = false.
Proof.
  intros Hc. split; revert Hc; each_ascii c.
Qed.

Lemma trimmedb_spec (v : str) :
  trimmedb v = true -> trimmed_start v /\ trimmed_end v.
Proof.
  unfold trimmedb, trimmed_start, trimmed_end. intros Hb.
  apply andb_prop in Hb as [Hh Hl]. split; intros c Hc; rewrite Hc in *.
  - apply andb_prop in Hh as [H1 H2]. now rewrite negb_true_iff in H1, H2.
  - apply andb_prop in Hl as [H1 H2]. now rewrite negb_true_iff in H1, H2.
Qed.

Lemma forallb_Forall_impl (p : ascii -> bool) (q : ascii -> Prop) (g : str) :
  (forall c, p c = true -> q c) -> forallb p g = true -> Forall q g.
Proof.
  intros Hpq Hg. apply Forall_forall. intros c Hc. apply Hpq.
  rewrite forallb_forall in Hg. apply Hg. now apply list_elem_of_In.
Qed.

(** ** Model and serial numbers *)

Lemma lookup_group_head (i : nat) (g : str) (rest : captures) :
  lookup_group i ((i, g) :: rest) = Some g.
Proof. cbn. now rewrite Nat.eqb_refl. Qed.

(** When every pattern ends with a group made of one class, what
    [find_first_group] returns is made of characters of that class. *)
Lemma find_first_group_class (p : ascii -> bool) (patterns : list regex)
    (text g : str) :
  Forall (fun r => exists i, ends_with i p r /\ (1 <= i <= ngroups r)%nat)
    patterns ->
  find_first_group patterns text = Some g ->
  exists g0, g = Text.strip g0 /\ forallb p g0 = true.
Proof.
  induction 1 as [|r rest (i & Hends & Hi) _ IH]; cbn [find_first_group];
    [discriminate|].
  destruct (search r text) as [m|] eqn:Es; [|exact IH].
  pose proof (search_groups _ _ _ Es) as Hn.
  apply (search_ends_with i p) in Es as (g0 & caps' & Hcaps & Hg0 & _);
    [|assumption].
  unfold lastindex, group. rewrite Hcaps.
  change (default 0%nat (Some i)) with i.
  destruct (i =? 0)%nat eqn:E0; [apply Nat.eqb_eq in E0; lia|].
  replace (i <=? pattern_groups m)%nat with true
    by (symmetry; apply Nat.leb_le; lia).
  rewrite lookup_group_head. intros [= <-]. eauto.
Qed.

Lemma model_hints_shape :
  Forall (fun r => exists i,
              ends_with i (fun x => true && is_word x || Text.mem_char x $"-/.") r
              /\ (1 <= i <= ngroups r)%nat)
    MODEL_HINTS.
Proof.
  unfold MODEL_HINTS. constructor; [|constructor; [|constructor; [|constructor]]].
  - exists 2%nat. split; [|vm_compute; lia].
    cbn [seqs]. do 4 apply ends_seq. apply ends_here. lia.
  - exists 1%nat. split; [|vm_compute; lia].
    cbn [seqs]. do 5 apply ends_seq. apply ends_here. lia.
  - exists 1%nat. split; [|vm_compute; lia].
    cbn [seqs]. do 3 apply ends_seq. apply ends_here. lia.
Qed.

Lemma serial_hints_shape :
  Forall (fun r => exists i,
              ends_with i (fun x => true && is_word x || Text.mem_char x $"-/") r
              /\ (1 <= i <= ngroups r)%nat)
    SERIAL_HINTS.
Proof.
  unfold SERIAL_HINTS. constructor; [|constructor; [|constructor]].
  - exists 2%nat. split; [|vm_compute; lia].
    cbn [seqs]. do 4 apply ends_seq. apply ends_here. lia.
  - exists 1%nat. split; [|vm_compute; lia].
    cbn [seqs]. do 5 apply ends_seq. apply ends_here. lia.
Qed.

(** The value of a field whose patterns capture a class without
    whitespace. *)
Lemma class_field_trimmed (p : ascii -> bool) (patterns : list regex) (text : str) :
  (forall c, p c = true -> Text.is_space c = false) ->
  Forall (fun r => exists i, ends_with i p r /\ (1 <= i <= ngroups r)%nat)
    patterns ->
  let v := post_clean (find_first_group patterns text) in
  trimmed_start v /\ ((length v < 120)%nat -> trimmed_end v).
Proof.
  intros Hp Hshape. cbv zeta.
  destruct (find_first_group patterns text) as [g|] eqn:Ef.
  - apply (find_first_group_class p) in Ef as (g0 & -> & Hg0); [|assumption].
    apply post_clean_no_space. apply strip_by_Forall.
    eapply forallb_Forall_impl; eassumption.
  - cbn. split; [|intros _]; intros c [=].
Qed.

(** ** Capacity *)

Lemma lookup_group_app_notin (i : nat) (extra cs : captures) :
  i ∉ map fst extra -> lookup_group i (extra ++ cs) = lookup_group i cs.
Proof.
  induction extra as [|[j v] rest IH]; [reflexivity|]. cbn [map fst app].
  intros Hnot. cbn [lookup_group]. destruct (i =? j)%nat eqn:E.
  - apply Nat.eqb_eq in E. subst j. exfalso. apply Hnot, list_elem_of_here.
  - apply IH. intros Hin. apply Hnot. now apply list_elem_of_further.
Qed.

(** A pattern that begins with a group made of one class. *)
Lemma search_first_group (i : nat) (p : ascii -> bool) (lo : nat)
    (hi : option nat) (rest : regex) (text : str) (m : Match) :
  i ∉ group_ids rest ->
  search (Seq (Grp i (Rep (Chr p) lo hi)) rest) text = Some m ->
  exists g,
    lookup_group i (caps m) = Some g /\ forallb p g = true
    /\ (lo <= length g)%nat
    /\ (forall h, hi = Some h -> (length g <= h)%nat).
Proof.
  intros Hnot Hs. apply search_here in Hs as (prev & s & prev' & s' & Hm).
  unfold match_here in Hm. cbn [go] in Hm.
  apply class_loop in Hm as (g & s1 & prev1 & -> & Hg & Hlo & Hhi & Hk).
  rewrite take_app_length_diff in Hk.
  apply go_extends in Hk as (? & ? & extra & [= <- _ _] & Hids & _).
  cbn [caps]. exists g. rewrite lookup_group_app_notin by set_solver.
  rewrite lookup_group_head. split; [reflexivity|]. split; [assumption|].
  split; [lia|]. intros h Hh. specialize (Hhi h Hh). lia.
Qed.

(** [parse_capacity] never fails; what it returns is two or three digits
    followed by [" gal"] or [" L"]. *)
Lemma parse_capacity_in_spec (patterns : list regex) (text : str) :
  Forall capacity_shape patterns ->
  exists v,
    parse_capacity_in patterns text = inr v
    /\ forall s, v = Some s ->
         exists g unit_,
           s = g ++ unit_ /\ forallb is_digit g = true
           /\ (2 <= length g <= 3)%nat
           /\ (unit_ = $" gal" \/ unit_ = $" L").
Proof.
  induction 1 as [|r rest (tail & -> & Hnot & Hmust & Hn) _ IH];
    cbn [parse_capacity_in].
  - exists None. split; [reflexivity | discriminate].
  - destruct (search _ text) as [m|] eqn:Es; [|exact IH].
    pose proof (search_groups _ _ _ Es) as Hgroups. rewrite Hn in Hgroups.
    destruct (search_mandatory _ _ _ 2%nat Es) as (g2 & Hg2).
    { cbn [mandatory]. set_solver. }
    apply search_first_group in Es as (g1 & Hg1 & Hdigits & Hlo & Hhi);
      [|assumption].
    unfold group. rewrite Hgroups. cbn [Nat.eqb Nat.leb].
    rewrite Hg1, Hg2. cbn [format_group].
    destruct (Text.starts_with $"gal" (Text.lower g2)).
    + eexists. split; [reflexivity|]. intros s [= <-].
      exists g1, $" gal". specialize (Hhi 3%nat eq_refl). auto.
    + destruct (Text.starts_with $"l" (Text.lower g2)); [|exact IH].
      eexists. split; [reflexivity|]. intros s [= <-].
      exists g1, $" L". specialize (Hhi 3%nat eq_refl). auto.
Qed.

Lemma capacity_hints_shape : Forall capacity_shape CAPACITY_HINTS.
Proof.
  unfold CAPACITY_HINTS. constructor; [|constructor; [|constructor]];
    eexists; (split; [cbn [seqs]; reflexivity|]);
    (split; [vm_compute; set_solver|]); (split; [|reflexivity]);
    cbn [mandatory]; set_solver.
Qed.

Lemma parse_capacity_total (text : str) :
  exists v, parse_capacity text = inr v.
Proof.
  destruct (parse_capacity_in_spec CAPACITY_HINTS text capacity_hints_shape)
    as (v & Hv & _).
  eauto.
Qed.

Lemma last_app_cons {A} (l1 l2 : list A) (x : A) :
  last (l1 ++ x :: l2) = last (x :: l2).
Proof.
  induction l1 as [|y l1 IH]; [reflexivity|].
  cbn [app]. rewrite last_cons, IH. now destruct (last (x :: l2)) eqn:E;
    [|rewrite last_cons in E; destruct (last l2)].
Qed.

Lemma capacity_value_trimmed (g unit_ : str) :
  forallb is_digit g = true -> (2 <= length g <= 3)%nat ->
  unit_ = $" gal" \/ unit_ = $" L" ->
  post_clean (Some (g ++ unit_)) = g ++ unit_
  /\ trimmed_start (g ++ unit_) /\ trimmed_end (g ++ unit_).
Proof.
  intros Hg Hlen Hunit.
  assert (Hs : trimmed_start (g ++ unit_)).
  { destruct g as [|c g']; [cbn in Hlen; lia|]. intros x [= <-].
    cbn in Hg. apply andb_prop in Hg as [Hc _]. now apply digit_trimmed. }
  assert (He : trimmed_end (g ++ unit_)).
  { intros x Hx.
    destruct Hunit as [-> | ->]; cbn [String.list_ascii_of_string] in Hx;
      rewrite last_app_cons in Hx; cbn in Hx; injection Hx as <-;
      split; reflexivity. }
  split; [|auto]. apply post_clean_id; auto.
  rewrite length_app. destruct Hunit as [-> | ->]; cbn; lia.
Qed.

(** ** Dates *)

Lemma uint_digits (d : Decimal.uint) :
  forallb is_digit (String.list_ascii_of_string (NilEmpty.string_of_uint d)) = true.
Proof. induction d; cbn; auto. Qed.

Lemma uint_digits_zero (d : Decimal.uint) :
  forallb is_digit (String.list_ascii_of_string (NilZero.string_of_uint d)) = true.
Proof.
  destruct d; [reflexivity|..]; unfold NilZero.string_of_uint; apply uint_digits.
Qed.

Lemma str_of_nat_digits (n : nat) :
  forallb is_digit (Text.str_of_Z (Z.of_nat n)) = true.
Proof.
  unfold Text.str_of_Z. destruct (Z.of_nat n) as [|q|q] eqn:E; [reflexivity| |lia].
  cbn [Z.to_int NilZero.string_of_int]. apply uint_digits_zero.
Qed.

Lemma pad_left_digits (width : nat) (s : str) :
  forallb is_digit s = true -> forallb is_digit (pad_left width s) = true.
Proof.
  intros Hs. unfold pad_left. rewrite forallb_app, Hs, andb_true_r.
  induction (width - length s)%nat; cbn; auto.
Qed.

Lemma date_char_no_space (c : ascii) :
  (is_digit c || Ascii.eqb c "-") = true -> Text.is_space c = false.
Proof. each_ascii c. Qed.

Lemma isoformat_chars (d : date) :
  forallb (fun c => is_digit c || Ascii.eqb c "-") (isoformat d) = true.
Proof.
  assert (Hd : forall s, forallb is_digit s = true ->
               forallb (fun c => is_digit c || Ascii.eqb c "-") s = true).
  { intros s Hs. rewrite forallb_forall in *. intros c Hc.
    now rewrite (Hs c Hc). }
  unfold isoformat. rewrite !forallb_app.
  rewrite (Hd (pad_left 4 _)), (Hd (pad_left 2 (Text.str_of_Z (Z.of_nat (month d))))),
    (Hd (pad_left 2 (Text.str_of_Z (Z.of_nat (day d)))))
    by (apply pad_left_digits, str_of_nat_digits).
  reflexivity.
Qed.

Section WithDateLib.
Context `{DateLib}.

Lemma first_parsed_iso (candidates : list str) (v : str) :
  first_parsed candidates = Some v -> exists d, v = isoformat d.
Proof.
  induction candidates as [|c rest IH]; cbn [first_parsed]; [discriminate|].
  destruct (dateutil_parse c) as [d|]; [|exact IH]. intros [= <-]. eauto.
Qed.

Lemma date_value_trimmed (text : str) :
  let v := post_clean (parse_date_of_manufacture text) in
  trimmed_start v /\ ((length v < 120)%nat -> trimmed_end v).
Proof.
  cbv zeta. destruct (parse_date_of_manufacture text) as [v|] eqn:E.
  - apply first_parsed_iso in E as (d & ->). apply post_clean_no_space.
    eapply forallb_Forall_impl; [apply date_char_no_space|apply isoformat_chars].
  - cbn. split; [|intros _]; intros c [=].
Qed.

(** ** Manufacturer *)

Lemma manufacturer_values :
  Forall (fun brand =>
            post_clean (Some (title_case brand)) = title_case brand
            /\ trimmedb (title_case brand) = true)
    MANUFACTURER_KEYWORDS.
Proof. repeat constructor; vm_compute; reflexivity. Qed.

Lemma detect_manufacturer_some (text v : str) :
  detect_manufacturer text = Some v ->
  exists brand,
    List.find (fun b => Text.contains b (Text.lower text)) MANUFACTURER_KEYWORDS
      = Some brand
    /\ v = title_case brand
    /\ post_clean (Some v) = v
    /\ trimmed_start v /\ trimmed_end v.
Proof.
  unfold detect_manufacturer.
  destruct (List.find _ MANUFACTURER_KEYWORDS) as [brand|] eqn:Ef; [|discriminate].
  intros [= <-]. exists brand. split; [reflexivity|]. split; [reflexivity|].
  apply find_some in Ef as [Hin _]. apply list_elem_of_In in Hin.
  pose proof manufacturer_values as Hall. rewrite Forall_forall in Hall.
  destruct (Hall brand Hin) as [Hclean Htrim].
  split; [assumption|]. now apply trimmedb_spec.
Qed.

(** ** The whole record *)

Lemma trimmed_nil : trimmed_start [] /\ trimmed_end [].
Proof. split; intros c [=]. Qed.

(** Extraction never fails, and this is what it returns. *)
Lemma parse_fields_values (ocr_text : option str) :
  let text := normalize_whitespace (default [] ocr_text) in
  exists cap,
    parse_capacity text = inr cap
    /\ (forall s, cap = Some s ->
         exists g unit_,
           s = g ++ unit_ /\ forallb is_digit g = true
           /\ (2 <= length g <= 3)%nat
           /\ (unit_ = $" gal" \/ unit_ = $" L"))
    /\ parse_fields ocr_text
       = inr [ ($"manufacturer", post_clean (detect_manufacturer text));
               ($"model_number", post_clean (find_first_group MODEL_HINTS text));
               ($"serial_number", post_clean (find_first_group SERIAL_HINTS text));
               ($"capacity", post_clean cap);
               ($"date_of_manufacture",
                post_clean (parse_date_of_manufacture text)) ].
Proof.
  cbv zeta. unfold parse_fields.
  set (text := normalize_whitespace (default [] ocr_text)).
  destruct (parse_capacity_in_spec CAPACITY_HINTS text capacity_hints_shape)
    as (cap & Hcap & Hshape).
  fold (parse_capacity text) in Hcap. rewrite Hcap. eauto.
Qed.

(** C5, as amended: extraction never fails and returns the five keys;
    every value has at most 120 characters and never begins with
    whitespace or one of the characters [-:;,.#]; a value of fewer than
    120 characters does not end with one either (the cut at 120 comes
    after the trimming); a field whose heuristics find nothing is
    empty. *)
Theorem C5_extraction_total_bounded_trimmed_unless_cut (ocr_text : option str) :
  let text := normalize_whitespace (default [] ocr_text) in
  exists fields,
    parse_fields ocr_text = inr fields
    /\ Dict.keys fields
       = [ $"manufacturer"; $"model_number"; $"serial_number"; $"capacity";
           $"date_of_manufacture" ]
    /\ Forall (fun kv =>
                 (length (snd kv) <= 120)%nat
                 /\ trimmed_start (snd kv)
                 /\ ((length (snd kv) < 120)%nat -> trimmed_end (snd kv)))
         fields
    /\ (detect_manufacturer text = None ->
        Dict.get fields $"manufacturer" = Some [])
    /\ (find_first_group MODEL_HINTS text = None ->
        Dict.get fields $"model_number" = Some [])
    /\ (find_first_group SERIAL_HINTS text = None ->
        Dict.get fields $"serial_number" = Some [])
    /\ (parse_capacity text = inr None ->
        Dict.get fields $"capacity" = Some [])
    /\ (parse_date_of_manufacture text = None ->
        Dict.get fields $"date_of_manufacture" = Some []).
Proof.
  cbv zeta.
  set (text := normalize_whitespace (default [] ocr_text)).
  destruct (parse_fields_values ocr_text) as (cap & Hcap & Hshape & ->).
  fold text in Hcap. fold text.
  eexists. split; [reflexivity|]. split; [reflexivity|]. split.
  - repeat (apply List.Forall_cons || apply List.Forall_nil); cbn [snd];
      (split; [apply post_clean_length|]).
    + destruct (detect_manufacturer text) as [v|] eqn:Ed.
      * apply detect_manufacturer_some in Ed as (brand & _ & _ & -> & Hs & He).
        auto.
      * cbn. destruct trimmed_nil. auto.
    + apply (class_field_trimmed _ MODEL_HINTS text model_class_no_space
               model_hints_shape).
    + apply (class_field_trimmed _ SERIAL_HINTS text serial_class_no_space
               serial_hints_shape).
    + destruct cap as [s|].
      * destruct (Hshape s eq_refl) as (g & unit_ & -> & Hg & Hlen & Hunit).
        destruct (capacity_value_trimmed g unit_ Hg Hlen Hunit) as (-> & Hs & He).
        auto.
      * cbn. destruct trimmed_nil. auto.
    + apply date_value_trimmed.
  - repeat split.
    + now intros ->.
    + now intros ->.
    + now intros ->.
    + rewrite Hcap. now intros [= ->].
    + now intros ->.
Qed.

(** ** Keywords inside noise *)

Lemma starts_with_app (p r : str) : Text.starts_with p (p ++ r) = true.
Proof.
  induction p as [|c p IH]; [now destruct r|]. cbn.
  now rewrite Ascii.eqb_refl, IH.
Qed.

Lemma starts_with_split (p s : str) :
  Text.starts_with p s = true -> exists r, s = p ++ r.
Proof.
  revert s. induction p as [|c p IH]; intros s Hs; [now exists s|].
  destruct s as [|x s]; [discriminate|]. cbn in Hs.
  apply andb_prop in Hs as [Hc Hs]. apply Ascii.eqb_eq in Hc. subst x.
  destruct (IH s Hs) as [r ->]. now exists r.
Qed.

Lemma contains_app (sub a b : str) : Text.contains sub (a ++ sub ++ b) = true.
Proof.
  induction a as [|c a IH]; cbn [app].
  - destruct (sub ++ b) eqn:E; cbn [Text.contains]; rewrite <- ?E;
      now rewrite starts_with_app.
  - cbn [Text.contains]. rewrite IH. apply orb_true_r.
Qed.

Lemma contains_split (sub s : str) :
  Text.contains sub s = true -> exists a b, s = a ++ sub ++ b.
Proof.
  induction s as [|c s IH]; cbn [Text.contains]; intros Hs.
  - rewrite orb_false_r in Hs. apply starts_with_split in Hs as [r ->].
    now exists [], r.
  - apply orb_prop in Hs as [Hs|Hs].
    + apply starts_with_split in Hs as [r ->]. now exists [], r.
    + destruct (IH Hs) as (a & b & ->). now exists (c :: a), b.
Qed.

Lemma blank_lower (c : ascii) :
  is_blank c = true -> is_blank (Text.lower_char c) = true.
Proof. each_ascii c. Qed.

Lemma collapse_word (f : bool) (w b : str) :
  w <> [] -> forallb (fun c => negb (is_blank c)) w = true ->
  collapse_blanks f (w ++ b) = w ++ collapse_blanks false b.
Proof.
  intros Hne Hw. destruct w as [|c w]; [congruence|]. clear Hne.
  cbn in Hw. apply andb_prop in Hw as [Hc Hw]. apply negb_true_iff in Hc.
  cbn [app collapse_blanks]. rewrite Hc. f_equal. clear c Hc.
  induction w as [|c w IH]; [reflexivity|].
  cbn in Hw. apply andb_prop in Hw as [Hc Hw]. apply negb_true_iff in Hc.
  cbn [app collapse_blanks]. rewrite Hc. f_equal. now apply IH.
Qed.

Lemma collapse_around_word (w a b : str) :
  w <> [] -> forallb (fun c => negb (is_blank c)) w = true ->
  forall f,
    collapse_blanks f (a ++ w ++ b)
    = collapse_blanks f a ++ w ++ collapse_blanks false b.
Proof.
  intros Hne Hw. induction a as [|c a IH]; intros f; cbn [app].
  - now apply collapse_word.
  - cbn [collapse_blanks]. destruct (is_blank c), f; cbn [app];
      now rewrite IH.
Qed.

(** Whitespace normalisation keeps an occurrence of a keyword. *)
Lemma keyword_survives (k text : str) :
  k <> [] -> forallb (fun c => negb (is_blank c)) k = true ->
  Text.contains k (Text.lower text) = true ->
  Text.contains k (Text.lower (normalize_whitespace text)) = true.
Proof.
  intros Hne Hk Hin. apply contains_split in Hin as (a & b & Hsplit).
  unfold Text.lower in Hsplit.
  apply fmap_app_inv in Hsplit as (a' & rest & -> & Hrest & ->).
  symmetry in Hrest.
  apply fmap_app_inv in Hrest as (k' & b' & -> & -> & ->).
  unfold normalize_whitespace. rewrite (collapse_around_word k' a' b').
  - unfold Text.lower. rewrite !map_app. apply contains_app.
  - intros ->. now apply Hne.
  - rewrite forallb_forall in *. intros c Hc.
    specialize (Hk (Text.lower_char c) (in_map _ _ _ Hc)).
    destruct (is_blank c) eqn:E; [|reflexivity].
    apply blank_lower in E. now rewrite E in Hk.
Qed.

Lemma keywords_are_words :
  Forall (fun k => k <> [] /\ forallb (fun c => negb (is_blank c)) k = true)
    MANUFACTURER_KEYWORDS.
Proof. repeat constructor; discriminate. Qed.

(** C4, as amended: the extractor looks for the keywords in the
    lowercased text after whitespace normalisation.  When that text holds
    a keyword of the list, which is the case whenever the text as given
    holds one in any letter case, the manufacturer field is the
    title-cased form of the first keyword of the list that occurs in the
    lowercased normalised text. *)
Theorem C4_manufacturer_is_first_keyword_of_normalised_text
    (ocr_text k : str) :
  k ∈ MANUFACTURER_KEYWORDS ->
  Text.contains k (Text.lower ocr_text) = true
  \/ Text.contains k (Text.lower (normalize_whitespace ocr_text)) = true ->
  exists brand fields,
    List.find
      (fun b => Text.contains b (Text.lower (normalize_whitespace ocr_text)))
      MANUFACTURER_KEYWORDS = Some brand
    /\ parse_fields (Some ocr_text) = inr fields
    /\ Dict.get fields $"manufacturer" = Some (title_case brand).
Proof.
  intros Hk Hin.
  pose proof keywords_are_words as Hwords. rewrite Forall_forall in Hwords.
  destruct (Hwords k Hk) as [Hne Hblank].
  assert (Hkept :
            Text.contains k (Text.lower (normalize_whitespace ocr_text)) = true).
  { destruct Hin as [Hraw | Hnorm]; [|exact Hnorm].
    exact (keyword_survives k ocr_text Hne Hblank Hraw). }
  destruct (List.find
              (fun b => Text.contains b (Text.lower (normalize_whitespace ocr_text)))
              MANUFACTURER_KEYWORDS) as [brand|] eqn:Ef.
  - exists brand.
    destruct (parse_fields_values (Some ocr_text)) as (cap & _ & _ & Hfields).
    change (default [] (Some ocr_text)) with ocr_text in Hfields.
    eexists. split; [reflexivity|]. split; [exact Hfields|].
    cbn [Dict.get]. rewrite bool_decide_eq_true_2 by reflexivity. f_equal.
    unfold detect_manufacturer. rewrite Ef.
    pose proof manufacturer_values as Hall. rewrite Forall_forall in Hall.
    apply find_some in Ef as [Hbrand _]. apply list_elem_of_In in Hbrand.
    apply (Hall brand Hbrand).
  - exfalso. apply list_elem_of_In in Hk.
    pose proof (find_none _ _ Ef k Hk) as Hnone. cbn in Hnone. congruence.
Qed.

End WithDateLib.

Import Demo.

Lemma C4_witness :
  exists brand fields,
    List.find
      (fun b => Text.contains b
                  (Text.lower
                     (normalize_whitespace ($"AO" ++ "009"%char :: $"SMITH GE"))))
      MANUFACTURER_KEYWORDS = Some brand
    /\ parse_fields (Some ($"AO" ++ "009"%char :: $"SMITH GE")) = inr fields
    /\ Dict.get fields $"manufacturer" = Some (title_case brand).
Proof.
  apply (C4_manufacturer_is_first_keyword_of_normalised_text
           ($"AO" ++ "009"%char :: $"SMITH GE") $"ao smith").
  - unfold MANUFACTURER_KEYWORDS.
    do 2 apply list_elem_of_further. apply list_elem_of_here.
  - right. vm_compute. reflexivity.
Defined.

(** C4 fails as stated: in "AO<tab>SMITH GE" the first keyword of the
    list that occurs in the lowercased text is "ge", since the tab keeps
    "ao smith" from occurring; the extractor turns the tab into a space
    first, finds "ao smith" and reports "Ao Smith", not "Ge". *)
Lemma C4_tab_inside_a_keyword :
  let text := $"AO" ++ "009"%char :: $"SMITH GE" in
  List.find (fun b => Text.contains b (Text.lower text)) MANUFACTURER_KEYWORDS
  = Some $"ge"
  /\ title_case $"ge" = $"Ge"
  /\ parse_fields (Some text)
     = inr [ ($"manufacturer", $"Ao Smith"); ($"model_number", []);
             ($"serial_number", []); ($"capacity", []);
             ($"date_of_manufacture", []) ]
  /\ $"Ao Smith" <> $"Ge".
Proof.
  cbv zeta. split; [vm_compute; reflexivity|].
  split; [vm_compute; reflexivity|].
  split; [vm_compute; reflexivity | discriminate].
Qed.

Lemma C5_witness :
  exists fields,
    parse_fields (Some $"RHEEM 50 Gallons") = inr fields
    /\ Dict.keys fields
       = [ $"manufacturer"; $"model_number"; $"serial_number"; $"capacity";
           $"date_of_manufacture" ].
Proof.
  destruct (C5_extraction_total_bounded_trimmed_unless_cut
              (Some $"RHEEM 50 Gallons")) as (fields & Hfields & Hkeys & _).
  exists fields. split; assumption.
Defined.

(** C5 fails as stated: for the text "Model: " followed by 119 letters,
    a hyphen and one more letter, the model number is cut at 120
    characters and ends with the hyphen. *)
Lemma C5_cut_value_ends_with_hyphen :
  let text := $"Model: " ++ replicate 119 "a"%char ++ $"-b" in
  parse_fields (Some text)
  = inr [ ($"manufacturer", []);
          ($"model_number", replicate 119 "a"%char ++ $"-");
          ($"serial_number", []); ($"capacity", []);
          ($"date_of_manufacture", []) ]
  /\ last (replicate 119 "a"%char ++ $"-") = Some "-"%char
  /\ is_punct "-" = true.
Proof. cbv zeta. repeat split; vm_compute; reflexivity. Qed.

End ExtractFacts.

(** ** The CSV file *)
Module CsvFacts.
Import Csv.

Lemma needs_quotes_cons c f :
  needs_quotes (c :: f) = false ->
  (is_nl c = false /\ Ascii.eqb c "034" = false /\ Ascii.eqb c "," = false)
  /\ needs_quotes f = false.
Proof.
  unfold needs_quotes, is_nl, Text.mem_char. cbn [existsb].
  intros H. apply orb_false_elim in H as [H Hf].
  repeat (apply orb_false_elim in H as [? H]).
  repeat split; try apply orb_false_intro; assumption.
Qed.

Lemma line_ends_not_nl c rest : is_nl c = false -> line_ends c rest = false.
Proof.
  unfold is_nl, line_ends. intros H. apply orb_false_elim in H as [-> ->].
  reflexivity.
Qed.

(** The characters of an unquoted field are added to the field. *)
Lemma feed_plain f : forall rest fld flds,
  needs_quotes f = false ->
  feed (f ++ rest) IN_FIELD fld flds true = feed rest IN_FIELD (fld ++ f) flds true.
Proof.
  induction f as [|c f IH]; intros rest fld flds H.
  - rewrite app_nil_r. reflexivity.
  - apply needs_quotes_cons in H as [(Hnl & Hq & Hcomma) Hf].
    cbn [app feed step]. rewrite Hnl, Hcomma, (line_ends_not_nl _ _ Hnl).
    rewrite IH by exact Hf. rewrite <- app_assoc. reflexivity.
Qed.

(** Inside quotes, a doubled quote is one quote and every other character
    stands for itself, line ends included. *)
Lemma feed_quoted f : forall rest fld flds open,
  feed (double_quotes f ++ "034"%char :: rest) IN_QUOTED_FIELD fld flds open
  = feed rest QUOTE_IN_QUOTED_FIELD (fld ++ f) flds true.
Proof.
  induction f as [|c f IH]; intros rest fld flds open.
  - rewrite app_nil_r. reflexivity.
  - cbn [double_quotes]. destruct (Ascii.eqb c "034") eqn:Hq.
    + apply Ascii.eqb_eq in Hq as ->.
      cbn [app feed step]. cbn -[feed]. rewrite IH, <- app_assoc. reflexivity.
    + cbn [app feed step]. rewrite Hq.
      destruct (line_ends c _); cbn [end_of_line];
        rewrite IH, <- app_assoc; reflexivity.
Qed.

(** A written field, read from the start of a field up to the character
    that follows it. *)
Lemma feed_field f rest st flds open :
  st = START_FIELD \/ st = START_RECORD ->
  exists st' fld' open',
    feed (write_field f ++ rest) st [] flds open = feed rest st' fld' flds open'
    /\ after_field st open f st' open'
    /\ (f <> [] -> fld' = f) /\ (f = [] -> fld' = []).
Proof.
  intros Hst. unfold write_field. destruct (needs_quotes f) eqn:Hn.
  - exists QUOTE_IN_QUOTED_FIELD, f, true. split; [|split; [constructor|done]].
    cbn [app]. rewrite <- app_assoc. cbn [app feed].
    assert (step "034" st [] flds = Some (IN_QUOTED_FIELD, [], flds)) as ->
      by (destruct Hst as [->| ->]; reflexivity).
    cbn [line_ends Ascii.eqb Bool.eqb andb orb]. cbn -[feed].
    apply feed_quoted.
  - destruct f as [|c f].
    + exists st, [], open. split; [reflexivity|]. split; [by constructor|done].
    + exists IN_FIELD, (c :: f), true. split; [|split; [by constructor|done]].
      apply needs_quotes_cons in Hn as [(Hnl & Hq & Hcomma) Hf].
      cbn [app feed].
      assert (step c st [] flds = Some (IN_FIELD, [c], flds)) as ->.
      { destruct Hst as [->| ->]; cbn [step]; unfold start_field;
          rewrite ?Hnl, Hq, Hcomma; reflexivity. }
      rewrite (line_ends_not_nl _ _ Hnl). apply (feed_plain f rest [c] flds Hf).
Qed.

Lemma feed_comma st open f st' fld' open' flds rest :
  st = START_FIELD \/ st = START_RECORD ->
  after_field st open f st' open' ->
  (f <> [] -> fld' = f) -> (f = [] -> fld' = []) ->
  feed (","%char :: rest) st' fld' flds open'
  = feed rest START_FIELD [] (flds ++ [f]) true.
Proof.
  intros Hst Hafter Hne He.
  assert (fld' = f) as -> by (destruct f; [apply He | apply Hne]; done).
  destruct Hafter as [| |_]; [reflexivity..|].
  destruct Hst as [->| ->]; reflexivity.
Qed.

Lemma feed_crlf st open f st' fld' open' flds rest :
  st = START_FIELD \/ (st = START_RECORD /\ f <> []) ->
  after_field st open f st' open' ->
  (f <> [] -> fld' = f) -> (f = [] -> fld' = []) ->
  feed ("013"%char :: "010"%char :: rest) st' fld' flds open'
  = (fun rows => (flds ++ [f]) :: rows) <$> feed rest START_RECORD [] [] false.
Proof.
  intros Hst Hafter Hne He.
  assert (fld' = f) as -> by (destruct f; [apply He | apply Hne]; done).
  destruct Hafter as [| |Hf].
  1,2: cbn -[feed]; cbn [feed step is_nl Ascii.eqb Bool.eqb orb];
       cbn -[feed]; destruct (feed rest _ _ _ _); reflexivity.
  destruct Hst as [->|[_ []]]; [|done].
  cbn -[feed]. cbn [feed step is_nl Ascii.eqb Bool.eqb orb].
  cbn -[feed]. destruct (feed rest _ _ _ _); reflexivity.
Qed.

(** The fields of a written line are read back. *)
Lemma feed_fields fs : forall f flds st open rest,
  st = START_FIELD \/ (st = START_RECORD /\ (f <> [] \/ fs <> [])) ->
  feed (Text.join [","%char] (map write_field (f :: fs))
          ++ "013"%char :: "010"%char :: rest) st [] flds open
  = (fun rows => (flds ++ f :: fs) :: rows) <$> feed rest START_RECORD [] [] false.
Proof.
  induction fs as [|g fs IH]; intros f flds st open rest Hst.
  - cbn [map Text.join].
    assert (st = START_FIELD \/ st = START_RECORD) as Hst' by tauto.
    destruct (feed_field f ("013"%char :: "010"%char :: rest) st flds open Hst')
      as (st' & fld' & open' & -> & Hafter & Hne & He).
    apply (feed_crlf st open f st' fld' open' flds rest); [|assumption..].
    destruct Hst as [|[? [|]]]; [tauto|tauto|done].
  - assert (st = START_FIELD \/ st = START_RECORD) as Hst' by tauto.
    change (Text.join [","%char] (map write_field (f :: g :: fs)))
      with (write_field f ++ [","%char]
              ++ Text.join [","%char] (map write_field (g :: fs))).
    rewrite <- !app_assoc.
    destruct (feed_field f ([","%char] ++ Text.join [","%char] (map write_field (g :: fs))
                              ++ "013"%char :: "010"%char :: rest) st flds open Hst')
      as (st' & fld' & open' & -> & Hafter & Hne & He).
    cbn [app]. erewrite feed_comma by eauto.
    rewrite IH by (left; reflexivity). rewrite <- app_assoc. reflexivity.
Qed.

Lemma feed_row r rest :
  feed (write_row r ++ rest) START_RECORD [] [] false
  = (fun rows => r :: rows) <$> feed rest START_RECORD [] [] false.
Proof.
  destruct r as [|f fs].
  - cbn -[feed]. cbn [feed step is_nl Ascii.eqb Bool.eqb orb].
    cbn -[feed]. destruct (feed rest _ _ _ _); reflexivity.
  - destruct (decide (f = [] /\ fs = [])) as [[-> ->]|Hne].
    + cbn -[feed]. cbn [feed step is_nl Ascii.eqb Bool.eqb orb].
      cbn -[feed]. destruct (feed rest _ _ _ _); reflexivity.
    + assert (write_row (f :: fs)
              = Text.join [","%char] (map write_field (f :: fs))
                  ++ ["013"%char; "010"%char]) as ->.
      { unfold write_row. destruct f; [destruct fs|]; try reflexivity. tauto. }
      rewrite <- app_assoc. cbn [app].
      apply (feed_fields fs f [] START_RECORD false rest).
      right. split; [reflexivity|].
      destruct f; [right|left]; [|done]. intros ->. tauto.
Qed.

(** Reading what the writer wrote gives the rows back. *)
Lemma read_written rows : read (concat (map write_row rows)) = Some rows.
Proof.
  unfold read. induction rows as [|r rows IH]; [reflexivity|].
  cbn [map concat]. rewrite feed_row, IH. reflexivity.
Qed.

End CsvFacts.

(** ** The CSV records *)
Module IoFacts.
Import Dict IoUtils Vocabulary.

Lemma fold_keys ks : forall st,
  fields_inv st ->
  fst (fold_left add_key ks st) = fst st ++ first_seen (fst st) ks
  /\ fields_inv (fold_left add_key ks st).
Proof.
  induction ks as [|k ks IH]; intros [fields existing] Hinv.
  - cbn. rewrite app_nil_r. done.
  - cbn [fold_left first_seen fst].
    specialize (Hinv k) as Hk. cbn [fst snd] in Hk.
    destruct (decide (k ∈ fields)) as [Hin|Hnin].
    + assert (add_key (fields, existing) k = (fields, existing)) as ->.
      { unfold add_key. cbn [fst snd]. by rewrite bool_decide_eq_true_2 by tauto. }
      rewrite bool_decide_eq_true_2 by done. apply (IH _ Hinv).
    + assert (add_key (fields, existing) k
              = (fields ++ [k], {[k]} ∪ existing)) as ->.
      { unfold add_key. cbn [fst snd]. by rewrite bool_decide_eq_false_2 by tauto. }
      rewrite bool_decide_eq_false_2 by done.
      destruct (IH (fields ++ [k], {[k]} ∪ existing)) as [-> Hinv'].
      { intros x. cbn [fst snd]. specialize (Hinv x). cbn [fst snd] in Hinv.
        set_solver. }
      cbn [fst]. rewrite <- app_assoc. done.
Qed.

Lemma first_seen_app a : forall seen b,
  first_seen seen (a ++ b)
  = first_seen seen a ++ first_seen (seen ++ first_seen seen a) b.
Proof.
  induction a as [|k a IH]; intros seen b.
  - cbn. rewrite app_nil_r. done.
  - cbn [app first_seen]. destruct (bool_decide (k ∈ seen)); [apply IH|].
    rewrite IH. cbn [app]. rewrite <- app_assoc. done.
Qed.

Lemma fold_records rs : forall st,
  fields_inv st ->
  fst (fold_left (fun st rec => fold_left add_key (keys rec) st) rs st)
  = fst st ++ first_seen (fst st) (concat (map keys rs)).
Proof.
  induction rs as [|r rs IH]; intros st Hinv.
  - cbn. rewrite app_nil_r. done.
  - cbn [fold_left map concat].
    destruct (fold_keys (keys r) st Hinv) as [Hfst Hinv'].
    rewrite (IH _ Hinv'), Hfst, first_seen_app, <- app_assoc. done.
Qed.

Lemma infer_fieldnames_eq records :
  infer_fieldnames records
  = preferred ++ first_seen preferred (concat (map keys records)).
Proof.
  unfold infer_fieldnames. rewrite fold_records; [done|].
  intros k. cbn [fst snd]. set_solver.
Qed.

Lemma first_seen_covers ks : forall seen k,
  k ∈ ks -> k ∈ seen ++ first_seen seen ks.
Proof.
  induction ks as [|x ks IH]; intros seen k Hk; [set_solver|].
  cbn [first_seen]. apply elem_of_cons in Hk as [->|Hk].
  - case_bool_decide; set_solver.
  - case_bool_decide; [by apply IH|].
    specialize (IH (seen ++ [x]) k Hk). set_solver.
Qed.

Lemma first_seen_only ks : forall seen k,
  k ∈ first_seen seen ks -> k ∈ ks /\ k ∉ seen.
Proof.
  induction ks as [|x ks IH]; intros seen k Hk; [set_solver|].
  cbn [first_seen] in Hk. case_bool_decide.
  - apply IH in Hk. set_solver.
  - apply elem_of_cons in Hk as [->|Hk]; [set_solver|].
    apply IH in Hk. set_solver.
Qed.

Lemma first_seen_NoDup ks : forall seen, NoDup (first_seen seen ks).
Proof.
  induction ks as [|x ks IH]; intros seen; cbn [first_seen]; [constructor|].
  case_bool_decide; [apply IH|]. constructor; [|apply IH].
  intros Hx. apply first_seen_only in Hx. set_solver.
Qed.

Lemma elem_of_all_keys (records : list dict) r key :
  r ∈ records -> key ∈ keys r -> key ∈ concat (map keys records).
Proof.
  intros Hr Hk. apply list_elem_of_In, in_concat. exists (keys r).
  split; [apply in_map; by apply list_elem_of_In | by apply list_elem_of_In].
Qed.

Lemma infer_fieldnames_covers records r key :
  r ∈ records -> key ∈ keys r -> key ∈ infer_fieldnames records.
Proof.
  intros Hr Hk. rewrite infer_fieldnames_eq.
  apply first_seen_covers. by eapply elem_of_all_keys.
Qed.

Lemma dict_to_list_ok fieldnames (r : dict) :
  (forall key, key ∈ keys r -> key ∈ fieldnames) ->
  dict_to_list fieldnames r
  = Some (map (fun key => default [] (get r key)) fieldnames).
Proof.
  intros H. unfold dict_to_list.
  assert (forallb (fun k => bool_decide (k ∈ fieldnames)) (keys r) = true) as ->;
    [|done].
  apply forallb_forall. intros k Hk. apply bool_decide_eq_true_2, H.
  by apply list_elem_of_In.
Qed.

Lemma write_rows_ok fieldnames rs : forall out,
  (forall r key, r ∈ rs -> key ∈ keys r -> key ∈ fieldnames) ->
  write_rows fieldnames rs out
  = (out ++ concat (map (fun r => Csv.write_row
                                    (map (fun key => default [] (get r key)) fieldnames))
                      rs), None).
Proof.
  induction rs as [|r rs IH]; intros out H.
  - cbn. rewrite app_nil_r. done.
  - cbn [write_rows]. rewrite dict_to_list_ok by (intros; eapply H; [left|done]).
    rewrite IH by (intros; eapply H; [by right|done]).
    cbn [map concat]. rewrite <- app_assoc. done.
Qed.

Lemma zip_row_full (f : str -> str) (ks : list str) :
  Csv.zip_row ks (map f ks) = map (fun key => (key, Some (f key))) ks.
Proof. induction ks as [|k ks IH]; cbn; [done|]. by rewrite IH. Qed.

Lemma filter_nonempty_all (rows : list (list str)) :
  Forall (fun row => row <> []) rows -> filter (fun row => row <> []) rows = rows.
Proof.
  induction 1 as [|row rows Hrow _ IH]; [done|].
  rewrite filter_cons_True by done. by rewrite IH.
Qed.

(** The text of the CSV file.  For every list of records, the header is
    the eight preferred columns, in their order, followed by the other keys
    of the records in the order they are first seen.  Every key of every
    record is a column and no column is repeated.  The text is the header
    line followed by one line per record, and no error is raised.  Reading
    the text back ([csv.reader], then [csv.DictReader]) gives the header
    and one row per record, in order; each row holds, under every column
    of the header, the value the record has for it (the empty string when
    the record lacks the key), and nothing more. *)
Lemma csv_header_rows_and_read_back (records : list dict) :
  let header := infer_fieldnames records in
  let value (r : dict) (key : str) := default [] (get r key) in
  let rows := map (fun r => map (value r) header) records in
  header = preferred ++ first_seen preferred (concat (map keys records))
  /\ take 8 header = preferred
  /\ NoDup header
  /\ (forall r key, r ∈ records -> key ∈ keys r -> key ∈ header)
  /\ exists text,
       csv_text records = (text, None)
       /\ text = Csv.write_row header ++ concat (map Csv.write_row rows)
       /\ Csv.read text = Some (header :: rows)
       /\ Csv.dict_reader text
          = Some (header,
                  map (fun r =>
                         {| Csv.cells := map (fun key => (key, Some (value r key))) header;
                            Csv.rest_values := [] |})
                    records)
       /\ length rows = length records.
Proof.
  intros header value rows.
  assert (header = preferred ++ first_seen preferred (concat (map keys records)))
    as Hheader by apply infer_fieldnames_eq.
  split; [exact Hheader|].
  split; [rewrite Hheader; reflexivity|].
  split.
  { rewrite Hheader. apply NoDup_app. split; [|split].
    - apply (@bool_decide_unpack _ (NoDup_dec preferred)). vm_compute. exact I.
    - intros k Hk Hk'. apply first_seen_only in Hk'. tauto.
    - apply first_seen_NoDup. }
  split; [intros r key; apply infer_fieldnames_covers|].
  exists (Csv.write_row header ++ concat (map Csv.write_row rows)).
  assert (Csv.read (Csv.write_row header ++ concat (map Csv.write_row rows))
          = Some (header :: rows)) as Hread
    by apply (CsvFacts.read_written (header :: rows)).
  split; [|split; [done|split; [exact Hread|split]]].
  - unfold csv_text. fold header.
    rewrite write_rows_ok by (intros r key; apply infer_fieldnames_covers).
    unfold rows. rewrite map_map. done.
  - unfold Csv.dict_reader. rewrite Hread. f_equal. f_equal.
    assert (filter (fun row => row <> []) rows = rows) as ->.
    { apply filter_nonempty_all, Forall_forall. intros row Hrow.
      unfold rows in Hrow. apply list_elem_of_fmap in Hrow as (r & -> & _).
      rewrite Hheader. discriminate. }
    unfold rows. rewrite map_map. apply map_ext. intros r. f_equal.
    + apply zip_row_full.
    + apply drop_ge. by rewrite length_map.
  - unfold rows. apply length_map.
Qed.

End IoFacts.

(** * More about src/extract.py *)
Module ExtractProps.
Import Re Extract TextFacts ReFacts ExtractFacts.

Lemma collapse_blanks_clean (text : str) :
  forall f, Forall (fun c => is_blank c = false) (collapse_blanks f text).
Proof.
  induction text as [|c text IH]; intros f; cbn [collapse_blanks]; [constructor|].
  destruct (is_blank c) eqn:Ec.
  - destruct f; [apply IH|]. constructor; [reflexivity | apply IH].
  - constructor; [exact Ec | apply IH].
Qed.

Lemma collapse_blanks_id (text : str) :
  Forall (fun c => is_blank c = false) text ->
  forall f, collapse_blanks f text = text.
Proof.
  induction 1 as [|c text Hc _ IH]; intros f; cbn [collapse_blanks]; [reflexivity|].
  rewrite Hc, IH. reflexivity.
Qed.

Lemma collapse_blanks_length (text : str) :
  forall f, (length (collapse_blanks f text) <= length text)%nat.
Proof.
  induction text as [|c text IH]; intros f; cbn [collapse_blanks length]; [lia|].
  pose proof (IH true). pose proof (IH false).
  destruct (is_blank c); [destruct f|]; cbn [length]; lia.
Qed.

(** X1: [normalize_whitespace] leaves no TAB, VT, FF or CR in the text,
    never makes the text longer, and applying it a second time changes
    nothing. *)
Theorem normalize_whitespace_removes_blanks_once (text : str) :
  Forall (fun c => is_blank c = false) (normalize_whitespace text)
  /\ (length (normalize_whitespace text) <= length text)%nat
  /\ normalize_whitespace (normalize_whitespace text) = normalize_whitespace text.
Proof.
  unfold normalize_whitespace. split; [apply collapse_blanks_clean|].
  split; [apply collapse_blanks_length|].
  apply collapse_blanks_id, collapse_blanks_clean.
Qed.

(** ** The manufacturer *)

Lemma contains_prefix (k rest s : str) :
  Text.contains (k ++ rest) s = true -> Text.contains k s = true.
Proof.
  intros H. apply contains_split in H as (a & b & ->).
  rewrite <- app_assoc. apply contains_app.
Qed.

(** X2: the keyword "ge" comes before "general electric" in the list and
    is a part of it, so the manufacturer is never "General Electric": a
    text that holds "general electric" gets "Ge" or a brand listed before
    it. *)
Theorem general_electric_is_never_reported (text : str) :
  detect_manufacturer text <> Some $"General Electric"
  /\ (Text.contains $"general electric" (Text.lower text) = true ->
      exists brand,
        brand ∈ take 8 MANUFACTURER_KEYWORDS
        /\ detect_manufacturer text = Some (title_case brand)).
Proof.
  assert (Text.contains $"general electric" (Text.lower text) = true ->
          Text.contains $"ge" (Text.lower text) = true) as Hge
    by apply (contains_prefix $"ge" $"neral electric").
  unfold detect_manufacturer, MANUFACTURER_KEYWORDS. cbn [List.find].
  repeat
    (lazymatch goal with
     | |- context [if Text.contains ?k ?l then _ else _] =>
         destruct (Text.contains k l) eqn:?
     end;
     cbv iota;
     [ first
         [ exfalso; discriminate (Hge eq_refl)
         | split;
           [ vm_compute; discriminate
           | first
               [ intros _; eexists; split; [|reflexivity];
                 apply (bool_decide_unpack _); vm_compute; exact I
               | intros Hc; discriminate (Hge Hc) ] ] ]
     | ]).
  split; [discriminate | intros Hc; discriminate (Hge Hc)].
Qed.

(** ** Model and serial numbers *)

Lemma find_first_group_run (p : ascii -> bool) (patterns : list regex)
    (text g : str) :
  (forall c, p c = true -> Text.is_space c = false) ->
  Forall (fun r => exists i, ends_with i p r /\ (1 <= i <= ngroups r)%nat)
    patterns ->
  find_first_group patterns text = Some g ->
  g <> [] /\ forallb p g = true.
Proof.
  intros Hp. induction 1 as [|r rest (i & Hends & Hi) _ IH];
    cbn [find_first_group]; [discriminate|].
  destruct (search r text) as [m|] eqn:Es; [|exact IH].
  pose proof (search_groups _ _ _ Es) as Hn.
  apply (search_ends_with i p) in Es as (g0 & caps' & Hcaps & Hg0 & Hne);
    [|assumption].
  unfold lastindex, group. rewrite Hcaps.
  change (default 0%nat (Some i)) with i.
  destruct (i =? 0)%nat eqn:E0; [apply Nat.eqb_eq in E0; lia|].
  replace (i <=? pattern_groups m)%nat with true
    by (symmetry; apply Nat.leb_le; lia).
  rewrite lookup_group_head. intros [= <-].
  assert (Forall (fun c => Text.is_space c = false) g0) as Hns
    by (eapply forallb_Forall_impl; eassumption).
  assert (Text.strip g0 = g0) as ->; [|done].
  apply strip_by_id; intros c Hc.
  - eapply (head_Forall _ _ _ Hns); eassumption.
  - eapply (last_Forall _ _ _ Hns); eassumption.
Qed.

(** X3: what [find_first_group] returns for the model patterns is a
    non-empty run of word characters, hyphens, slashes and dots, and for
    the serial patterns a non-empty run of word characters, hyphens and
    slashes: never blank, and without any whitespace inside. *)
Theorem model_and_serial_are_runs_of_their_class (text : str) :
  match find_first_group MODEL_HINTS text with
  | Some g =>
      g <> [] /\ forallb (fun c => is_word c || Text.mem_char c $"-/.") g = true
  | None => True
  end
  /\ match find_first_group SERIAL_HINTS text with
     | Some g =>
         g <> [] /\ forallb (fun c => is_word c || Text.mem_char c $"-/") g = true
     | None => True
     end.
Proof.
  split.
  - destruct (find_first_group MODEL_HINTS text) as [g|] eqn:E; [|exact I].
    apply (find_first_group_run _ _ _ _ model_class_no_space model_hints_shape E).
  - destruct (find_first_group SERIAL_HINTS text) as [g|] eqn:E; [|exact I].
    apply (find_first_group_run _ _ _ _ serial_class_no_space serial_hints_shape E).
Qed.

(** ** The capacity *)

(** X4: [parse_capacity] never raises, and a capacity it finds is two or
    three decimal digits followed by " gal" or by " L". *)
Theorem capacity_is_digits_and_unit (text : str) :
  match parse_capacity text with
  | inr (Some s) =>
      exists g,
        forallb is_digit g = true /\ (2 <= length g <= 3)%nat
        /\ (s = g ++ $" gal" \/ s = g ++ $" L")
  | inr None => True
  | inl _ => False
  end.
Proof.
  destruct (parse_capacity_in_spec CAPACITY_HINTS text capacity_hints_shape)
    as (v & Hv & Hshape).
  unfold parse_capacity. rewrite Hv. destruct v as [s|]; [|exact I].
  destruct (Hshape s eq_refl) as (g & unit_ & -> & Hg & Hlen & Hunit).
  exists g. destruct Hunit as [-> | ->]; auto.
Qed.

(** A literal word matches a piece of the text that is the word up to
    letter case. *)
Lemma go_lit {R : Type} (w : str) :
  w <> [] ->
  forall prev s caps (k : cont R) x,
    go (lit w) prev s caps k = Some x ->
    exists u s' prev',
      s = u ++ s' /\ Text.lower u = Text.lower w /\ k prev' s' caps = Some x.
Proof.
  induction w as [|c w IH]; [done|]. intros _ prev s caps k x.
  destruct w as [|c2 w].
  - cbn [lit ci go]. destruct s as [|y s]; [discriminate|].
    destruct (Ascii.eqb (Text.lower_char y) (Text.lower_char c)) eqn:E;
      [|discriminate].
    apply Ascii.eqb_eq in E. intros Hk. exists [y], s, (Some y).
    cbn. by rewrite E.
  - change (lit (c :: c2 :: w)) with (Seq (ci c) (lit (c2 :: w))).
    cbn [go ci]. destruct s as [|y s]; [discriminate|].
    destruct (Ascii.eqb (Text.lower_char y) (Text.lower_char c)) eqn:E;
      [|discriminate].
    apply Ascii.eqb_eq in E. intros Hk.
    apply IH in Hk as (u & s' & prev' & -> & Hu & Hk); [|done].
    exists (y :: u), s', prev'. split; [reflexivity|]. split; [|exact Hk].
    cbn [Text.lower map]. fold (Text.lower u). fold (Text.lower (c2 :: w)).
    by rewrite E, Hu.
Qed.

(** X5: the pattern for gallons is tried first, so as soon as the text
    holds two or three digits followed by "gal", "gallon" or "gallons",
    the capacity is given in gallons, whatever litres the text also
    mentions, before or after. *)
Theorem gallons_win_over_litres (text : str) (pat : regex) (rest : list regex)
    (m : Match) :
  CAPACITY_HINTS = pat :: rest ->
  search pat text = Some m ->
  exists g,
    parse_capacity text = inr (Some (g ++ $" gal"))
    /\ forallb is_digit g = true /\ (2 <= length g <= 3)%nat.
Proof.
  intros Hpat Hs. unfold parse_capacity. rewrite Hpat.
  cbn [parse_capacity_in]. rewrite Hs.
  apply (f_equal head) in Hpat. cbn [head CAPACITY_HINTS] in Hpat.
  apply (inj Some) in Hpat.
  change (Seq (Grp 1 (Rep digit 2 (Some 3%nat)))
            (Seq (star space)
               (Seq (Grp 2 (Alt (lit $"gal")
                              (Alt (lit $"gallon") (lit $"gallons"))))
                  WordB)) = pat) in Hpat.
  subst pat.
  pose proof (search_groups _ _ _ Hs) as Hgroups.
  apply search_here in Hs as (prev & s & prev' & s' & Hm).
  unfold match_here in Hm. cbn [seqs go] in Hm.
  apply class_loop in Hm as (g & s1 & prev1 & -> & Hg & Hlo & Hhi & Hk).
  rewrite take_app_length_diff in Hk.
  apply class_loop in Hk as (sp & s2 & prev2 & -> & _ & _ & _ & Hk).
  cbn [alts] in Hk.
  assert (exists u s3 prev3,
             s2 = u ++ s3
             /\ Text.starts_with $"gal" (Text.lower u) = true
             /\ go WordB prev3 s3
                  ((2%nat, take (length s2 - length s3) s2) :: [(1%nat, g)])
                  (fun prev' s' caps' =>
                     Some ({| whole :=
                                take (length (g ++ sp ++ s2) - length s')
                                  (g ++ sp ++ s2);
                              caps := caps';
                              pattern_groups :=
                                ngroups
                                  (Seq (Grp 1 (Rep digit 2 (Some 3%nat)))
                                     (Seq (star space)
                                        (Seq (Grp 2
                                                (Alt (lit $"gal")
                                                   (Alt (lit $"gallon")
                                                      (lit $"gallons"))))
                                           WordB))) |}, prev', s'))
                = Some (m, prev', s'))
    as (u & s3 & prev3 & -> & Hu & Hw).
  { destruct (go (lit $"gal") prev2 s2 _ _) eqn:E1 in Hk.
    - injection Hk as ->. apply go_lit in E1 as (u & s3 & p3 & -> & Hl & Hw);
        [|done]. exists u, s3, p3. rewrite Hl. done.
    - destruct (go (lit $"gallon") prev2 s2 _ _) eqn:E2 in Hk.
      + injection Hk as ->. apply go_lit in E2 as (u & s3 & p3 & -> & Hl & Hw);
          [|done]. exists u, s3, p3. rewrite Hl. done.
      + apply go_lit in Hk as (u & s3 & p3 & -> & Hl & Hw); [|done].
        exists u, s3, p3. rewrite Hl. done. }
  rewrite take_app_length_diff in Hw. cbn [go] in Hw.
  destruct (xorb _ _); [|discriminate]. injection Hw as <- _ _.
  unfold group. cbn [caps pattern_groups lookup_group Nat.eqb Nat.leb ngroups
                     Nat.add].
  cbv beta iota zeta.
  replace (Text.starts_with $"gal" (Text.lower u)) with true
    by (symmetry; exact Hu).
  exists g. split; [reflexivity|]. split; [exact Hg|].
  split; [lia|]. specialize (Hhi 3%nat eq_refl). lia.
Qed.

(** ** The date of manufacture *)

Lemma str_of_nat_length (width bound : nat) :
  forallb (fun n => (length (Text.str_of_Z (Z.of_nat n)) <=? width)%nat)
    (seq 0 bound) = true ->
  forall n, (n < bound)%nat -> (length (Text.str_of_Z (Z.of_nat n)) <= width)%nat.
Proof.
  intros Hall n Hn. rewrite forallb_forall in Hall.
  apply Nat.leb_le, Hall, in_seq. lia.
Qed.

Lemma pad_left_length (width : nat) (s : str) :
  (length s <= width)%nat -> length (pad_left width s) = width.
Proof.
  intros Hs. unfold pad_left. rewrite length_app, length_replicate. lia.
Qed.

Section WithDateLib.
Context `{DateLib}.

Lemma first_parsed_from (candidates : list str) (v : str) :
  first_parsed candidates = Some v ->
  exists cand d,
    cand ∈ candidates /\ dateutil_parse cand = Some d /\ v = isoformat d.
Proof.
  induction candidates as [|cand rest IH]; cbn [first_parsed]; [discriminate|].
  destruct (dateutil_parse cand) as [d|] eqn:Ed.
  - intros [= <-]. exists cand, d. split; [left|done].
  - intros Hv. destruct (IH Hv) as (c & d & Hc & Hd & ->).
    exists c, d. split; [by right|done].
Qed.

(** X6: when the date parser returns calendar dates (a year of at most
    four digits, a month and a day of at most two), the date of manufacture
    is written as four digits, a hyphen, two digits, a hyphen and two
    digits. *)
Theorem date_of_manufacture_is_iso_shaped (text v : str) :
  (forall cand d,
      dateutil_parse cand = Some d ->
      Z.of_nat (year d) <= 9999 /\ (month d <= 12)%nat /\ (day d <= 31)%nat) ->
  parse_date_of_manufacture text = Some v ->
  exists y m d,
    v = y ++ $"-" ++ m ++ $"-" ++ d
    /\ length y = 4%nat /\ length m = 2%nat /\ length d = 2%nat
    /\ forallb is_digit (y ++ m ++ d) = true.
Proof.
  intros Hcal Hv. unfold parse_date_of_manufacture in Hv.
  apply first_parsed_from in Hv as (cand & dt & _ & Hdt & ->).
  destruct (Hcal _ _ Hdt) as (Hy & Hm & Hd).
  exists (pad_left 4 (Text.str_of_Z (Z.of_nat (year dt)))),
         (pad_left 2 (Text.str_of_Z (Z.of_nat (month dt)))),
         (pad_left 2 (Text.str_of_Z (Z.of_nat (day dt)))).
  split; [reflexivity|].
  split; [apply pad_left_length, (str_of_nat_length 4 (100 * 100));
          [vm_compute; reflexivity | lia]|].
  split; [apply pad_left_length, (str_of_nat_length 2 100);
          [vm_compute; reflexivity | lia]|].
  split; [apply pad_left_length, (str_of_nat_length 2 100);
          [vm_compute; reflexivity | lia]|].
  rewrite !forallb_app, !pad_left_digits by apply str_of_nat_digits.
  reflexivity.
Qed.

End WithDateLib.

Import Demo.

Lemma general_electric_witness :
  exists brand,
    brand ∈ take 8 MANUFACTURER_KEYWORDS
    /\ detect_manufacturer $"made by general electric co."
       = Some (title_case brand).
Proof.
  apply (proj2 (general_electric_is_never_reported
                  $"made by general electric co.")).
  vm_compute. reflexivity.
Defined.

Lemma gallons_win_witness :
  exists g,
    parse_capacity $"189 L tank (50 Gallons)" = inr (Some (g ++ $" gal"))
    /\ forallb is_digit g = true /\ (2 <= length g <= 3)%nat.
Proof.
  eapply (gallons_win_over_litres $"189 L tank (50 Gallons)").
  - reflexivity.
  - vm_compute. reflexivity.
Defined.

Lemma date_of_manufacture_witness :
  exists y m d,
    $"2019-03-14" = y ++ $"-" ++ m ++ $"-" ++ d
    /\ length y = 4%nat /\ length m = 2%nat /\ length d = 2%nat
    /\ forallb is_digit (y ++ m ++ d) = true.
Proof.
  apply (@date_of_manufacture_is_iso_shaped dates $"DOM: 03/14/2019").
  - intros cand d Hd. cbn in Hd. case_bool_decide; [|discriminate].
    assert (d = {| year := 2019; month := 3; day := 14 |}) as ->
      by congruence.
    cbn. lia.
  - vm_compute. reflexivity.
Defined.

End ExtractProps.

(** * More about src/ocr.py and the rotation selector *)
Module OcrProps.
Import Selector SelectorFacts TextFacts.

(** ** The language codes *)

Lemma split_commas_no_comma (s : str) :
  forall cur,
    Forall (fun c => c <> ","%char) cur ->
    Forall (Forall (fun c => c <> ","%char)) (Main.split_commas cur s).
Proof.
  induction s as [|c s IH]; intros cur Hcur; cbn [Main.split_commas].
  - constructor; [|constructor]. by apply Forall_reverse.
  - destruct (Ascii.eqb c ",") eqn:Ec.
    + constructor; [by apply Forall_reverse | apply IH; constructor].
    + apply IH. constructor; [|exact Hcur]. intros ->. discriminate.
Qed.

Lemma strip_strip (s : str) : Text.strip (Text.strip s) = Text.strip s.
Proof.
  apply strip_by_id; intros c Hc.
  - eapply strip_by_head; exact Hc.
  - eapply strip_by_last; exact Hc.
Qed.

Lemma language_codes_clean (arg : str) :
  Forall (fun l => l <> [] /\ Text.strip l = l /\ ","%char ∉ l)
    (filter (fun l => l <> []) (map Text.strip (Main.split_commas [] arg))).
Proof.
  apply Forall_forall. intros l Hl.
  apply list_elem_of_filter in Hl as [Hne Hl].
  apply list_elem_of_fmap in Hl as (piece & -> & Hpiece).
  split; [exact Hne|]. split; [apply strip_strip|].
  pose proof (split_commas_no_comma arg [] (Forall_nil_2 _)) as Hall.
  rewrite Forall_forall in Hall. specialize (Hall _ Hpiece).
  apply (strip_by_Forall _ Text.is_space) in Hall.
  rewrite Forall_forall in Hall. intros Hin. by apply (Hall _ Hin).
Qed.

(** ** The mean confidence *)

Lemma sum_bounds (lo hi : Q) (l : list Q) :
  Forall (fun x => (lo <= x <= hi)%Q) l ->
  (inject_Z (Z.of_nat (length l)) * lo <= fold_right Qplus 0 l
   /\ fold_right Qplus 0 l <= inject_Z (Z.of_nat (length l)) * hi)%Q.
Proof.
  induction 1 as [|x l [Hlo Hhi] _ [IHlo IHhi]].
  - cbn [length fold_right]. change (inject_Z (Z.of_nat 0)) with 0%Q. split; lra.
  - cbn [length fold_right]. rewrite Nat2Z.inj_succ. unfold Z.succ.
    rewrite inject_Z_plus. change (inject_Z 1) with 1%Q. split; lra.
Qed.

Lemma mean_bounds (lo hi : Q) (l : list Q) :
  l <> [] -> Forall (fun x => (lo <= x <= hi)%Q) l ->
  (lo <= Ocr.mean l <= hi)%Q.
Proof.
  intros Hne Hall. destruct (sum_bounds lo hi l Hall) as [Hlo Hhi].
  assert (0 < inject_Z (Z.of_nat (length l)))%Q as Hn.
  { change 0%Q with (inject_Z 0). rewrite <- Zlt_Qlt.
    destruct l; [done|]. cbn [length]. lia. }
  unfold Ocr.mean. split.
  - apply Qle_shift_div_l; [exact Hn|]. lra.
  - apply Qle_shift_div_r; [exact Hn|]. lra.
Qed.

Section WithLibs.
Context `{OcrLib}.

(** X7: the EasyOCR adapter drops the lines whose text is blank.  When no
    line is left it returns the empty text with the sentinel -1; otherwise
    it returns the lines left, one per line, with a confidence that lies
    between the bounds of the confidences the library reported (so a
    library whose confidences are between 0 and 1 never yields the
    sentinel for a text that was read). *)
Theorem easyocr_confidence_is_sentinel_or_within_bounds (self : OCREngine)
    (image_bgr : image) (lo hi : Q) :
  Forall (fun r => (lo <= snd r <= hi)%Q)
    (easyocr_readtext (Ocr.languages self) image_bgr) ->
  match filter (fun r => Text.strip (fst r) <> [])
          (easyocr_readtext (Ocr.languages self) image_bgr) with
  | [] => Ocr._run_easyocr self image_bgr = ([], (-1)%Q)
  | kept =>
      fst (Ocr._run_easyocr self image_bgr)
      = Text.join ["010"%char] (map fst kept)
      /\ (lo <= snd (Ocr._run_easyocr self image_bgr) <= hi)%Q
  end.
Proof.
  intros Hall. unfold Ocr._run_easyocr.
  set (results := easyocr_readtext _ _) in *.
  assert (Forall (fun r => (lo <= snd r <= hi)%Q)
            (filter (fun r => Text.strip (fst r) <> []) results)) as Hkept.
  { apply Forall_forall. intros r Hr. apply list_elem_of_filter in Hr as [_ Hr].
    rewrite Forall_forall in Hall. by apply Hall. }
  destruct (filter _ results) as [|r kept] eqn:Ek; [reflexivity|].
  cbn [fst snd]. split; [reflexivity|].
  cbn [map]. apply (mean_bounds lo hi (snd r :: map snd kept)); [done|].
  change (snd r :: map snd kept) with (snd <$> (r :: kept)).
  by apply Forall_fmap.
Qed.

(** X8: the engine that [main] builds from the value of [--languages]
    never has an empty list of languages (an empty list is replaced by
    ["en"]), none of its codes is empty, has whitespace around it or holds
    a comma, and building it leaves the world as it was. *)
Theorem engine_languages_are_clean (engine_type : OCREngineType) (arg : str)
    (w w' : world) (engine : OCREngine) :
  Ocr.init engine_type
    (filter (fun l => l <> []) (map Text.strip (Main.split_commas [] arg))) w
  = (Ok engine, w') ->
  w' = w
  /\ Ocr.engine_type engine = engine_type
  /\ Ocr.languages engine <> []
  /\ Forall (fun l => l <> [] /\ Text.strip l = l /\ ","%char ∉ l)
       (Ocr.languages engine).
Proof.
  pose proof (language_codes_clean arg) as Hclean.
  set (langs := filter _ _) in *. clearbody langs.
  assert (Forall (fun l => l <> [] /\ Text.strip l = l /\ ","%char ∉ l)
            (match langs with [] => [ $"en" ] | _ => langs end)
          /\ match langs with [] => [ $"en" ] | _ => langs end <> []) as [Hl Hne].
  { destruct langs; [|done]. split; [|done].
    constructor; [|constructor]. split; [done|]. split; [reflexivity|].
    intros Hin. apply list_elem_of_In in Hin. cbn in Hin.
    destruct Hin as [?|[?|[]]]; discriminate. }
  unfold Ocr.init, ret, raise.
  destruct engine_type;
    [destruct (easyocr_available _) | destruct pytesseract_available];
    intros [= <- <-]; done.
Qed.

(** ** The selector over several images *)

Lemma scan_app (b : str * Q * Z) (l1 l2 : list (str * Q * Z)) :
  scan b (l1 ++ l2) = scan (scan b l1) l2.
Proof. unfold scan. apply fold_left_app. Qed.

Lemma try_images_pure (engine : OCREngine) (rots : list Z) (paths : list Path) :
  forall best w r w',
    try_images engine paths None rots best w = (Ok r, w') ->
    w' = w
    /\ exists imgs,
         Forall2 (fun p img => Preprocess.read_image_bgr p w = (Ok img, w))
           paths imgs
         /\ r = scan best
                  (concat (map (fun img => attempts engine img rots) imgs)).
Proof.
  induction paths as [|p paths IH]; intros best w r w'; cbn [try_images].
  - intros [= <- <-]. split; [reflexivity|]. exists []. split; [constructor|done].
  - intros Hrun. apply bind_ok in Hrun as (img & w1 & Hread & Hrun).
    pose proof (read_image_bgr_world _ _ _ _ Hread) as ->.
    rewrite (bind_eq _ _ _ _ _ (try_rotations_pure engine p img rots best w))
      in Hrun.
    apply IH in Hrun as (-> & imgs & Himgs & ->).
    split; [reflexivity|]. exists (img :: imgs). split; [by constructor|].
    cbn [map concat]. by rewrite scan_app.
Qed.

(** X9: given several images and no directory for the preprocessed
    pictures, the selector leaves the world as it was, and what it returns
    is the running best over the attempts of all the images in order: no
    attempt has a greater confidence than the result, and the result is one
    of the attempts or the initial ("", -1, 0). *)
Theorem selector_over_several_images (engine : OCREngine)
    (image_paths : list Path) (rotation_mode : str) (w w' : world)
    (r : str * Q * Z) :
  choose_best_ocr_result engine image_paths None rotation_mode w = (Ok r, w') ->
  w' = w
  /\ exists imgs tries,
       Forall2 (fun p img => Preprocess.read_image_bgr p w = (Ok img, w))
         image_paths imgs
       /\ tries = concat (map (fun img =>
                                 attempts engine img
                                   (rotation_candidates rotation_mode)) imgs)
       /\ r = scan initial_best tries
       /\ Forall (fun t => (conf_of t <= conf_of r)%Q) tries
       /\ (r = initial_best \/ r ∈ tries).
Proof.
  intros Hrun. apply try_images_pure in Hrun as (-> & imgs & Himgs & ->).
  split; [reflexivity|]. eexists imgs, _. split; [exact Himgs|].
  split; [reflexivity|]. split; [reflexivity|].
  set (tries := concat _).
  destruct (scan_spec tries initial_best)
    as [[-> Hall] | (pre & post & Hsplit & Hlt & Hpre & Hpost)].
  - split; [exact Hall | by left].
  - split; [|right; rewrite Hsplit at 2; set_solver].
    rewrite Hsplit at 1. apply Forall_app. split.
    + eapply Forall_impl; [exact Hpre|]. intros t Ht. by apply Qlt_le_weak.
    + constructor; [apply Qle_refl | exact Hpost].
Qed.

End WithLibs.
Import Demo Scenarios.

Lemma easyocr_confidence_witness :
  fst (Ocr._run_easyocr easyocr_engine ($"RHEEM", 90%Z)) = $"RHEEM @90"
  /\ (0 <= snd (Ocr._run_easyocr easyocr_engine ($"RHEEM", 90%Z)) <= 1)%Q.
Proof.
  apply (@easyocr_confidence_is_sentinel_or_within_bounds imaging ocr
           easyocr_engine ($"RHEEM", 90%Z) 0%Q 1%Q).
  repeat constructor; cbn; unfold Qle; cbn; lia.
Defined.

Lemma engine_languages_witness :
  one_photo = one_photo
  /\ Ocr.engine_type
       {| Ocr.engine_type := EASYOCR; Ocr.languages := [ $"en"; $"fr" ] |}
     = EASYOCR
  /\ [ $"en"; $"fr" ] <> []
  /\ Forall (fun l => l <> [] /\ Text.strip l = l /\ ","%char ∉ l)
       [ $"en"; $"fr" ].
Proof.
  apply (@engine_languages_are_clean imaging ocr EASYOCR $" en , ,fr"
           one_photo one_photo
           {| Ocr.engine_type := EASYOCR; Ocr.languages := [ $"en"; $"fr" ] |}).
  vm_compute. reflexivity.
Defined.

Lemma selector_over_several_images_witness :
  mixed_folder = mixed_folder
  /\ exists imgs tries,
       Forall2 (fun p img =>
                  Preprocess.read_image_bgr p mixed_folder
                  = (Ok img, mixed_folder))
         [ [ $"in"; $"a.jpg" ]; [ $"in"; $"c.png" ] ] imgs
       /\ tries = concat (map (fun img =>
                                 attempts easyocr_engine img
                                   (rotation_candidates $"auto")) imgs)
       /\ ($"RHEEM Model No: ABC-123 @90", (9 # 10)%Q, 90)
          = scan initial_best tries
       /\ Forall (fun t => (conf_of t <= 9 # 10)%Q) tries
       /\ (($"RHEEM Model No: ABC-123 @90", (9 # 10)%Q, 90) = initial_best
           \/ ($"RHEEM Model No: ABC-123 @90", (9 # 10)%Q, 90) ∈ tries).
Proof.
  apply (@selector_over_several_images imaging ocr easyocr_engine
           [ [ $"in"; $"a.jpg" ]; [ $"in"; $"c.png" ] ] $"auto"
           mixed_folder mixed_folder
           ($"RHEEM Model No: ABC-123 @90", (9 # 10)%Q, 90)).
  vm_compute. reflexivity.
Defined.

End OcrProps.

(** * More about the files the program writes *)
Module FsProps.
Import Main HeicUtils HeicFacts.

(** ** Directories *)

Lemma mkdir_each_result (ps : list Path) :
  forall w r w',
    Fs.mkdir_each ps w = (r, w') ->
    (forall a, a ∉ ps -> fs w' !! a = fs w !! a)
    /\ match r with
       | Ok _ => forall a, a ∈ ps -> fs w' !! a = Some Dir
       | Raise e =>
           exists a data,
             a ∈ ps /\ fs w !! a = Some (File data) /\ e = OSError a
       end.
Proof.
  induction ps as [|p rest IH]; intros w r w' Hrun.
  - cbn in Hrun. injection Hrun as <- <-. split; [done|]. intros a Ha.
    by apply elem_of_nil in Ha.
  - cbn [Fs.mkdir_each] in Hrun. run_unfold.
    destruct (fs w !! p) as [[|data]|] eqn:Ep.
    + pose proof (mkdir_each_keeps _ _ _ _ Hrun) as Hkeep.
      apply IH in Hrun as [Hout Hres]. split.
      * intros a Ha. apply Hout. set_solver.
      * destruct r as [[]|e].
        -- intros a Ha. apply elem_of_cons in Ha as [->|Ha]; [|by apply Hres].
           by apply Hkeep.
        -- destruct Hres as (a & data & Ha & Hfile & ->).
           exists a, data. split; [by right|done].
    + injection Hrun as <- <-. split; [done|].
      exists p, data. split; [by left|done].
    + pose proof (mkdir_each_keeps _ _ _ _ Hrun) as Hkeep.
      apply IH in Hrun as [Hout Hres]. cbn [fs] in *. split.
      * intros a Ha. rewrite Hout by set_solver.
        apply lookup_insert_ne. set_solver.
      * destruct r as [[]|e].
        -- intros a Ha. apply elem_of_cons in Ha as [->|Ha]; [|by apply Hres].
           apply Hkeep. cbn [fs]. by rewrite lookup_insert_eq.
        -- destruct Hres as (a & data & Ha & Hfile & ->).
           exists a, data. split; [by right|]. split; [|done].
           destruct (decide (p = a)) as [->|Hne].
           ++ rewrite lookup_insert_eq in Hfile. discriminate.
           ++ by rewrite lookup_insert_ne in Hfile.
Qed.

Lemma mkdir_each_again (ps : list Path) (w : world) :
  (forall a, a ∈ ps -> fs w !! a = Some Dir) ->
  Fs.mkdir_each ps w = (Ok tt, w).
Proof.
  induction ps as [|p rest IH]; intros Hdirs; [reflexivity|].
  cbn [Fs.mkdir_each]. run_unfold. rewrite (Hdirs p) by left.
  apply IH. intros a Ha. apply Hdirs. by right.
Qed.

(** X10: when [ensure_directory] returns, the path and all its ancestors
    are directories, nothing else in the file tree has changed, and calling
    it again changes nothing; it raises exactly when it meets a regular
    file on the way, with that file named in the error. *)
Theorem ensure_directory_makes_the_chain_or_names_the_file (path : Path)
    (w : world) :
  match ensure_directory path w with
  | (Ok _, w') =>
      (forall a, a ∈ Fs.ancestors_and_self path -> fs w' !! a = Some Dir)
      /\ (forall a, a ∉ Fs.ancestors_and_self path -> fs w' !! a = fs w !! a)
      /\ keeps_files w w'
      /\ ensure_directory path w' = (Ok tt, w')
  | (Raise e, w') =>
      exists a data,
        a ∈ Fs.ancestors_and_self path /\ fs w !! a = Some (File data)
        /\ e = OSError a /\ keeps_files w w'
  end.
Proof.
  unfold ensure_directory, Fs.mkdir_parents.
  destruct (Fs.mkdir_each (Fs.ancestors_and_self path) w) as [r w'] eqn:Hrun.
  pose proof (mkdir_each_keeps _ _ _ _ Hrun) as Hkeep.
  apply mkdir_each_result in Hrun as [Hout Hres].
  destruct r as [[]|e].
  - repeat split; auto. by apply mkdir_each_again.
  - destruct Hres as (a & data & Ha & Hfile & ->). by exists a, data.
Qed.

(** ** Files *)

Lemma not_own_ancestor (p : Path) : p ∉ Fs.ancestors_and_self (parent p).
Proof.
  destruct (decide (p = [])) as [->|Hne]; [by apply not_elem_of_nil|].
  rewrite (app_removelast_last [] Hne) at 1. apply joinpath_not_ancestor.
Qed.

(** What [path.parent.mkdir(parents=True, exist_ok=True)] followed by a
    write of [data] to [path] does. *)
Lemma write_after_mkdir (path : Path) (data : bytes) (w : world) :
  match (Fs.mkdir_parents (parent path) ;;; Fs.write_bytes path data) w with
  | (Ok _, w') =>
      Fs.read_bytes path w' = (Ok data, w')
      /\ (forall a, a ∈ Fs.ancestors_and_self (parent path) ->
                    fs w' !! a = Some Dir)
      /\ (forall a, a <> path -> a ∉ Fs.ancestors_and_self (parent path) ->
                    fs w' !! a = fs w !! a)
  | (Raise e, w') =>
      keeps_files w w'
      /\ ((fs w !! path = Some Dir /\ e = OSError path)
          \/ exists a data,
               a ∈ Fs.ancestors_and_self (parent path)
               /\ fs w !! a = Some (File data) /\ e = OSError a)
  end.
Proof.
  unfold Fs.mkdir_parents, bind.
  destruct (Fs.mkdir_each (Fs.ancestors_and_self (parent path)) w)
    as [r w1] eqn:Hrun.
  pose proof (mkdir_each_keeps _ _ _ _ Hrun) as Hkeep.
  apply mkdir_each_result in Hrun as [Hout Hres].
  destruct r as [[]|e].
  - run_unfold. destruct (fs w1 !! path) as [[|old]|] eqn:Ep.
    + split; [exact Hkeep|]. left. split; [|reflexivity].
      rewrite <- Ep. symmetry. apply Hout, not_own_ancestor.
    + cbn [fs]. rewrite lookup_insert_eq. split; [reflexivity|].
      split.
      * intros a Ha. rewrite lookup_insert_ne; [by apply Hres|].
        intros ->. by apply (not_own_ancestor a).
      * intros a Hne Ha. rewrite lookup_insert_ne by done. by apply Hout.
    + cbn [fs]. rewrite lookup_insert_eq. split; [reflexivity|].
      split.
      * intros a Ha. rewrite lookup_insert_ne; [by apply Hres|].
        intros ->. by apply (not_own_ancestor a).
      * intros a Hne Ha. rewrite lookup_insert_ne by done. by apply Hout.
  - split; [exact Hkeep|]. right. destruct Hres as (a & old & Ha & Hfile & ->).
    by exists a, old.
Qed.

Lemma write_after_mkdir_fails (path : Path) (data : bytes) (w w' : world)
    (e : exn) :
  (Fs.mkdir_parents (parent path) ;;; Fs.write_bytes path data) w = (Raise e, w') ->
  fs w' !! path = fs w !! path
  /\ stdout w' = stdout w /\ calls w' = calls w.
Proof.
  unfold Fs.mkdir_parents, bind.
  destruct (Fs.mkdir_each (Fs.ancestors_and_self (parent path)) w)
    as [r w1] eqn:Hrun.
  pose proof (mkdir_each_spec _ _ _ _ Hrun) as (Hout & Hcalls & _ & _).
  apply mkdir_each_result in Hrun as [Hsame _].
  specialize (Hsame path (not_own_ancestor path)).
  destruct r as [[]|e1].
  - run_unfold. destruct (fs w1 !! path) as [[|old]|] eqn:Ep; intros [= _ <-].
    by rewrite Ep.
  - intros [= _ <-]. done.
Qed.

(** X11: after [write_text] returns, reading the file gives the content
    back (the empty text when the content is [None]), the directories above
    it exist and no other entry has changed; it raises only when the path
    is a directory or a regular file stands where a directory is needed,
    and then no existing entry has changed. *)
Theorem write_text_reads_back (path : Path) (content : option str) (w : world) :
  match IoUtils.write_text path content w with
  | (Ok _, w') =>
      Fs.read_bytes path w' = (Ok (default [] content), w')
      /\ (forall a, a ∈ Fs.ancestors_and_self (parent path) ->
                    fs w' !! a = Some Dir)
      /\ (forall a, a <> path -> a ∉ Fs.ancestors_and_self (parent path) ->
                    fs w' !! a = fs w !! a)
  | (Raise e, w') =>
      keeps_files w w'
      /\ ((fs w !! path = Some Dir /\ e = OSError path)
          \/ exists a data,
               a ∈ Fs.ancestors_and_self (parent path)
               /\ fs w !! a = Some (File data) /\ e = OSError a)
  end.
Proof. apply write_after_mkdir. Qed.

(** ** The extension of a path *)

Lemma rfind_split (c : ascii) (s : str) :
  forall i,
    rfind c s = Some i ->
    exists pre rest,
      s = pre ++ c :: rest /\ length pre = i /\ rfind c rest = None.
Proof.
  induction s as [|x s IH]; intros i; cbn [rfind]; [discriminate|].
  destruct (rfind c s) as [j|] eqn:Ej.
  - intros [= <-]. destruct (IH j eq_refl) as (pre & rest & -> & Hlen & Hrest).
    exists (x :: pre), rest. cbn [length]. by rewrite Hlen.
  - destruct (Ascii.eqb x c) eqn:Ex; [|discriminate]. intros [= <-].
    apply Ascii.eqb_eq in Ex as ->. by exists [], s.
Qed.

Lemma rfind_none_head (c x : ascii) (s : str) :
  rfind c (x :: s) = None -> x <> c.
Proof.
  cbn [rfind]. destruct (rfind c s); [discriminate|].
  destruct (Ascii.eqb x c) eqn:Ex; [discriminate|]. intros _ ->.
  by rewrite Ascii.eqb_refl in Ex.
Qed.

(** A suffix is a dot followed by at least one character, the first of
    which is not a dot. *)
Lemma suffix_shape (p : Path) :
  suffix p = []
  \/ exists x rest, suffix p = "."%char :: x :: rest /\ x <> "."%char.
Proof.
  unfold suffix, suffix_index.
  destruct (rfind "." (name p)) as [i|] eqn:Ei; [|by left].
  destruct ((0 <? i)%nat && (i <? length (name p) - 1)%nat) eqn:Eb; [|by left].
  apply andb_prop in Eb as [_ Hi]. apply Nat.ltb_lt in Hi.
  destruct (rfind_split _ _ _ Ei) as (pre & rest & Hname & Hlen & Hrest).
  rewrite Hname in Hi |- *. rewrite length_app in Hi. cbn [length] in Hi.
  right. rewrite <- Hlen, drop_app_length.
  destruct rest as [|x rest]; [cbn [length] in Hi; lia|].
  exists x, rest. split; [reflexivity|]. by eapply rfind_none_head.
Qed.

Lemma lower_char_dot (c : ascii) :
  c <> "."%char -> Ascii.eqb "." (Text.lower_char c) = false.
Proof.
  intros Hc. destruct (Ascii.eqb "." (Text.lower_char c)) eqn:E; [|reflexivity].
  exfalso. apply Hc. revert E. clear Hc.
  destruct c as [[|] [|] [|] [|] [|] [|] [|] [|]]; vm_compute;
    first [discriminate | reflexivity].
Qed.

Lemma lower_char_is_dot (c : ascii) :
  Ascii.eqb (Text.lower_char c) "." = Ascii.eqb c ".".
Proof.
  destruct c as [[|] [|] [|] [|] [|] [|] [|] [|]]; vm_compute; reflexivity.
Qed.

Lemma rfind_lower (s : str) : rfind "." (Text.lower s) = rfind "." s.
Proof.
  induction s as [|x s IH]; [reflexivity|].
  cbn [Text.lower map rfind]. fold (Text.lower s).
  by rewrite IH, lower_char_is_dot.
Qed.

(** The lower-cased suffix of a path, read off its lower-cased name. *)
Lemma lower_suffix (p : Path) :
  Text.lower (suffix p)
  = match suffix_index (Text.lower (name p)) with
    | Some i => drop i (Text.lower (name p))
    | None => []
    end.
Proof.
  unfold suffix, suffix_index. rewrite rfind_lower.
  unfold Text.lower at 2. rewrite length_map.
  destruct (rfind "." (name p)) as [i|]; [|reflexivity].
  destruct ((0 <? i)%nat && (i <? length (name p) - 1)%nat); [|reflexivity].
  unfold Text.lower. by rewrite <- fmap_drop.
Qed.

(** X12: whether a file counts as an image, and as a HEIC image, depends
    on its name only up to letter case: two paths whose names are equal
    once lower-cased are classified alike. *)
Theorem image_files_are_told_by_name_whatever_the_case (p q : Path) :
  Text.lower (name p) = Text.lower (name q) ->
  is_image_file p = is_image_file q /\ is_heic p = is_heic q.
Proof.
  intros Hname. unfold is_image_file, is_heic.
  by rewrite !lower_suffix, Hname.
Qed.

Section WithImaging.
Context `{Imaging}.

(** The extension [save_image] encodes for. *)
Lemma save_image_ext (out_path : Path) :
  $"." ++ match Text.lstrip_by (Ascii.eqb ".") (Text.lower (suffix out_path)) with
         | [] => $"png"
         | e => e
         end
  = match suffix out_path with [] => $".png" | s => Text.lower s end.
Proof.
  destruct (suffix_shape out_path) as [-> | (x & rest & -> & Hx)];
    [reflexivity|].
  cbn [Text.lower map Text.lstrip_by].
  change (Ascii.eqb "." (Text.lower_char ".")) with true. cbv iota.
  cbn [Text.lstrip_by]. rewrite (lower_char_dot x Hx). reflexivity.
Qed.

(** X13: after [save_image] returns, the file holds the picture encoded
    for the lower-cased extension of the path, and as PNG when the path has
    no extension; it raises only an [OSError], and then no existing entry
    has changed. *)
Theorem save_image_encodes_for_the_extension (image_bgr : image)
    (out_path : Path) (w : world) :
  match Preprocess.save_image image_bgr out_path w with
  | (Ok _, w') =>
      Fs.read_bytes out_path w'
      = (Ok (cv2_imencode
               (match suffix out_path with
                | [] => $".png"
                | s => Text.lower s
                end) image_bgr), w')
  | (Raise e, w') => keeps_files w w' /\ exists a, e = OSError a
  end.
Proof.
  unfold Preprocess.save_image. rewrite save_image_ext.
  pose proof (write_after_mkdir out_path
                (cv2_imencode
                   (match suffix out_path with
                    | [] => $".png"
                    | s => Text.lower s
                    end) image_bgr) w) as Hw.
  destruct ((Fs.mkdir_parents (parent out_path) ;;; Fs.write_bytes out_path _) w)
    as [[[]|e] w'].
  - apply Hw.
  - destruct Hw as [Hkeep [[_ ->] | (a & data & _ & _ & ->)]]; eauto.
Qed.

(** ** Converting one file *)

(** X14: when [convert_heic_to_png] returns, it returns the output path and
    the file there is the PNG made of the source file; when it raises, no
    existing entry has changed and the entry at the output path is as it
    was, and the file tree as a whole is unchanged unless the source had
    been decoded (so a file that cannot be read or decoded leaves no
    trace).  Either way the call is recorded once. *)
Theorem convert_writes_the_png_or_leaves_the_output (heic_path out_png_path : Path)
    (w : world) :
  match convert_heic_to_png heic_path out_png_path w with
  | (Ok p, w') =>
      p = out_png_path
      /\ calls w' = calls w ++ [ConvertCall heic_path out_png_path]
      /\ exists d png,
           fs w !! heic_path = Some (File d) /\ heif_to_png d = Some png
           /\ Fs.read_bytes out_png_path w' = (Ok png, w')
  | (Raise e, w') =>
      keeps_files w w'
      /\ calls w' = calls w ++ [ConvertCall heic_path out_png_path]
      /\ fs w' !! out_png_path = fs w !! out_png_path
      /\ (fs w' = fs w
          \/ exists d png,
               fs w !! heic_path = Some (File d) /\ heif_to_png d = Some png)
  end.
Proof.
  unfold convert_heic_to_png.
  unfold bind at 1, record_call at 1. unfold bind at 1, Fs.read_bytes, bind at 1,
    get_fs at 1. cbn [fs].
  destruct (fs w !! heic_path) as [[|d]|] eqn:Esrc;
    try (unfold raise; repeat split; auto using keeps_files_refl; fail).
  - unfold raise. cbn [fs calls]. repeat split; auto. intros a x Hx. exact Hx.
  - unfold ret at 1. destruct (heif_to_png d) as [png|] eqn:Epng.
    + set (w0 := World (fs w) (stdout w) (calls w ++ [ConvertCall heic_path out_png_path])).
      pose proof (write_after_mkdir out_png_path png w0) as Hw.
      pose proof (write_after_mkdir_fails out_png_path png w0) as Hf.
      change ((Fs.mkdir_parents (parent out_png_path) ;;;
               Fs.write_bytes out_png_path png ;;; ret out_png_path) w0)
        with (bind (Fs.mkdir_parents (parent out_png_path))
                (fun _ => bind (Fs.write_bytes out_png_path png)
                            (fun _ => ret out_png_path)) w0).
      unfold bind in Hw, Hf |- *.
      destruct (Fs.mkdir_parents (parent out_png_path) w0) as [[[]|e] w1] eqn:Emk.
      * destruct (Fs.write_bytes out_png_path png w1) as [[[]|e] w2] eqn:Ewr.
        -- unfold ret. split; [reflexivity|]. split.
           { apply mkdir_each_spec in Emk as (_ & Hc1 & _).
             revert Ewr. run_unfold.
             destruct (fs w1 !! out_png_path) as [[|?]|]; intros [= <-];
               cbn [calls]; exact Hc1. }
           exists d, png. split; [reflexivity|]. split; [exact Epng|apply Hw].
        -- destruct Hw as [Hkeep _]. destruct (Hf _ _ eq_refl) as (Hp & _ & Hc).
           split; [exact Hkeep|]. split; [exact Hc|]. split; [exact Hp|].
           right. by exists d, png.
      * destruct Hw as [Hkeep _]. destruct (Hf _ _ eq_refl) as (Hp & _ & Hc).
        split; [exact Hkeep|]. split; [exact Hc|]. split; [exact Hp|].
        right. by exists d, png.
    + unfold raise. cbn [fs calls]. repeat split; auto. intros a x Hx. exact Hx.
  - unfold raise. cbn [fs calls]. repeat split; auto. intros a x Hx. exact Hx.
Qed.

(** ** Every image file is staged or reported *)

Lemma staged_parent (conv q : Path) : parent (staged conv q) = conv.
Proof. destruct (staged_below conv q) as [nm ->]. apply parent_joinpath. Qed.

(** One iteration: nothing for a path that is not an image file; for an
    image file either its staged path is appended or one line is printed. *)
Lemma prepare_one_account (conv : Path) (ready : list Path) (q : Path)
    (w : world) :
  exists added msgs w',
    prepare_one conv ready q w = (Ok (ready ++ added), w')
    /\ stdout w' = stdout w ++ msgs
    /\ keeps_files w w'
    /\ (length added + length msgs
        = if Fs.is_file (fs w) q && is_image_file q then 1 else 0)%nat
    /\ Forall (fun m => Text.starts_with $"Failed to " m = true) msgs
    /\ Forall (fun t => is_Some (fs w' !! t) /\ parent t = conv) added.
Proof.
  unfold prepare_one. unfold bind at 1, get_fs at 1.
  destruct (Fs.is_file (fs w) q && is_image_file q) eqn:Eimg.
  2:{ replace (negb (Fs.is_file (fs w) q) || negb (is_image_file q)) with true
        by (destruct (Fs.is_file (fs w) q), (is_image_file q); done).
      exists [], [], w. rewrite !app_nil_r.
      repeat split; auto using keeps_files_refl. }
  replace (negb (Fs.is_file (fs w) q) || negb (is_image_file q)) with false
    by (destruct (Fs.is_file (fs w) q), (is_image_file q); done).
  destruct (is_heic q) eqn:Eheic.
  - unfold bind at 1. rewrite path_exists_eq.
    destruct (bool_decide (is_Some (fs w !! out_png conv q))) eqn:Epresent;
      cbn [negb].
    + apply bool_decide_eq_true in Epresent.
      exists [out_png conv q], [], w. rewrite app_nil_r. unfold ret.
      repeat split; auto using keeps_files_refl.
      constructor; [|constructor]. split; [exact Epresent|apply parent_joinpath].
    + apply bool_decide_eq_false in Epresent.
      assert (Hfree : fs w !! out_png conv q = None).
      { destruct (fs w !! out_png conv q); [exfalso; eauto | reflexivity]. }
      unfold try_except, bind at 1.
      destruct (convert_heic_to_png q (out_png conv q) w) as [[x|e] w1] eqn:Econv;
        apply convert_spec in Econv as (_ & Hout & Hadd & Hres);
        try assumption; apply adds_only_keeps in Hadd.
      * destruct Hres as (-> & d & png & _ & _ & Hnew).
        exists [out_png conv q], [], w1. rewrite app_nil_r. unfold ret.
        repeat split; auto.
        constructor; [|constructor]. split; [unfold out_png; rewrite Hnew; eauto|apply parent_joinpath].
      * destruct Hres as (-> & _).
        exists [], [ $"Failed to convert " ++ path_str q ++ $": " ++ exn_str e ].
        eexists. unfold bind, print, ret. cbn [fs stdout calls].
        rewrite app_nil_r. split; [reflexivity|]. cbn [fs stdout calls].
        rewrite Hout. repeat split; auto.
  - unfold bind at 1. rewrite path_exists_eq.
    destruct (bool_decide (is_Some (fs w !! out_copy conv q))) eqn:Epresent;
      cbn [negb].
    + apply bool_decide_eq_true in Epresent.
      exists [out_copy conv q], [], w. rewrite app_nil_r. unfold ret.
      repeat split; auto using keeps_files_refl.
      constructor; [|constructor]. split; [exact Epresent|apply parent_joinpath].
    + apply bool_decide_eq_false in Epresent.
      assert (Hfree : fs w !! out_copy conv q = None).
      { destruct (fs w !! out_copy conv q); [exfalso; eauto | reflexivity]. }
      unfold out_copy at 1. rewrite parent_joinpath. fold (out_copy conv q).
      unfold try_except.
      pose proof (copy_spec q conv (name q) w) as Hcopy.
      fold (out_copy conv q) in Hcopy.
      unfold bind at 1. unfold bind at 1 in Hcopy.
      destruct (Fs.mkdir_parents conv w) as [[[]|e] w1] eqn:Emk.
      * unfold bind at 1.
        destruct (Fs.copy2 q (out_copy conv q) w1) as [[[]|e] w2] eqn:Ecp;
          destruct (Hcopy _ _ Hfree eq_refl) as (_ & Hout & Hadd & Hres);
          apply adds_only_keeps in Hadd.
        -- exists [out_copy conv q], [], w2. rewrite app_nil_r. unfold ret.
           repeat split; auto.
           constructor; [|constructor]. split; [exact Hres|apply parent_joinpath].
        -- destruct Hres as (-> & _).
           exists [], [ $"Failed to copy " ++ path_str q ++ $": " ++ exn_str e ].
           eexists. unfold bind, print, ret. cbn [fs stdout calls].
           rewrite app_nil_r. split; [reflexivity|]. cbn [fs stdout calls].
           rewrite Hout. repeat split; auto.
      * destruct (Hcopy _ _ Hfree eq_refl) as (_ & Hout & Hadd & -> & _).
        apply adds_only_keeps in Hadd.
        exists [], [ $"Failed to copy " ++ path_str q ++ $": " ++ exn_str e ].
        eexists. unfold bind, print, ret. cbn [fs stdout calls].
        rewrite app_nil_r. split; [reflexivity|]. cbn [fs stdout calls].
        rewrite Hout. repeat split; auto.
Qed.

Lemma is_file_kept (w0 w : world) (q : Path) :
  keeps_files w0 w -> is_Some (fs w0 !! q) ->
  Fs.is_file (fs w) q = Fs.is_file (fs w0) q.
Proof.
  intros Hkeep [x Hx]. unfold Fs.is_file. by rewrite (Hkeep _ _ Hx), Hx.
Qed.

Lemma prepare_loop_account (conv : Path) (w0 : world) (paths : list Path) :
  Forall (fun q => is_Some (fs w0 !! q)) paths ->
  forall ready w,
    keeps_files w0 w ->
    exists added msgs w',
      prepare_loop conv paths ready w = (Ok (ready ++ added), w')
      /\ stdout w' = stdout w ++ msgs
      /\ keeps_files w w'
      /\ (length added + length msgs
          = length (filter (fun q => Fs.is_file (fs w0) q && is_image_file q = true)
                      paths))%nat
      /\ Forall (fun m => Text.starts_with $"Failed to " m = true) msgs
      /\ Forall (fun t => is_Some (fs w' !! t) /\ parent t = conv) added.
Proof.
  induction 1 as [|q paths Hq _ IH]; intros ready w Hkeep0.
  - exists [], [], w. rewrite !app_nil_r.
    repeat split; auto using keeps_files_refl.
  - cbn [prepare_loop].
    destruct (prepare_one_account conv ready q w)
      as (a1 & m1 & w1 & Hrun1 & Hout1 & Hkeep1 & Hlen1 & Hmsg1 & Hall1).
    rewrite (bind_eq _ _ _ _ _ Hrun1).
    destruct (IH (ready ++ a1) w1 (keeps_files_trans _ _ _ Hkeep0 Hkeep1))
      as (a2 & m2 & w2 & Hrun2 & Hout2 & Hkeep2 & Hlen2 & Hmsg2 & Hall2).
    exists (a1 ++ a2), (m1 ++ m2), w2.
    rewrite Hrun2, Hout2, Hout1, <- !app_assoc.
    split; [reflexivity|]. split; [reflexivity|].
    split; [by eapply keeps_files_trans|].
    split.
    + rewrite (is_file_kept w0 w q Hkeep0 Hq) in Hlen1.
      rewrite !length_app.
      destruct (Fs.is_file (fs w0) q && is_image_file q) eqn:Eimg.
      * rewrite filter_cons_True by done. cbn [length]. lia.
      * rewrite filter_cons_False by (by rewrite Eimg). lia.
    + split; [by apply Forall_app|]. apply Forall_app. split; [|exact Hall2].
      eapply Forall_impl; [exact Hall1|]. intros t [Ht Hp].
      split; [by eapply is_Some_keeps|exact Hp].
Qed.

(** X15: [prepare_images] never raises, never changes or removes an entry
    of the file tree, and accounts for every image file below the input
    directory: each one either adds a path to the result or prints one line
    that begins with "Failed to".  Every path of the result exists when it
    returns and lies right below the directory of converted files. *)
Theorem prepare_images_stages_or_reports_every_image (input_dir conv : Path)
    (w : world) :
  exists ready msgs w',
    prepare_images input_dir conv w = (Ok ready, w')
    /\ stdout w' = stdout w ++ msgs
    /\ keeps_files w w'
    /\ (length ready + length msgs
        = length (filter (fun q => Fs.is_file (fs w) q && is_image_file q = true)
                    (sorted (Fs.rglob (fs w) input_dir))))%nat
    /\ Forall (fun m => Text.starts_with $"Failed to " m = true) msgs
    /\ Forall (fun t => is_Some (fs w' !! t) /\ parent t = conv) ready.
Proof.
  rewrite prepare_images_eq.
  apply (prepare_loop_account conv w); [|apply keeps_files_refl].
  apply Forall_forall. intros q Hq. by apply elem_of_listing in Hq as [Hq _].
Qed.

End WithImaging.
Lemma image_files_by_name_witness :
  is_image_file [ $"in"; $"Plate.HEIC" ]
  = is_image_file [ $"old"; $"2019"; $"plate.heic" ]
  /\ is_heic [ $"in"; $"Plate.HEIC" ]
     = is_heic [ $"old"; $"2019"; $"plate.heic" ].
Proof.
  apply (image_files_are_told_by_name_whatever_the_case
           [ $"in"; $"Plate.HEIC" ] [ $"old"; $"2019"; $"plate.heic" ]).
  vm_compute. reflexivity.
Defined.

End FsProps.
(** * One record per staged image *)
Module PipelineFacts.
Import Main Dict HeicUtils HeicFacts MainFacts FsProps.

Section WithLibs.
Context `{OcrLib} `{DateLib} `{JsonLib} `{OsLib}.

(** One iteration of the staging loop: the file is kept, and its staged
    path appended, or it is not; an image file that is not kept leaves one
    line that begins with "Failed to". *)
Lemma prepare_one_kept (conv : Path) (ready : list Path) (q : Path)
    (w : world) :
  exists kept msgs w',
    prepare_one conv ready q w = (Ok (ready ++ map (staged conv) kept), w')
    /\ (kept = [] \/ kept = [q])
    /\ stdout w' = stdout w ++ msgs
    /\ keeps_files w w'
    /\ (length kept + length msgs
        = if Fs.is_file (fs w) q && is_image_file q then 1 else 0)%nat
    /\ Forall (fun m => Text.starts_with $"Failed to " m = true) msgs.
Proof.
  destruct (prepare_one_account conv ready q w)
    as (added & msgs & w' & Hrun & Hout & Hkeep & Hlen & Hmsgs & _).
  destruct (prepare_one_spec conv ready q w)
    as (added' & new & w'' & Hrun' & _ & Hadded & _).
  rewrite Hrun in Hrun'.
  assert (added' = added) as ->.
  { assert (ready ++ added = ready ++ added') as Heq by congruence.
    apply app_inv_head in Heq. by symmetry. }
  destruct Hadded as [-> | [-> _]].
  - exists [], msgs, w'. cbn [map length] in *. auto 10.
  - exists [q], msgs, w'. cbn [map length] in *. auto 10.
Qed.

Lemma prepare_loop_kept (conv : Path) (w0 : world) (paths : list Path) :
  Forall (fun q => is_Some (fs w0 !! q)) paths ->
  forall ready w,
    keeps_files w0 w ->
    exists kept msgs w',
      prepare_loop conv paths ready w
        = (Ok (ready ++ map (staged conv) kept), w')
      /\ sublist kept
           (filter (fun q => Fs.is_file (fs w0) q && is_image_file q = true)
              paths)
      /\ stdout w' = stdout w ++ msgs
      /\ keeps_files w w'
      /\ (length kept + length msgs
          = length (filter (fun q => Fs.is_file (fs w0) q && is_image_file q = true)
                      paths))%nat
      /\ Forall (fun m => Text.starts_with $"Failed to " m = true) msgs.
Proof.
  induction 1 as [|q paths Hq _ IH]; intros ready w Hkeep0.
  - exists [], [], w. cbn [map]. rewrite !app_nil_r.
    repeat split; auto using keeps_files_refl.
  - cbn [prepare_loop].
    destruct (prepare_one_kept conv ready q w)
      as (k1 & m1 & w1 & Hrun1 & Hk1 & Hout1 & Hkeep1 & Hlen1 & Hmsg1).
    rewrite (bind_eq _ _ _ _ _ Hrun1).
    destruct (IH (ready ++ map (staged conv) k1) w1
                (keeps_files_trans _ _ _ Hkeep0 Hkeep1))
      as (k2 & m2 & w2 & Hrun2 & Hsub2 & Hout2 & Hkeep2 & Hlen2 & Hmsg2).
    exists (k1 ++ k2), (m1 ++ m2), w2.
    rewrite Hrun2, Hout2, Hout1, map_app, <- !app_assoc.
    split; [reflexivity|].
    rewrite (is_file_kept w0 w q Hkeep0 Hq) in Hlen1.
    rewrite !length_app.
    destruct (Fs.is_file (fs w0) q && is_image_file q) eqn:Eimg.
    + rewrite filter_cons_True by done.
      split.
      { destruct Hk1 as [-> | ->]; cbn [app].
        - by apply sublist_cons.
        - by apply sublist_skip. }
      split; [reflexivity|]. split; [by eapply keeps_files_trans|].
      split; [cbn [length]; lia | by apply Forall_app].
    + rewrite filter_cons_False by (by rewrite Eimg).
      assert (k1 = []) as ->.
      { destruct Hk1 as [-> | ->]; [done|]. cbn [length] in Hlen1. lia. }
      split; [exact Hsub2|].
      split; [reflexivity|]. split; [by eapply keeps_files_trans|].
      split; [cbn [length]; lia | by apply Forall_app].
Qed.

(** C7: in a run that completes, let [w0] be the world after the output
    directories are made.  The staging step, run from [w0], keeps some of
    the image files that the sorted traversal of the input directory
    visits, in that order, and prints one line that begins with "Failed
    to" for each image file it does not keep.  The run has made exactly one
    record per kept file, in the same order: the [source_file] of the i-th
    record is the staged path of the i-th kept file. *)
Theorem C7_one_record_per_staged_image_in_traversal_order
    (input_dir output_dir : Path) (engine_type : OCREngineType)
    (languages : list str) (write_json write_csv save_preprocessed : bool)
    (rotation_mode : str) (w w' : world) (records : list dict) :
  run_pipeline input_dir output_dir engine_type languages write_json
    write_csv save_preprocessed rotation_mode w = (Ok records, w') ->
  let conv := joinpath output_dir $"converted" in
  let images (w0 : world) :=
    filter (fun q => Fs.is_file (fs w0) q && is_image_file q = true)
      (sorted (Fs.rglob (fs w0) input_dir)) in
  exists w0 w1 kept msgs,
    (ensure_directory output_dir ;;;
     ensure_directory conv ;;;
     ensure_directory (joinpath output_dir $"ocr_raw") ;;;
     (if save_preprocessed
      then ensure_directory (joinpath output_dir $"preprocessed")
      else ret tt)) w = (Ok tt, w0)
    /\ prepare_images input_dir conv w0 = (Ok (map (staged conv) kept), w1)
    /\ sublist kept (images w0)
    /\ stdout w1 = stdout w0 ++ msgs
    /\ Forall (fun m => Text.starts_with $"Failed to " m = true) msgs
    /\ (length kept + length msgs = length (images w0))%nat
    /\ length records = length kept
    /\ map (fun r => get r $"source_file") records
       = map (fun p => Some (path_str (staged conv p))) kept.
Proof.
  intros Hrun conv images. unfold run_pipeline in Hrun. fold conv in Hrun.
  apply bind_ok in Hrun as ([] & wa & Ha & Hrun).
  apply bind_ok in Hrun as ([] & wb & Hb & Hrun).
  apply bind_ok in Hrun as ([] & wc & Hc & Hrun).
  apply bind_ok in Hrun as ([] & wd & Hd & Hrun).
  apply bind_ok in Hrun as (ready & w1 & Hprep & Hrun).
  destruct (prepare_loop_kept conv wd (sorted (Fs.rglob (fs wd) input_dir)))
    with (ready := @nil Path) (w := wd)
    as (kept & msgs & w1' & Hloop & Hsub & Hout & _ & Hlen & Hmsgs).
  { apply Forall_forall. intros q Hq. by apply elem_of_listing in Hq as [Hq _]. }
  { apply keeps_files_refl. }
  cbn [app] in Hloop. rewrite <- prepare_images_eq in Hloop.
  rewrite Hloop in Hprep.
  assert (ready = map (staged conv) kept /\ w1' = w1) as [Hready ->]
    by (split; congruence).
  exists wd, w1, kept, msgs.
  split.
  { rewrite (bind_eq _ _ _ _ _ Ha), (bind_eq _ _ _ _ _ Hb),
      (bind_eq _ _ _ _ _ Hc).
    destruct save_preprocessed; exact Hd. }
  split; [exact Hloop|]. split; [exact Hsub|]. split; [exact Hout|].
  split; [exact Hmsgs|]. split; [exact Hlen|].
  destruct ready as [|img rest] eqn:Eready.
  - apply bind_ok in Hrun as ([] & w2 & _ & Hrun).
    assert (records = []) as -> by (unfold ret in Hrun; congruence).
    destruct kept; [auto | discriminate].
  - rewrite <- Eready in Hrun.
    apply bind_ok in Hrun as (engine & w2 & _ & Hrun).
    apply bind_ok in Hrun as (rs & w3 & Hproc & Hrun).
    apply bind_ok in Hrun as ([] & w4 & _ & Hrun).
    apply bind_ok in Hrun as ([] & w5 & _ & Hrun).
    apply bind_ok in Hrun as ([] & w6 & _ & Hrun).
    assert (records = rs) as -> by (unfold ret in Hrun; congruence).
    apply process_images_sources in Hproc as (new & -> & Hmap).
    cbn [app]. rewrite Eready, Hready, map_map in Hmap.
    split; [|exact Hmap].
    apply (f_equal length) in Hmap. by rewrite !length_map in Hmap.
Qed.

End WithLibs.

Import Demo Scenarios.

Lemma C7_witness :
  run_pipeline demo_in [ $"out" ] EASYOCR [] false true false $"auto"
    mixed_folder
  = (Ok mixed_folder_records,
     snd (run_pipeline demo_in [ $"out" ] EASYOCR [] false true false $"auto"
            mixed_folder))
  /\ let conv := joinpath [ $"out" ] $"converted" in
     let images (w0 : world) :=
       filter (fun q => Fs.is_file (fs w0) q && is_image_file q = true)
         (sorted (Fs.rglob (fs w0) demo_in)) in
     exists w0 w1 kept msgs,
       (ensure_directory [ $"out" ] ;;;
        ensure_directory conv ;;;
        ensure_directory (joinpath [ $"out" ] $"ocr_raw") ;;;
        ret tt) mixed_folder = (Ok tt, w0)
       /\ prepare_images demo_in conv w0 = (Ok (map (staged conv) kept), w1)
       /\ sublist kept (images w0)
       /\ stdout w1 = stdout w0 ++ msgs
       /\ Forall (fun m => Text.starts_with $"Failed to " m = true) msgs
       /\ (length kept + length msgs = length (images w0))%nat
       /\ length mixed_folder_records = length kept
       /\ map (fun r => get r $"source_file") mixed_folder_records
          = map (fun p => Some (path_str (staged conv p))) kept.
Proof.
  assert (Hrun :
            run_pipeline demo_in [ $"out" ] EASYOCR [] false true false $"auto"
              mixed_folder
            = (Ok mixed_folder_records,
               snd (run_pipeline demo_in [ $"out" ] EASYOCR [] false true false
                      $"auto" mixed_folder)))
    by (vm_compute; reflexivity).
  split; [exact Hrun|].
  exact (C7_one_record_per_staged_image_in_traversal_order demo_in [ $"out" ]
           EASYOCR [] false true false $"auto" mixed_folder _
           mixed_folder_records Hrun).
Defined.

(** The staging of [mixed_folder]: the files kept and the line printed. *)
Example staging_of_mixed_folder :
  let conv := joinpath [ $"out" ] $"converted" in
  let w0 :=
    snd ((ensure_directory [ $"out" ] ;;; ensure_directory conv ;;;
          ensure_directory (joinpath [ $"out" ] $"ocr_raw")) mixed_folder) in
  sorted (Fs.rglob (fs w0) demo_in)
  = [ [ $"in"; $"a.jpg" ]; [ $"in"; $"b.heic" ]; [ $"in"; $"c.png" ];
      [ $"in"; $"notes.txt" ] ]
  /\ fst (prepare_images demo_in conv w0)
     = Ok (map (staged conv) [ [ $"in"; $"a.jpg" ]; [ $"in"; $"c.png" ] ])
  /\ stdout (snd (prepare_images demo_in conv w0))
     = [ $"Failed to convert in/b.heic: cannot decode in/b.heic" ].
Proof. cbv zeta. repeat split; vm_compute; reflexivity. Qed.

End PipelineFacts.

(** * More about src/main.py *)
Module MainProps.
Import Main Dict HeicUtils Selector SelectorFacts HeicFacts MainFacts.

(** ** The rotation mode *)

Lemma consume_rotation (toks : list (option Argparse.token)) :
  forall ns seen extras pending,
    Argparse.rotation ns ∈ [ $"auto"; $"none" ] ->
    match Argparse.consume toks ns seen extras pending with
    | Argparse.Parsed ns' => Argparse.rotation ns' ∈ [ $"auto"; $"none" ]
    | Argparse.Exit _ => True
    end.
Proof.
  assert (Hstore : forall o v ns,
             Argparse.value_allowed o v = true ->
             Argparse.rotation ns ∈ [ $"auto"; $"none" ] ->
             Argparse.rotation (Argparse.store o v ns) ∈ [ $"auto"; $"none" ]).
  { intros o v ns Hv Hns. destruct o; cbn in *; auto.
    now apply bool_decide_eq_true in Hv. }
  induction toks as [|[tok|] rest IH]; intros ns seen extras pending Hns;
    cbn [Argparse.consume].
  - destruct pending; [auto|]. destruct (negb seen); [auto|].
    destruct extras; auto.
  - destruct tok as [v|o explicit|v|].
    + destruct pending as [o|]; [|now apply IH].
      destruct (Argparse.value_allowed o v) eqn:Ev; [|auto].
      apply IH. now apply Hstore.
    + destruct pending as [?|]; [auto|].
      destruct (Argparse.takes_value o) eqn:Et.
      * destruct explicit as [v|]; [|now apply IH].
        destruct (Argparse.value_allowed o v) eqn:Ev; [|auto].
        apply IH. now apply Hstore.
      * destruct explicit as [e|], o;
          try discriminate; auto;
          try (destruct (Argparse.flag_chain e rest); auto);
          apply IH; assumption.
    + destruct pending; [auto | now apply IH].
    + auto.
  - now apply IH.
Qed.

(** X16: whatever the command line, the rotation mode that [parse_args]
    returns is "auto" or "none", so the selector tries the four rotations
    0, 90, 180, 270 or the rotation 0 alone; parsing leaves the world as
    it was. *)
Theorem parsed_rotation_is_auto_or_none (argv : list str) (w : world) :
  match parse_args argv w with
  | (Ok ns, w') =>
      w' = w
      /\ ((Argparse.rotation ns = $"auto"
           /\ rotation_candidates (Argparse.rotation ns) = [0; 90; 180; 270])
          \/ (Argparse.rotation ns = $"none"
              /\ rotation_candidates (Argparse.rotation ns) = [0]))
  | (Raise e, w') => w' = w /\ exists status, e = SystemExit status
  end.
Proof.
  unfold parse_args, Argparse.parse.
  destruct (existsb Argparse.is_ambiguous (Argparse.classify_all argv));
    [cbn; eauto|].
  pose proof (consume_rotation (Argparse.classify_all argv) Argparse.defaults
                false false None) as Hrot.
  destruct (Argparse.consume _ _ _ _ _) as [ns|status]; [|cbn; eauto].
  cbn. split; [reflexivity|].
  assert (Argparse.rotation ns ∈ [ $"auto"; $"none" ]) as Hin
    by (apply Hrot; cbn; set_solver).
  apply elem_of_cons in Hin as [-> | Hin]; [left; done|].
  apply elem_of_cons in Hin as [-> | Hin]; [right; done|].
  by apply elem_of_nil in Hin.
Qed.

(** ** The records *)

Lemma first_seen_nil (seen ks : list str) :
  Forall (fun k => k ∈ seen) ks -> first_seen seen ks = [].
Proof.
  induction 1 as [|k ks Hk _ IH]; cbn [first_seen]; [reflexivity|].
  by rewrite bool_decide_eq_true_2.
Qed.

Lemma scan_rotation (rots : list Z) (tries : list (str * Q * Z)) :
  Forall (fun t => snd t ∈ rots) tries ->
  forall b, snd b ∈ rots -> snd (scan b tries) ∈ rots.
Proof.
  induction 1 as [|t tries Ht _ IH]; intros b Hb; [exact Hb|].
  unfold scan. cbn [fold_left]. apply IH.
  unfold keep_best. destruct (Ocr.Qltb _ _); assumption.
Qed.

Lemma keys_set_new (d : dict) (k v : str) :
  k ∉ keys d -> keys (set d k v) = keys d ++ [k].
Proof.
  induction d as [|[k' v'] rest IH]; intros Hk; [reflexivity|].
  cbn [set]. rewrite bool_decide_eq_false_2 by set_solver.
  cbn [keys map fst app]. f_equal. apply IH. set_solver.
Qed.

(** ** The names of the preprocessed pictures *)

Lemma rfind_before_prep (s : str) :
  rfind "." (s ++ $"_prep.png") = Some (length s + 5)%nat.
Proof.
  induction s as [|x s IH]; [reflexivity|].
  cbn [app rfind length]. fold (s ++ $"_prep.png"). by rewrite IH.
Qed.

Lemma prep_name_suffix (d p : Path) (rot : Z) :
  suffix (joinpath d (prep_name p rot)) = $".png".
Proof.
  unfold suffix, suffix_index, name, joinpath. rewrite last_last.
  unfold prep_name. rewrite app_assoc, rfind_before_prep.
  set (s := stem p ++ _).
  replace ((0 <? length s + 5)%nat) with true by (symmetry; apply Nat.ltb_lt; lia).
  replace ((length s + 5 <? length (s ++ $"_prep.png") - 1)%nat) with true
    by (symmetry; apply Nat.ltb_lt; rewrite length_app; cbn; lia).
  cbn [andb]. rewrite drop_app_ge by lia.
  replace (length s + 5 - length s)%nat with 5%nat by lia. reflexivity.
Qed.

Lemma prep_names_differ (p : Path) (mode : str) :
  NoDup (map (prep_name p) (rotation_candidates mode)).
Proof.
  unfold rotation_candidates. case_bool_decide; cbn [map].
  - unfold prep_name. cbn.
    change (map (fun x => stem p ++ x) []) with (@nil str).
    apply (NoDup_fmap_2 (app (stem p))
             [ $"_prep.png"; $"_r90_prep.png"; $"_r180_prep.png";
               $"_r270_prep.png" ]).
    apply (bool_decide_unpack _). vm_compute. exact I.
  - apply NoDup_singleton.
Qed.

Section WithLibs.
Context `{OcrLib} `{DateLib} `{JsonLib} `{OsLib}.

Lemma process_image_shape (engine : OCREngine) (raw : Path)
    (pre : option Path) (mode : str) (img : Path) (w w' : world) (r : dict) :
  process_image engine raw pre mode img w = (Ok r, w') ->
  keys r = [ $"manufacturer"; $"model_number"; $"serial_number"; $"capacity";
             $"date_of_manufacture"; $"source_file"; $"ocr_confidence";
             $"rotation_deg" ]
  /\ exists rot,
       rot ∈ rotation_candidates mode
       /\ get r $"rotation_deg" = Some (Text.str_of_Z rot).
Proof.
  unfold process_image. intros Hrun.
  apply bind_ok in Hrun as ([[text conf] rot] & w1 & Hbest & Hrun).
  apply bind_ok in Hrun as ([] & w2 & _ & Hrun).
  destruct (Extract.parse_fields (Some text)) as [e|fields] eqn:Efields;
    [discriminate|].
  assert (keys fields
          = [ $"manufacturer"; $"model_number"; $"serial_number"; $"capacity";
              $"date_of_manufacture" ]) as Hkeys.
  { destruct (ExtractFacts.parse_fields_values (Some text))
      as (cap & _ & _ & Hfields).
    rewrite Hfields in Efields. by injection Efields as <-. }
  assert (r = set (set (set fields $"source_file" (path_str img))
                     $"ocr_confidence"
                     (if Qle_bool 0 conf then format_3f conf else []))
                $"rotation_deg" (Text.str_of_Z rot)) as ->
    by (unfold ret in Hrun; congruence).
  clear Hrun. split.
  - set (v1 := path_str img). set (v2 := if Qle_bool 0 conf then _ else _).
    set (v3 := Text.str_of_Z rot). clearbody v1 v2 v3.
    assert (keys (set fields $"source_file" v1)
            = keys fields ++ [ $"source_file" ]) as K1.
    { apply keys_set_new. rewrite Hkeys.
      apply (bool_decide_unpack _). vm_compute. exact I. }
    assert (keys (set (set fields $"source_file" v1) $"ocr_confidence" v2)
            = (keys fields ++ [ $"source_file" ]) ++ [ $"ocr_confidence" ]) as K2.
    { rewrite <- K1. apply keys_set_new. rewrite K1, Hkeys.
      apply (bool_decide_unpack _). vm_compute. exact I. }
    rewrite keys_set_new, K2, Hkeys; [reflexivity|]. rewrite K2, Hkeys.
    apply (bool_decide_unpack _). vm_compute. exact I.
  - exists rot. split; [|apply get_set_eq].
    apply choose_best_one_image in Hbest as (im & _ & Hscan).
    apply (f_equal snd) in Hscan. cbn [snd] in Hscan. rewrite Hscan.
    apply scan_rotation.
    + unfold attempts. apply Forall_forall. intros t Ht.
      apply list_elem_of_fmap in Ht as (x & -> & Hx). exact Hx.
    + unfold initial_best, rotation_candidates. cbn [snd].
      case_bool_decide; set_solver.
Qed.

Lemma process_images_shape (engine : OCREngine) (raw : Path)
    (pre : option Path) (mode : str) (P : dict -> Prop) (ready : list Path) :
  (forall img w w' r,
      process_image engine raw pre mode img w = (Ok r, w') -> P r) ->
  forall acc w rs w',
    process_images engine raw pre mode ready acc w = (Ok rs, w') ->
    exists new, rs = acc ++ new /\ length new = length ready /\ Forall P new.
Proof.
  intros HP. induction ready as [|img rest IH]; intros acc w rs w' Hrun.
  - cbn in Hrun. injection Hrun as <- _. exists []. by rewrite app_nil_r.
  - cbn [process_images] in Hrun.
    apply bind_ok in Hrun as (r & w1 & Hone & Hrun).
    apply IH in Hrun as (new & -> & Hlen & Hall).
    exists (r :: new). rewrite <- app_assoc. split; [reflexivity|].
    split; [cbn [length]; by rewrite Hlen|]. constructor; [|exact Hall].
    eapply HP; eassumption.
Qed.

(** What a run that returns has done, step by step. *)
Lemma run_pipeline_ok (input_dir output_dir : Path)
    (engine_type : OCREngineType) (languages : list str)
    (write_json write_csv save_preprocessed : bool) (rotation_mode : str)
    (w w' : world) (records : list dict) :
  run_pipeline input_dir output_dir engine_type languages write_json
    write_csv save_preprocessed rotation_mode w = (Ok records, w') ->
  (records = []
   /\ exists w1, w' = World (fs w1) (stdout w1 ++ [ $"No images found in input folder." ])
                       (calls w1))
  \/ (exists engine ready w2 w3 w6,
        ready <> []
        /\ process_images engine (joinpath output_dir $"ocr_raw")
             (if save_preprocessed
              then Some (joinpath output_dir $"preprocessed") else None)
             rotation_mode ready [] w2 = (Ok records, w3)
        /\ w' = World (fs w6)
                  (stdout w6
                   ++ [ $"Done. Processed "
                        ++ Text.str_of_Z (Z.of_nat (length ready))
                        ++ $" image(s). Output: " ++ path_str output_dir ])
                  (calls w6)).
Proof.
  unfold run_pipeline, ensure_directory. intros Hrun.
  apply bind_ok in Hrun as ([] & wa & Ha & Hrun).
  apply bind_ok in Hrun as ([] & wb & Hb & Hrun).
  apply bind_ok in Hrun as ([] & wc & Hc & Hrun).
  apply bind_ok in Hrun as ([] & wd & Hd & Hrun).
  apply bind_ok in Hrun as (ready & w1 & Hprep & Hrun).
  destruct ready as [|img rest] eqn:Eready.
  - apply bind_ok in Hrun as ([] & w2 & Hprint & Hrun). injection Hrun as <- <-.
    left. split; [reflexivity|]. exists w1. unfold print in Hprint.
    by injection Hprint as <-.
  - rewrite <- Eready in *.
    apply bind_ok in Hrun as (engine & w2 & _ & Hrun).
    apply bind_ok in Hrun as (rs & w3 & Hproc & Hrun).
    apply bind_ok in Hrun as ([] & w4 & _ & Hrun).
    apply bind_ok in Hrun as ([] & w5 & _ & Hrun).
    apply bind_ok in Hrun as ([] & w6 & Hprint & Hrun).
    injection Hrun as <- <-.
    right. exists engine, ready, w2, w3, w5.
    split; [by rewrite Eready|]. split.
    + destruct save_preprocessed; exact Hproc.
    + unfold print in Hprint. by injection Hprint as <-.
Qed.

(** X17: the record of an image is made of the text that is saved beside
    it: when [process_image] returns, the file [<stem>.txt] of the raw-text
    directory holds the text the selector returned, the record has every
    field that [parse_fields] extracts from that text, the path of the
    image, the rotation the selector returned, and the confidence printed
    with three decimals, or nothing when the confidence is negative. *)
Theorem record_is_extracted_from_the_saved_text (engine : OCREngine)
    (ocr_raw_dir : Path) (preprocessed_dir : option Path)
    (rotation_mode : str) (img_path : Path) (w w' : world) (r : dict) :
  process_image engine ocr_raw_dir preprocessed_dir rotation_mode img_path w
  = (Ok r, w') ->
  exists text conf rot fields,
    fst (choose_best_ocr_result engine [img_path] preprocessed_dir
           rotation_mode w) = Ok (text, conf, rot)
    /\ Fs.read_bytes (joinpath ocr_raw_dir (stem img_path ++ $".txt")) w'
       = (Ok text, w')
    /\ Extract.parse_fields (Some text) = inr fields
    /\ Forall (fun kv => get r (fst kv) = Some (snd kv)) fields
    /\ get r $"source_file" = Some (path_str img_path)
    /\ get r $"ocr_confidence"
       = Some (if Qle_bool 0 conf then format_3f conf else [])
    /\ get r $"rotation_deg" = Some (Text.str_of_Z rot).
Proof.
  unfold process_image. intros Hrun.
  apply bind_ok in Hrun as ([[text conf] rot] & w1 & Hbest & Hrun).
  apply bind_ok in Hrun as ([] & w2 & Hwrite & Hrun).
  destruct (ExtractFacts.parse_fields_values (Some text))
    as (cap & _ & _ & Hfields).
  destruct (Extract.parse_fields (Some text)) as [e|fields] eqn:Efields;
    [discriminate|].
  assert (r = set (set (set fields $"source_file" (path_str img_path))
                     $"ocr_confidence"
                     (if Qle_bool 0 conf then format_3f conf else []))
                $"rotation_deg" (Text.str_of_Z rot) /\ w' = w2) as [-> ->]
    by (unfold ret in Hrun; split; congruence).
  clear Hrun. exists text, conf, rot, fields.
  split; [by rewrite Hbest|]. split.
  { pose proof (FsProps.write_after_mkdir
                  (joinpath ocr_raw_dir (stem img_path ++ $".txt")) text w1)
      as Hw.
    unfold IoUtils.write_text in Hwrite. cbn [default] in Hwrite.
    change (id text) with text in *. rewrite Hwrite in Hw. apply Hw. }
  split; [exact Efields|]. split.
  - injection Hfields as ->.
    repeat (constructor;
            [cbn [fst snd]; rewrite !get_set_ne by discriminate;
             cbn [get]; rewrite ?bool_decide_eq_false_2 by discriminate;
             by rewrite bool_decide_eq_true_2|]).
    constructor.
  - split; [rewrite !get_set_ne by discriminate; apply get_set_eq|].
    split; [rewrite get_set_ne by discriminate|]; apply get_set_eq.
Qed.

Lemma try_rotations_files (engine : OCREngine) (p : Path) (img : image)
    (d : Path) (rots : list Z) :
  NoDup (map (prep_name p) rots) ->
  forall best w r w',
    try_rotations engine p img (Some d) rots best w = (Ok r, w') ->
    Forall (fun rot =>
              fs w' !! joinpath d (prep_name p rot)
              = Some (File (cv2_imencode $".png"
                              (Preprocess.preprocess_for_ocr img rot))))
      rots
    /\ forall nm, nm ∉ map (prep_name p) rots ->
                  fs w' !! joinpath d nm = fs w !! joinpath d nm.
Proof.
  induction rots as [|rot rots IH]; intros Hnd best w r w'; cbn [try_rotations].
  - intros [= _ <-]. split; [constructor|done].
  - cbn [map] in Hnd. apply NoDup_cons in Hnd as [Hnew Hnd].
    intros Hrun. apply bind_ok in Hrun as ([] & w1 & Hsave & Hrun).
    destruct (Ocr.run engine _) as [text conf].
    apply (IH Hnd) in Hrun as [Hall Hframe]. clear IH.
    unfold Preprocess.save_image in Hsave.
    rewrite FsProps.save_image_ext, prep_name_suffix in Hsave.
    pose proof (FsProps.write_after_mkdir (joinpath d (prep_name p rot))
                  (cv2_imencode $".png"
                     (Preprocess.preprocess_for_ocr img rot)) w) as Hw.
    change (match $".png" with [] => $".png" | s => Text.lower s end)
      with $".png" in Hsave.
    rewrite Hsave in Hw. destruct Hw as (Hread & _ & Hother).
    split.
    + constructor; [|exact Hall]. rewrite (Hframe _ Hnew).
      revert Hread. unfold Fs.read_bytes, bind, get_fs, ret, raise.
      destruct (fs w1 !! joinpath d (prep_name p rot)) as [[|x]|];
        intros [= ->]. reflexivity.
    + intros nm Hnm. cbn [map] in Hnm. apply not_elem_of_cons in Hnm as [Hne Hnm].
      rewrite (Hframe _ Hnm). apply Hother.
      * unfold joinpath. intros E. apply app_inj_tail in E as [_ E]. done.
      * rewrite parent_joinpath. apply joinpath_not_ancestor.
Qed.

(** X18: with a directory for the preprocessed pictures, a selection that
    returns has left there one PNG file per rotation tried, named after
    the stem of the image ([<stem>_prep.png] for the rotation 0,
    [<stem>_r<angle>_prep.png] for the others), each holding the
    preprocessed picture at that rotation. *)
Theorem preprocessed_pictures_are_saved_per_rotation (engine : OCREngine)
    (image_path d : Path) (rotation_mode : str) (w w' : world)
    (r : str * Q * Z) :
  choose_best_ocr_result engine [image_path] (Some d) rotation_mode w
  = (Ok r, w') ->
  exists img,
    Preprocess.read_image_bgr image_path w = (Ok img, w)
    /\ Forall (fun rot =>
                 Fs.read_bytes (joinpath d (prep_name image_path rot)) w'
                 = (Ok (cv2_imencode $".png"
                          (Preprocess.preprocess_for_ocr img rot)), w'))
         (rotation_candidates rotation_mode).
Proof.
  unfold choose_best_ocr_result. cbn [try_images]. intros Hrun.
  apply bind_ok in Hrun as (img & w1 & Hread & Hrun).
  pose proof (read_image_bgr_world _ _ _ _ Hread) as ->.
  apply bind_ok in Hrun as (best & w2 & Hrots & Hrun).
  unfold ret in Hrun. injection Hrun as _ <-.
  exists img. split; [exact Hread|].
  apply try_rotations_files in Hrots as [Hall _]; [|apply prep_names_differ].
  eapply Forall_impl; [exact Hall|]. intros rot Hrot. cbn beta in Hrot.
  unfold Fs.read_bytes, bind, get_fs, ret. by rewrite Hrot.
Qed.

(** X19: every record of a run has exactly the eight keys manufacturer,
    model_number, serial_number, capacity, date_of_manufacture,
    source_file, ocr_confidence, rotation_deg, in this order, and its
    rotation is one of the rotations tried; so the header inferred for the
    CSV file is exactly the eight preferred columns, without any extra
    one. *)
Theorem records_have_exactly_the_eight_columns
    (input_dir output_dir : Path) (engine_type : OCREngineType)
    (languages : list str) (write_json write_csv save_preprocessed : bool)
    (rotation_mode : str) (w w' : world) (records : list dict) :
  run_pipeline input_dir output_dir engine_type languages write_json
    write_csv save_preprocessed rotation_mode w = (Ok records, w') ->
  Forall (fun r =>
            keys r = [ $"manufacturer"; $"model_number"; $"serial_number";
                       $"capacity"; $"date_of_manufacture"; $"source_file";
                       $"ocr_confidence"; $"rotation_deg" ]
            /\ exists rot,
                 rot ∈ rotation_candidates rotation_mode
                 /\ get r $"rotation_deg" = Some (Text.str_of_Z rot))
    records
  /\ IoUtils.infer_fieldnames records = IoUtils.preferred.
Proof.
  intros Hrun.
  assert (Forall (fun r =>
            keys r = [ $"manufacturer"; $"model_number"; $"serial_number";
                       $"capacity"; $"date_of_manufacture"; $"source_file";
                       $"ocr_confidence"; $"rotation_deg" ]
            /\ exists rot,
                 rot ∈ rotation_candidates rotation_mode
                 /\ get r $"rotation_deg" = Some (Text.str_of_Z rot))
            records) as Hall.
  { apply run_pipeline_ok in Hrun
      as [[-> _] | (engine & ready & w2 & w3 & w6 & _ & Hproc & _)];
      [constructor|].
    eapply process_images_shape in Hproc as (new & -> & _ & Hall);
      [exact Hall|].
    intros img wx wy r. apply process_image_shape. }
  split; [exact Hall|].
  rewrite IoFacts.infer_fieldnames_eq, first_seen_nil; [apply app_nil_r|].
  apply Forall_forall. intros k Hk.
  apply list_elem_of_In, in_concat in Hk as (ks & Hks & Hk).
  apply in_map_iff in Hks as (r & <- & Hr).
  rewrite Forall_forall in Hall. apply list_elem_of_In in Hr.
  destruct (Hall r Hr) as [Hkeys _]. rewrite Hkeys in Hk.
  apply list_elem_of_In in Hk. revert Hk. unfold IoUtils.preferred.
  rewrite !elem_of_cons. rewrite elem_of_nil. tauto.
Qed.

(** X20: the last line a run prints tells how it ended: "No images found
    in input folder." when it made no record, and otherwise "Done.
    Processed N image(s). Output: DIR" where N is the number of records
    it made. *)
Theorem last_line_counts_the_records
    (input_dir output_dir : Path) (engine_type : OCREngineType)
    (languages : list str) (write_json write_csv save_preprocessed : bool)
    (rotation_mode : str) (w w' : world) (records : list dict) :
  run_pipeline input_dir output_dir engine_type languages write_json
    write_csv save_preprocessed rotation_mode w = (Ok records, w') ->
  last (stdout w')
  = Some (match records with
          | [] => $"No images found in input folder."
          | _ => $"Done. Processed "
                 ++ Text.str_of_Z (Z.of_nat (length records))
                 ++ $" image(s). Output: " ++ path_str output_dir
          end).
Proof.
  intros Hrun.
  apply run_pipeline_ok in Hrun
    as [[-> [w1 ->]] | (engine & ready & w2 & w3 & w6 & Hne & Hproc & ->)];
    cbn [stdout]; rewrite last_snoc; [reflexivity|].
  eapply (process_images_shape _ _ _ _ (fun _ => True)) in Hproc
    as (new & -> & Hlen & _); [|done].
  cbn [app]. rewrite Hlen. destruct new; [|reflexivity].
  destruct ready; [done|discriminate].
Qed.

(** ** A run without images *)

Lemma adds_dirs_only_refl (w : world) : Changes.adds_dirs_only w w.
Proof. intros a. by left. Qed.

Lemma adds_dirs_only_trans (w1 w2 w3 : world) :
  Changes.adds_dirs_only w1 w2 -> Changes.adds_dirs_only w2 w3 ->
  Changes.adds_dirs_only w1 w3.
Proof.
  intros H12 H23 a. destruct (H12 a) as [E12|[E1 E2]], (H23 a) as [E23|[E2' E3]].
  - left. congruence.
  - right. split; congruence.
  - right. split; congruence.
  - congruence.
Qed.

(** [ensure_directory] step by step: it prints nothing, calls no codec,
    adds directories only, and raises an [OSError] only. *)
Lemma ensure_directory_step (p : Path) (w : world) :
  exists r w',
    ensure_directory p w = (r, w')
    /\ stdout w' = stdout w /\ calls w' = calls w
    /\ Changes.adds_dirs_only w w'
    /\ (forall e, r = Raise e -> exists a, e = OSError a).
Proof.
  unfold ensure_directory, Fs.mkdir_parents.
  destruct (Fs.mkdir_each (Fs.ancestors_and_self p) w) as [r w'] eqn:Hrun.
  exists r, w'. split; [reflexivity|].
  pose proof (mkdir_each_spec _ _ _ _ Hrun) as (Hout & Hcalls & _ & Hfs).
  apply FsProps.mkdir_each_result in Hrun as [_ Hres].
  repeat split; auto.
  - intros a. destruct (Hfs a) as [|(? & _ & ?)]; [by left|by right].
  - intros e ->. destruct Hres as (a & _ & _ & _ & ->). eauto.
Qed.

Lemma prepare_loop_skip (conv : Path) (w : world) (paths : list Path) :
  Forall (fun q => Fs.is_file (fs w) q && is_image_file q = false) paths ->
  forall ready, prepare_loop conv paths ready w = (Ok ready, w).
Proof.
  induction 1 as [|q paths Hq _ IH]; intros ready; [reflexivity|].
  cbn [prepare_loop]. unfold bind at 1, prepare_one, bind at 1, get_fs at 1.
  replace (negb (Fs.is_file (fs w) q) || negb (is_image_file q)) with true
    by (destruct (Fs.is_file (fs w) q), (is_image_file q); done).
  unfold ret at 1. apply IH.
Qed.

(** X21: when no image file lies below the input directory, the run makes
    the output directories, prints "No images found in input folder." and
    returns: it does not set up the OCR engine (so it succeeds even when
    the engine is missing), calls no codec, and writes no file, whatever
    outputs were asked for.  It can fail only with the [OSError] of a
    directory that cannot be made. *)
Theorem no_image_means_no_engine_and_no_file
    (input_dir output_dir : Path) (engine_type : OCREngineType)
    (languages : list str) (write_json write_csv save_preprocessed : bool)
    (rotation_mode : str) (w : world) :
  filter (fun q => Fs.is_file (fs w) q && is_image_file q = true)
    (sorted (Fs.rglob (fs w) input_dir)) = [] ->
  match run_pipeline input_dir output_dir engine_type languages write_json
          write_csv save_preprocessed rotation_mode w with
  | (Ok records, w') =>
      records = []
      /\ stdout w' = stdout w ++ [ $"No images found in input folder." ]
      /\ calls w' = calls w
      /\ Changes.adds_dirs_only w w'
  | (Raise e, w') => exists a, e = OSError a
  end.
Proof.
  intros Hnone. unfold run_pipeline.
  destruct (ensure_directory_step output_dir w)
    as (ra & wa & Ea & Oa & Ca & Da & Ra).
  unfold bind at 1. rewrite Ea. destruct ra as [[]|e]; [|by apply Ra].
  destruct (ensure_directory_step (joinpath output_dir $"converted") wa)
    as (rb & wb & Eb & Ob & Cb & Db & Rb).
  unfold bind at 1. rewrite Eb. destruct rb as [[]|e]; [|by apply Rb].
  destruct (ensure_directory_step (joinpath output_dir $"ocr_raw") wb)
    as (rc & wc & Ec & Oc & Cc & Dc & Rc).
  unfold bind at 1. rewrite Ec. destruct rc as [[]|e]; [|by apply Rc].
  assert (exists rd wd,
             (if save_preprocessed
              then ensure_directory (joinpath output_dir $"preprocessed")
              else ret tt) wc = (rd, wd)
             /\ stdout wd = stdout wc /\ calls wd = calls wc
             /\ Changes.adds_dirs_only wc wd
             /\ (forall e, rd = Raise e -> exists a, e = OSError a))
    as (rd & wd & Ed & Od & Cd & Dd & Rd).
  { destruct save_preprocessed; [apply ensure_directory_step|].
    exists (Ok tt), wc. repeat split; auto using adds_dirs_only_refl;
      discriminate. }
  unfold bind at 1.
  replace (match (if save_preprocessed
                  then Some (joinpath output_dir $"preprocessed") else None) with
           | Some d => ensure_directory d
           | None => ret tt
           end wc) with (rd, wd)
    by (rewrite <- Ed; by destruct save_preprocessed).
  destruct rd as [[]|e]; [|by apply Rd].
  assert (Changes.adds_dirs_only w wd) as Hdirs
    by eauto using adds_dirs_only_trans.
  assert (prepare_images input_dir (joinpath output_dir $"converted") wd
          = (Ok [], wd)) as Hprep.
  { rewrite prepare_images_eq. apply prepare_loop_skip.
    apply Forall_forall. intros q Hq.
    apply elem_of_listing in Hq as [[x Hx] Hunder].
    destruct (Hdirs q) as [Hsame | [_ Hdir]].
    - assert (q ∈ sorted (Fs.rglob (fs w) input_dir)) as Hin
        by (apply elem_of_listing; split; [rewrite <- Hsame; eauto|done]).
      assert (Fs.is_file (fs wd) q = Fs.is_file (fs w) q) as ->
        by (unfold Fs.is_file; by rewrite Hsame).
      destruct (Fs.is_file (fs w) q && is_image_file q) eqn:Eimg; [|done].
      assert (q ∈ filter (fun q => Fs.is_file (fs w) q && is_image_file q = true)
                    (sorted (Fs.rglob (fs w) input_dir))) as Hf
        by (apply list_elem_of_filter; done).
      rewrite Hnone in Hf. by apply elem_of_nil in Hf.
    - unfold Fs.is_file. by rewrite Hdir. }
  unfold bind at 1. rewrite Hprep. unfold bind, print, ret. cbn [stdout calls fs].
  repeat split; [congruence | congruence | exact Hdirs].
Qed.

(** X22: the OCR engine is set up after the images have been staged: when
    EasyOCR cannot be set up, a run on a directory with images ends with
    the RuntimeError of [OCREngine], and the world it leaves is the one
    that staging left, converted files included: the output directories
    are made, then [prepare_images] returns at least one path, and nothing
    happens after that. *)
Theorem missing_engine_is_reported_after_staging
    (input_dir output_dir : Path) (languages : list str)
    (write_json write_csv save_preprocessed : bool) (rotation_mode : str)
    (w w' : world) (msg : str) :
  (forall l, easyocr_available l = false) ->
  run_pipeline input_dir output_dir EASYOCR languages write_json write_csv
    save_preprocessed rotation_mode w = (Raise (RuntimeError msg), w') ->
  msg = $"EasyOCR initialization failed. Ensure dependencies are installed or choose --engine tesseract."
  /\ exists w0 ready,
       (ensure_directory output_dir ;;;
        ensure_directory (joinpath output_dir $"converted") ;;;
        ensure_directory (joinpath output_dir $"ocr_raw") ;;;
        (if save_preprocessed
         then ensure_directory (joinpath output_dir $"preprocessed")
         else ret tt)) w = (Ok tt, w0)
       /\ prepare_images input_dir (joinpath output_dir $"converted") w0
          = (Ok ready, w')
       /\ ready <> [].
Proof.
  intros Hno. unfold run_pipeline.
  destruct (ensure_directory_step output_dir w)
    as (ra & wa & Ea & _ & _ & Da & Ra).
  unfold bind at 1. rewrite Ea.
  destruct ra as [[]|e]; [|intros [= -> _]; by destruct (Ra _ eq_refl)].
  destruct (ensure_directory_step (joinpath output_dir $"converted") wa)
    as (rb & wb & Eb & _ & _ & Db & Rb).
  unfold bind at 1. rewrite Eb.
  destruct rb as [[]|e]; [|intros [= -> _]; by destruct (Rb _ eq_refl)].
  destruct (ensure_directory_step (joinpath output_dir $"ocr_raw") wb)
    as (rc & wc & Ec & _ & _ & Dc & Rc).
  unfold bind at 1. rewrite Ec.
  destruct rc as [[]|e]; [|intros [= -> _]; by destruct (Rc _ eq_refl)].
  assert (exists rd wd,
             (if save_preprocessed
              then ensure_directory (joinpath output_dir $"preprocessed")
              else ret tt) wc = (rd, wd)
             /\ Changes.adds_dirs_only wc wd
             /\ (forall e, rd = Raise e -> exists a, e = OSError a))
    as (rd & wd & Ed & Dd & Rd).
  { destruct save_preprocessed.
    - destruct (ensure_directory_step (joinpath output_dir $"preprocessed") wc)
        as (r & w1 & ? & _ & _ & ? & ?). by exists r, w1.
    - exists (Ok tt), wc. repeat split; auto using adds_dirs_only_refl;
        discriminate. }
  unfold bind at 1.
  replace (match (if save_preprocessed
                  then Some (joinpath output_dir $"preprocessed") else None) with
           | Some d => ensure_directory d
           | None => ret tt
           end wc) with (rd, wd)
    by (rewrite <- Ed; by destruct save_preprocessed).
  destruct rd as [[]|e]; [|intros [= -> _]; by destruct (Rd _ eq_refl)].
  assert ((ensure_directory output_dir ;;;
           ensure_directory (joinpath output_dir $"converted") ;;;
           ensure_directory (joinpath output_dir $"ocr_raw") ;;;
           (if save_preprocessed
            then ensure_directory (joinpath output_dir $"preprocessed")
            else ret tt)) w = (Ok tt, wd)) as Hdirs.
  { rewrite (bind_eq _ _ _ _ _ Ea), (bind_eq _ _ _ _ _ Eb),
      (bind_eq _ _ _ _ _ Ec). exact Ed. }
  destruct (prepare_images_total input_dir (joinpath output_dir $"converted") wd)
    as (kept & w1 & Hprep & _ & _).
  unfold bind at 1. rewrite Hprep.
  destruct (map _ kept) as [|img rest] eqn:Eready.
  - unfold bind, print, ret. discriminate.
  - unfold bind at 1, Ocr.init.
    destruct languages; rewrite Hno; unfold raise; intros [= <- <-];
      (split; [reflexivity|]); exists wd, (img :: rest); done.
Qed.

End WithLibs.
Import Demo Scenarios.

Lemma record_of_saved_text_witness :
  exists text conf rot fields,
    fst (choose_best_ocr_result easyocr_engine [ [ $"in"; $"a.jpg" ] ] None
           $"auto" one_photo) = Ok (text, conf, rot)
    /\ Fs.read_bytes [ $"out"; $"ocr_raw"; $"a.txt" ]
         (snd (process_image easyocr_engine [ $"out"; $"ocr_raw" ] None
                 $"auto" [ $"in"; $"a.jpg" ] one_photo))
       = (Ok text,
          snd (process_image easyocr_engine [ $"out"; $"ocr_raw" ] None
                 $"auto" [ $"in"; $"a.jpg" ] one_photo))
    /\ Extract.parse_fields (Some text) = inr fields
    /\ Forall (fun kv =>
                 get [ ($"manufacturer", $"Rheem");
                       ($"model_number", $"ABC-123");
                       ($"serial_number", []); ($"capacity", []);
                       ($"date_of_manufacture", []);
                       ($"source_file", $"in/a.jpg");
                       ($"ocr_confidence", $"0.900");
                       ($"rotation_deg", $"90") ] (fst kv)
                 = Some (snd kv)) fields
    /\ Some $"in/a.jpg" = Some (path_str [ $"in"; $"a.jpg" ])
    /\ Some $"0.900" = Some (if Qle_bool 0 conf then format_3f conf else [])
    /\ Some $"90" = Some (Text.str_of_Z rot).
Proof.
  apply (@record_is_extracted_from_the_saved_text imaging ocr dates
           easyocr_engine [ $"out"; $"ocr_raw" ] None $"auto"
           [ $"in"; $"a.jpg" ] one_photo).
  vm_compute. reflexivity.
Defined.

Lemma preprocessed_pictures_witness :
  exists img,
    Preprocess.read_image_bgr [ $"in"; $"a.jpg" ] one_photo
    = (Ok img, one_photo)
    /\ Forall (fun rot =>
                 Fs.read_bytes
                   (joinpath [ $"out"; $"preprocessed" ]
                      (prep_name [ $"in"; $"a.jpg" ] rot))
                   (snd (choose_best_ocr_result easyocr_engine
                           [ [ $"in"; $"a.jpg" ] ]
                           (Some [ $"out"; $"preprocessed" ]) $"auto"
                           one_photo))
                 = (Ok (cv2_imencode $".png"
                          (Preprocess.preprocess_for_ocr img rot)),
                    snd (choose_best_ocr_result easyocr_engine
                           [ [ $"in"; $"a.jpg" ] ]
                           (Some [ $"out"; $"preprocessed" ]) $"auto"
                           one_photo)))
         (rotation_candidates $"auto").
Proof.
  apply (@preprocessed_pictures_are_saved_per_rotation imaging ocr
           easyocr_engine [ $"in"; $"a.jpg" ] [ $"out"; $"preprocessed" ]
           $"auto" one_photo _
           ($"RHEEM Model No: ABC-123 @90", (9 # 10)%Q, 90)).
  vm_compute. reflexivity.
Defined.

Lemma eight_columns_witness :
  Forall (fun r =>
            keys r = [ $"manufacturer"; $"model_number"; $"serial_number";
                       $"capacity"; $"date_of_manufacture"; $"source_file";
                       $"ocr_confidence"; $"rotation_deg" ]
            /\ exists rot,
                 rot ∈ rotation_candidates $"auto"
                 /\ get r $"rotation_deg" = Some (Text.str_of_Z rot))
    mixed_folder_records
  /\ IoUtils.infer_fieldnames mixed_folder_records = IoUtils.preferred.
Proof.
  apply (@records_have_exactly_the_eight_columns imaging ocr dates json
           demo_in [ $"out" ] EASYOCR [] false true false $"auto"
           mixed_folder (snd (demo_run mixed_folder)) mixed_folder_records).
  vm_compute. reflexivity.
Defined.

Lemma last_line_witness :
  last (stdout (snd (demo_run mixed_folder)))
  = Some ($"Done. Processed "
          ++ Text.str_of_Z (Z.of_nat (length mixed_folder_records))
          ++ $" image(s). Output: " ++ path_str [ $"out" ]).
Proof.
  apply (@last_line_counts_the_records imaging ocr dates json
           demo_in [ $"out" ] EASYOCR [] false true false $"auto"
           mixed_folder (snd (demo_run mixed_folder)) mixed_folder_records).
  vm_compute. reflexivity.
Defined.

Lemma no_image_witness :
  match demo_run no_images with
  | (Ok records, w') =>
      records = []
      /\ stdout w' = stdout no_images ++ [ $"No images found in input folder." ]
      /\ calls w' = calls no_images
      /\ Changes.adds_dirs_only no_images w'
  | (Raise e, w') => exists a, e = OSError a
  end.
Proof.
  apply (@no_image_means_no_engine_and_no_file imaging ocr dates json
           demo_in [ $"out" ] EASYOCR [] false true false $"auto" no_images).
  vm_compute. reflexivity.
Defined.

Lemma missing_engine_witness :
  $"EasyOCR initialization failed. Ensure dependencies are installed or choose --engine tesseract."
  = $"EasyOCR initialization failed. Ensure dependencies are installed or choose --engine tesseract."
  /\ exists w0 ready,
       (ensure_directory [ $"out" ] ;;;
        ensure_directory (joinpath [ $"out" ] $"converted") ;;;
        ensure_directory (joinpath [ $"out" ] $"ocr_raw") ;;;
        ret tt) one_photo = (Ok tt, w0)
       /\ prepare_images demo_in (joinpath [ $"out" ] $"converted") w0
          = (Ok ready, snd (@demo_run imaging without_easyocr one_photo))
       /\ ready <> [].
Proof.
  apply (@missing_engine_is_reported_after_staging imaging without_easyocr
           dates json demo_in [ $"out" ] [] false true false $"auto"
           one_photo).
  - intros l. reflexivity.
  - vm_compute. reflexivity.
Defined.

End MainProps.

(** * The confidence as printed *)
Module FormatProps.
Import Main.

Lemma round_half_even_close (q : Q) :
  (inject_Z (round_half_even q) - (1 # 2) <= q
   /\ q <= inject_Z (round_half_even q) + (1 # 2))%Q.
Proof.
  destruct q as [n d]. unfold round_half_even. cbn [Qnum Qden].
  pose proof (Z.div_mod n (Z.pos d) ltac:(lia)) as Hdm.
  pose proof (Z.mod_pos_bound n (Z.pos d) ltac:(lia)) as Hr.
  set (fl := n / Z.pos d) in *. set (r := n mod Z.pos d) in *.
  clearbody fl r.
  destruct (Z.compare_spec (2 * r) (Z.pos d)) as [Ecmp|Ecmp|Ecmp];
    [destruct (Z.even fl)| |];
    unfold Qle, Qminus, Qplus, Qopp, inject_Z; cbn [Qnum Qden];
    rewrite ?Pos2Z.inj_mul; split; nia.
Qed.

Lemma round_half_even_mono_bounds (q : Q) (lo hi : Z) :
  (inject_Z lo <= q)%Q -> (q <= inject_Z hi)%Q ->
  lo <= round_half_even q <= hi.
Proof.
  intros Hlo Hhi. destruct (round_half_even_close q) as [H1 H2].
  assert (inject_Z lo - (1 # 2) <= inject_Z (round_half_even q))%Q as Ha by lra.
  assert (inject_Z (round_half_even q) <= inject_Z hi + (1 # 2))%Q as Hb by lra.
  revert Ha Hb. unfold Qle, Qminus, Qplus, Qopp, inject_Z. cbn [Qnum Qden].
  rewrite ?Pos2Z.inj_mul. lia.
Qed.

Lemma thousandths_printed :
  forallb (fun k =>
             let n := Z.of_nat k in
             let s := Text.str_of_Z (n / 1000) ++ $"."
                      ++ Extract.pad_left 3 (Text.str_of_Z (n mod 1000)) in
             (Readers.digits_value s =? n) && (length s =? 5)%nat
             && bool_decide (s !! 1%nat = Some "."%char))
    (seq 0 1001) = true.
Proof. vm_compute. reflexivity. Qed.

(** X23: a confidence between 0 and 1 is printed with five characters, one
    digit, a dot and three digits, and the number of thousandths they
    spell is the nearest one to the confidence (at most half a thousandth
    away). *)
Theorem confidence_is_printed_to_the_nearest_thousandth (conf : Q) :
  (0 <= conf)%Q -> (conf <= 1)%Q ->
  length (format_3f conf) = 5%nat
  /\ format_3f conf !! 1%nat = Some "."%char
  /\ (inject_Z (Readers.digits_value (format_3f conf)) - (1 # 2) <= conf * 1000
      /\ conf * 1000 <= inject_Z (Readers.digits_value (format_3f conf)) + (1 # 2))%Q.
Proof.
  intros H0 H1. unfold format_3f.
  set (n := round_half_even (conf * 1000)).
  assert (0 <= n <= 1000) as Hn.
  { apply round_half_even_mono_bounds.
    - change (inject_Z 0) with 0%Q. nra.
    - change (inject_Z 1000) with 1000%Q. nra. }
  pose proof thousandths_printed as Hall. rewrite forallb_forall in Hall.
  assert (In (Z.to_nat n) (seq 0 1001)) as Hin by (apply in_seq; lia).
  specialize (Hall _ Hin). clear Hin.
  rewrite Z2Nat.id in Hall by lia. cbv zeta in Hall.
  apply andb_prop in Hall as [Hall Hdot].
  apply andb_prop in Hall as [Hval Hlen].
  apply Z.eqb_eq in Hval. apply Nat.eqb_eq in Hlen.
  apply bool_decide_eq_true in Hdot.
  split; [exact Hlen|]. split; [exact Hdot|]. rewrite Hval.
  apply round_half_even_close.
Qed.

Lemma confidence_printed_witness :
  length (format_3f (12345 # 100000)) = 5%nat
  /\ format_3f (12345 # 100000) !! 1%nat = Some "."%char
  /\ (inject_Z (Readers.digits_value (format_3f (12345 # 100000))) - (1 # 2)
      <= (12345 # 100000) * 1000
      /\ (12345 # 100000) * 1000
         <= inject_Z (Readers.digits_value (format_3f (12345 # 100000)))
            + (1 # 2))%Q.
Proof.
  apply (confidence_is_printed_to_the_nearest_thousandth (12345 # 100000));
    unfold Qle; cbn; lia.
Defined.

(** 0.12345 is printed as 0.123, and 0.0625 as 0.062: a tie goes to the
    even thousandth. *)
Example format_3f_examples :
  format_3f (12345 # 100000) = $"0.123" /\ format_3f (625 # 10000) = $"0.062"
  /\ format_3f 1 = $"1.000".
Proof. repeat split; vm_compute; reflexivity. Qed.

End FormatProps.

(** * The CSV file on disk *)
Module IoProps.
Import Dict IoUtils IoFacts.

Lemma csv_text_written (records : list dict) :
  csv_text records
  = (concat (map Csv.write_row
               (infer_fieldnames records
                  :: map (fun r =>
                            map (fun key => default [] (get r key))
                              (infer_fieldnames records))
                       records)),
     None).
Proof.
  unfold csv_text.
  rewrite write_rows_ok by (intros r key; apply infer_fieldnames_covers).
  cbn [map concat]. by rewrite map_map.
Qed.

Lemma dict_reader_written (records : list dict) :
  Csv.dict_reader (fst (csv_text records))
  = Some (infer_fieldnames records,
          map (fun r =>
                 {| Csv.cells :=
                      map (fun key => (key, Some (default [] (get r key))))
                        (infer_fieldnames records);
                    Csv.rest_values := [] |})
            records).
Proof.
  rewrite csv_text_written. cbn [fst]. unfold Csv.dict_reader.
  rewrite CsvFacts.read_written. f_equal. f_equal.
  rewrite filter_nonempty_all.
  - rewrite map_map. apply map_ext. intros r. f_equal.
    + apply zip_row_full.
    + apply drop_ge. by rewrite length_map.
  - apply Forall_forall. intros row Hrow.
    apply list_elem_of_fmap in Hrow as (r & -> & _).
    rewrite infer_fieldnames_eq. discriminate.
Qed.

(** C6: for every list of records, the header that [write_csv_records]
    writes is the eight preferred columns, in their order, followed by the
    other keys of the records in the order they are first seen; every key
    of every record is a column and no column is repeated.  When the call
    returns, the file at [path] holds the header line followed by one line
    per record; reading that file back ([csv.reader], then
    [csv.DictReader]) gives the header and one row per record, in order,
    each row holding under every column the value the record has for it
    (the empty string when the record lacks the key); nothing else in the
    file tree has changed but the directories above [path].  The call
    raises only an [OSError], when [path] is a directory or a regular file
    stands where a directory is needed, and then no existing entry has
    changed. *)
Theorem C6_csv_file_header_rows_and_read_back (path : Path)
    (records : list dict) (w : world) :
  let header := infer_fieldnames records in
  let value (r : dict) (key : str) := default [] (get r key) in
  let rows := map (fun r => map (value r) header) records in
  header = preferred ++ first_seen preferred (concat (map keys records))
  /\ take 8 header = preferred
  /\ NoDup header
  /\ (forall r key, r ∈ records -> key ∈ keys r -> key ∈ header)
  /\ match write_csv_records path records w with
     | (Ok _, w') =>
         exists text,
           Fs.read_bytes path w' = (Ok text, w')
           /\ text = Csv.write_row header ++ concat (map Csv.write_row rows)
           /\ Csv.read text = Some (header :: rows)
           /\ Csv.dict_reader text
              = Some (header,
                      map (fun r =>
                             {| Csv.cells :=
                                  map (fun key => (key, Some (value r key)))
                                    header;
                                Csv.rest_values := [] |})
                        records)
           /\ length rows = length records
           /\ (forall a, a <> path ->
                         a ∉ Fs.ancestors_and_self (parent path) ->
                         fs w' !! a = fs w !! a)
     | (Raise e, w') =>
         keeps_files w w'
         /\ ((fs w !! path = Some Dir /\ e = OSError path)
             \/ exists a data,
                  a ∈ Fs.ancestors_and_self (parent path)
                  /\ fs w !! a = Some (File data) /\ e = OSError a)
     end.
Proof.
  intros header value rows.
  destruct (csv_header_rows_and_read_back records)
    as (Hheader & Htake & Hnodup & Hcover & text & Htext & Hshape & Hread
        & Hdict & Hlen).
  fold header in Hheader, Htake, Hnodup, Hcover, Hshape, Hread, Hdict.
  fold value in Hshape, Hread, Hdict, Hlen.
  fold rows in Hshape, Hread, Hlen.
  split; [exact Hheader|]. split; [exact Htake|]. split; [exact Hnodup|].
  split; [exact Hcover|].
  unfold write_csv_records. rewrite Htext.
  pose proof (FsProps.write_after_mkdir path text w) as Hw.
  unfold bind in Hw |- *.
  destruct (Fs.mkdir_parents (parent path) w) as [[[]|e] w1].
  - destruct (Fs.write_bytes path text w1) as [[[]|e] w2].
    + destruct Hw as (Hfile & _ & Hothers).
      exists text. unfold ret. auto 10.
    + exact Hw.
  - exact Hw.
Qed.

Import Demo.

(** The file written for the record of the demonstration photograph. *)
Example csv_file_of_one_photo :
  let w' := snd (write_csv_records [ $"out"; $"extracted.csv" ]
                   one_photo_records one_photo) in
  fst (write_csv_records [ $"out"; $"extracted.csv" ] one_photo_records
         one_photo) = Ok tt
  /\ fs w' !! [ $"out" ] = Some Dir
  /\ exists text,
       fs w' !! [ $"out"; $"extracted.csv" ] = Some (File text)
       /\ Csv.read text
          = Some [ [ $"source_file"; $"manufacturer"; $"model_number";
                     $"serial_number"; $"capacity"; $"date_of_manufacture";
                     $"ocr_confidence"; $"rotation_deg" ];
                   [ $"out/converted/a.jpg"; $"Rheem"; $"ABC-123"; []; [];
                     []; $"0.900"; $"90" ] ].
Proof.
  cbv zeta. split; [vm_compute; reflexivity|].
  split; [vm_compute; reflexivity|].
  eexists. split; vm_compute; reflexivity.
Qed.

End IoProps.

(** * What a run may change *)
Module FrameProps.
Import Main Dict HeicUtils Selector Changes.

(** ** Paths in and around a directory *)

Lemma is_under_app (out l : Path) : l <> [] -> is_under out (out ++ l) = true.
Proof.
  intros Hl. induction out as [|x out IH]; cbn [app is_under].
  - by destruct l.
  - by rewrite bool_decide_eq_true_2, IH.
Qed.

Lemma within_below (out l : Path) : l <> [] -> within out (out ++ l).
Proof. intros Hl. right. by apply is_under_app. Qed.

Lemma within_ancestors (out l a : Path) :
  a ∈ Fs.ancestors_and_self (out ++ l) -> within out a.
Proof.
  unfold Fs.ancestors_and_self. intros Ha.
  apply list_elem_of_fmap in Ha as (n & -> & Hn).
  apply list_elem_of_In, in_seq in Hn.
  destruct (decide (n <= length out)%nat) as [Hle|Hgt].
  - left. rewrite take_app_le by exact Hle.
    apply list_elem_of_fmap. exists n. split; [reflexivity|].
    apply list_elem_of_In, in_seq. lia.
  - rewrite take_app_ge by lia. apply within_below.
    rewrite length_app in Hn.
    destruct l; [cbn in Hn; lia|]. destruct (n - length out)%nat eqn:E; [lia|].
    discriminate.
Qed.

(** ** The rules *)

Section Rules.
Context (out : Path).

Lemma changes_within_refl (w : world) : changes_within out w w.
Proof. intros a. by left. Qed.

Lemma changes_within_trans (w1 w2 w3 : world) :
  changes_within out w1 w2 -> changes_within out w2 w3 ->
  changes_within out w1 w3.
Proof.
  intros H12 H23 a. destruct (H23 a) as [E23|?]; [|by right].
  destruct (H12 a) as [E12|?]; [|by right]. left. congruence.
Qed.

Lemma changes_within_same (w w' : world) :
  fs w' = fs w -> changes_within out w w'.
Proof. intros E a. left. by rewrite E. Qed.

Lemma frames_ret {A} (x : A) : frames (changes_within out) (ret x).
Proof. intros w r w' [= _ <-]. apply changes_within_refl. Qed.

Lemma frames_raise {A} (e : exn) : frames (changes_within out) (@raise A e).
Proof. intros w r w' [= _ <-]. apply changes_within_refl. Qed.

Lemma frames_print (msg : str) : frames (changes_within out) (print msg).
Proof. intros w r w' [= _ <-]. by apply changes_within_same. Qed.

Lemma frames_record_call (e : event) :
  frames (changes_within out) (record_call e).
Proof. intros w r w' [= _ <-]. by apply changes_within_same. Qed.

Lemma frames_bind {A B} (c : Run A) (k : A -> Run B) :
  frames (changes_within out) c ->
  (forall a, frames (changes_within out) (k a)) ->
  frames (changes_within out) (bind c k).
Proof.
  intros Hc Hk w r w'. unfold bind.
  destruct (c w) as [[a|e] w1] eqn:Ec.
  - intros Hrun. eapply changes_within_trans; [by eapply Hc|by eapply Hk].
  - intros [= _ <-]. by eapply Hc.
Qed.

Lemma frames_try_except {A} (c : Run A) (h : exn -> Run A) :
  frames (changes_within out) c ->
  (forall e, frames (changes_within out) (h e)) ->
  frames (changes_within out) (try_except c h).
Proof.
  intros Hc Hh w r w'. unfold try_except.
  destruct (c w) as [[a|e] w1] eqn:Ec.
  - intros [= _ <-]. by eapply Hc.
  - destruct (is_Exception e).
    + intros Hrun. eapply changes_within_trans; [by eapply Hc|by eapply Hh].
    + intros [= _ <-]. by eapply Hc.
Qed.

Lemma frames_mkdir_parents (l : Path) :
  frames (changes_within out) (Fs.mkdir_parents (out ++ l)).
Proof.
  intros w r w' Hrun. apply mkdir_each_spec in Hrun as (_ & _ & _ & Hfs).
  intros a. destruct (Hfs a) as [|(_ & Ha & _)]; [by left|right].
  by eapply within_ancestors.
Qed.

Lemma frames_read_bytes (p : Path) : frames (changes_within out) (Fs.read_bytes p).
Proof.
  intros w r w'. unfold Fs.read_bytes, bind, get_fs, ret, raise.
  destruct (fs w !! p) as [[|d]|]; intros [= _ <-]; apply changes_within_refl.
Qed.

Lemma frames_path_exists (p : Path) :
  frames (changes_within out) (Fs.path_exists p).
Proof. intros w r w' [= _ <-]. apply changes_within_refl. Qed.

Lemma frames_write_bytes (l : Path) (d : bytes) :
  l <> [] -> frames (changes_within out) (Fs.write_bytes (out ++ l) d).
Proof.
  intros Hl w r w'. unfold Fs.write_bytes, bind, get_fs, put_fs, raise.
  destruct (fs w !! (out ++ l)) as [[|old]|]; intros [= _ <-];
    try apply changes_within_refl;
    intros a; cbn [fs]; (destruct (decide (out ++ l = a)) as [<-|Hne];
      [right; by apply within_below | left; by apply lookup_insert_ne]).
Qed.

Lemma frames_get_fs : frames (changes_within out) get_fs.
Proof. intros w r w' [= _ <-]. apply changes_within_refl. Qed.

Lemma parent_below (l : Path) :
  l <> [] -> parent (out ++ l) = out ++ removelast l.
Proof. intros Hl. unfold parent. by apply removelast_app. Qed.

Lemma frames_mkdir_write (l : Path) (d : bytes) :
  l <> [] ->
  frames (changes_within out)
    (Fs.mkdir_parents (parent (out ++ l)) ;;; Fs.write_bytes (out ++ l) d).
Proof.
  intros Hl. rewrite parent_below by exact Hl.
  apply frames_bind; [apply frames_mkdir_parents|intros _].
  by apply frames_write_bytes.
Qed.

End Rules.

Ltac frame_step :=
  lazymatch goal with
  | |- frames _ (ret _) => apply frames_ret
  | |- frames _ (raise _) => apply frames_raise
  | |- frames _ (print _) => apply frames_print
  | |- frames _ (record_call _) => apply frames_record_call
  | |- frames _ get_fs => apply frames_get_fs
  | |- frames _ (Fs.read_bytes _) => apply frames_read_bytes
  | |- frames _ (Fs.path_exists _) => apply frames_path_exists
  | |- frames _ (Fs.mkdir_parents _) => apply frames_mkdir_parents
  | |- frames _ (Fs.write_bytes _ _) => apply frames_write_bytes; assumption
  | |- frames _ (bind _ _) => apply frames_bind; [|intros ?]
  | |- frames _ (try_except _ _) => apply frames_try_except; [|intros ?]
  end.

Section Pipeline.
Context `{OcrLib} `{DateLib} `{JsonLib} `{OsLib}.
Context (out : Path).

Lemma frames_save_image (img : image) (l : Path) :
  l <> [] -> frames (changes_within out) (Preprocess.save_image img (out ++ l)).
Proof. intros Hl. unfold Preprocess.save_image. by apply frames_mkdir_write. Qed.

Lemma frames_write_text (l : Path) (content : option str) :
  l <> [] -> frames (changes_within out) (IoUtils.write_text (out ++ l) content).
Proof. intros Hl. by apply frames_mkdir_write. Qed.

Lemma frames_write_json (l : Path) (records : list dict) :
  l <> [] ->
  frames (changes_within out) (IoUtils.write_json_records (out ++ l) records).
Proof. intros Hl. by apply frames_mkdir_write. Qed.

Lemma frames_write_csv (l : Path) (records : list dict) :
  l <> [] ->
  frames (changes_within out) (IoUtils.write_csv_records (out ++ l) records).
Proof.
  intros Hl. unfold IoUtils.write_csv_records.
  rewrite parent_below by exact Hl.
  destruct (IoUtils.csv_text records) as [text err].
  repeat frame_step. destruct err; frame_step.
Qed.

Lemma frames_convert (src l : Path) :
  l <> [] -> frames (changes_within out) (convert_heic_to_png src (out ++ l)).
Proof.
  intros Hl. unfold convert_heic_to_png. repeat frame_step.
  destruct (heif_to_png _); [|frame_step].
  rewrite parent_below by exact Hl. repeat frame_step.
Qed.

Lemma frames_copy2 (src l : Path) :
  l <> [] -> frames (changes_within out) (Fs.copy2 src (out ++ l)).
Proof.
  intros Hl. unfold Fs.copy2. repeat frame_step.
Qed.

Lemma frames_prepare_one (c : Path) (ready : list Path) (q : Path) :
  frames (changes_within out) (prepare_one (out ++ c) ready q).
Proof.
  unfold prepare_one, out_png, out_copy, joinpath.
  rewrite <- !app_assoc.
  assert (forall nm : str, c ++ [nm] <> []) as Hne by (intros nm; by destruct c).
  frame_step; [frame_step|].
  destruct (negb _ || negb _); [frame_step|].
  destruct (is_heic q).
  - frame_step; [frame_step|]. destruct (negb _); [|frame_step].
    frame_step; [|repeat frame_step].
    frame_step; [by apply frames_convert|frame_step].
  - frame_step; [frame_step|]. destruct (negb _); [|frame_step].
    frame_step; [|repeat frame_step].
    rewrite parent_below by apply Hne.
    frame_step; [frame_step|].
    frame_step; [by apply frames_copy2|frame_step].
Qed.

Lemma frames_prepare_images (input_dir c : Path) :
  frames (changes_within out) (prepare_images input_dir (out ++ c)).
Proof.
  unfold prepare_images. frame_step; [frame_step|].
  generalize (sorted (Fs.rglob a input_dir)). generalize (@nil Path).
  intros ready paths. revert ready.
  induction paths as [|q paths IH]; intros ready; cbn [prepare_loop];
    [frame_step|].
  frame_step; [apply frames_prepare_one | apply IH].
Qed.

Lemma frames_read_image (p : Path) :
  frames (changes_within out) (Preprocess.read_image_bgr p).
Proof.
  unfold Preprocess.read_image_bgr. frame_step; [frame_step|].
  destruct (cv2_imdecode a); frame_step.
Qed.

Lemma frames_choose_best (engine : OCREngine) (image_paths : list Path)
    (sd : option Path) (mode : str) :
  (forall d, sd = Some d -> exists l, d = out ++ l) ->
  frames (changes_within out)
    (choose_best_ocr_result engine image_paths sd mode).
Proof.
  intros Hsd. unfold choose_best_ocr_result.
  generalize (rotation_candidates mode). generalize initial_best.
  intros best rots. revert best.
  induction image_paths as [|p paths IH]; intros best; cbn [try_images];
    [frame_step|].
  frame_step; [apply frames_read_image|].
  frame_step; [|apply IH].
  clear IH. revert best.
  induction rots as [|rot rots IH]; intros best; cbn [try_rotations];
    [frame_step|].
  frame_step.
  - destruct sd as [d|]; [|frame_step].
    destruct (Hsd d eq_refl) as [l ->]. unfold joinpath.
    rewrite <- app_assoc. apply frames_save_image. by destruct l.
  - destruct (Ocr.run engine _) as [text conf]. apply IH.
Qed.

Lemma frames_process_images (engine : OCREngine) (raw : Path)
    (sd : option Path) (mode : str) (ready : list Path) :
  (forall d, sd = Some d -> exists l, d = out ++ l) ->
  forall acc,
    frames (changes_within out)
      (process_images engine (out ++ raw) sd mode ready acc).
Proof.
  intros Hsd. induction ready as [|img ready IH]; intros acc;
    cbn [process_images]; [frame_step|].
  frame_step; [|apply IH].
  unfold process_image. frame_step; [by apply frames_choose_best|].
  destruct a as [[best_text best_conf] best_rot].
  frame_step.
  - unfold joinpath. rewrite <- app_assoc. apply frames_write_text.
    by destruct raw.
  - destruct (Extract.parse_fields _); frame_step.
Qed.

Lemma frames_init (engine_type : OCREngineType) (languages : list str) :
  frames (changes_within out) (Ocr.init engine_type languages).
Proof.
  unfold Ocr.init.
  destruct engine_type;
    [destruct (easyocr_available _)|destruct pytesseract_available];
    frame_step.
Qed.

Lemma frames_ensure_directory (l : Path) :
  frames (changes_within out) (ensure_directory (out ++ l)).
Proof. apply frames_mkdir_parents. Qed.

End Pipeline.

Section Run.
Context `{OcrLib} `{DateLib} `{JsonLib} `{OsLib}.

(** X24: whether it returns or raises, a run changes nothing outside the
    output directory: an entry of the file tree that differs after the run
    is the output directory, one of its ancestors, or lies below it. *)
Theorem run_changes_nothing_outside_the_output_directory
    (input_dir output_dir : Path) (engine_type : OCREngineType)
    (languages : list str) (write_json write_csv save_preprocessed : bool)
    (rotation_mode : str) (w w' : world) (r : result (list dict)) (a : Path) :
  run_pipeline input_dir output_dir engine_type languages write_json
    write_csv save_preprocessed rotation_mode w = (r, w') ->
  fs w' !! a <> fs w !! a ->
  a ∈ Fs.ancestors_and_self output_dir \/ is_under output_dir a = true.
Proof.
  intros Hrun Hdiff.
  assert (frames (changes_within output_dir)
            (run_pipeline input_dir output_dir engine_type languages write_json
               write_csv save_preprocessed rotation_mode)) as Hframes.
  { unfold run_pipeline, joinpath.
    frame_step.
    { rewrite <- (app_nil_r output_dir) at 2. apply frames_ensure_directory. }
    frame_step; [apply frames_ensure_directory|].
    frame_step; [apply frames_ensure_directory|].
    frame_step.
    { destruct save_preprocessed; [apply frames_ensure_directory|frame_step]. }
    apply frames_bind; [apply frames_prepare_images|intros ready].
    destruct ready as [|img rest]; [repeat frame_step|].
    frame_step; [apply frames_init|].
    frame_step.
    { apply frames_process_images. intros d Hd.
      destruct save_preprocessed; [|discriminate]. injection Hd as <-. eauto. }
    frame_step.
    { destruct write_csv; [by apply frames_write_csv|frame_step]. }
    frame_step.
    { destruct write_json; [by apply frames_write_json|frame_step]. }
    repeat frame_step. }
  destruct (Hframes _ _ _ Hrun a) as [Hsame|Hin]; [by rewrite Hsame in Hdiff|].
  exact Hin.
Qed.

End Run.
Import Demo Scenarios.

Lemma run_changes_witness :
  [ $"out"; $"extracted.csv" ] ∈ Fs.ancestors_and_self [ $"out" ]
  \/ is_under [ $"out" ] [ $"out"; $"extracted.csv" ] = true.
Proof.
  apply (@run_changes_nothing_outside_the_output_directory imaging ocr dates
           json demo_in [ $"out" ] EASYOCR [] false true false $"auto"
           one_photo (snd (demo_run one_photo)) (fst (demo_run one_photo))
           [ $"out"; $"extracted.csv" ]).
  - vm_compute. reflexivity.
  - vm_compute. discriminate.
Defined.

End FrameProps.
